(** * musicsite: the catalog route and the MusicPlayer component

    A shallow embedding of [src/app/api/music/route.ts] and of the MusicPlayer
    component of [src/app/player.tsx] (the variant with drag seeking and the
    [trackEndedRef] flag), and the properties the specification states of them.
    What the component renders from its state (the time display, the progress
    fill, the title) and the numbers of a frame of [src/app/visualizer.tsx]
    are embedded as well, with further properties read off the code.

    Conventions of the embedding.

    - A JavaScript number that is finite is a rational ([Q]); where the code
      tests for [NaN] (an unknown duration) the number is an [option Q] and
      [None] is [NaN].  Arithmetic on times and positions is exact; the
      product in [selectRandomTrack], whose integer part is an index, is
      rounded to a double as JavaScript rounds it ([multiply]).
    - React state is the record [Render]: the values one render of the
      component sees.  A handler or a callback created during a render closes
      over that render, so every handler takes the render it was created in
      as its first argument [r]; the setters act on the latest state kept in
      the [World].
    - Refs, the audio element and the audio context are mutable and shared:
      they live in the [World] and are read at the time of use.
    - [await], [setTimeout] and promise callbacks split a function: the part
      after the split is a continuation ([Cont]) that waits in [pending] until
      the environment settles it.
    - The environment is the browser and the user: it fulfils or rejects
      promises, fires timers and media events, and supplies [Math.random()]
      and the pointer coordinates.  The element starts to play only when the
      component calls [play()] and the promise is fulfilled (it then fires
      [play]); [pause()] on a playing element fires [pause]; [load()] resets
      the element and pauses it silently.  A button can be clicked when the
      JSX renders it and does not disable it.
    - After every handler React renders, and the effects whose dependencies
      changed run ([commit]).  The [play] event of a fulfilled [play()] is a
      handler of its own: React renders after it, before the continuation of
      the promise runs ([react]).
    - [console.log]/[console.error] calls are not modelled. *)

From Stdlib Require Import Ascii DecimalString Lqa Qpower Qabs.
From Stdlib Require Import List String Bool Arith ZArith QArith Qround Qminmax Lia.
Import ListNotations.
Open Scope string_scope.

(** ** The catalog route: [src/app/api/music/route.ts] *)

(** [String.prototype.endsWith], as ECMAScript defines it: the last
    [searchLength] characters of [s] are compared with [searchString]. *)
Definition endsWith (s searchString : string) : bool :=
  let len := String.length s in
  let searchLength := String.length searchString in
  if (len <? searchLength)%nat then false
  else String.eqb (substring (len - searchLength) searchLength s) searchString.

(** What [fs.readdirSync] does: it returns the entries or throws. *)
Inductive ReadDir :=
| Entries (files : list string)
| Throws.

(** The two [fs] calls of the route, as functions of the path. *)
Record FileSystem := mkFileSystem {
  existsSync : string -> bool;
  readdirSync : string -> ReadDir
}.

Inductive Body :=
| TracksBody (tracks : list string)
| ErrorBody (message : string).

(** [NextResponse.json(body, { status })]; the status defaults to 200. *)
Record Response := mkResponse {
  status : Z;
  body : Body
}.

Definition json (b : Body) (init : option Z) : Response :=
  mkResponse (match init with Some s => s | None => 200%Z end) b.

(** [path.join(process.cwd(), "public", "music")] *)
Definition musicDirOf (cwd : string) : string := cwd ++ "/public/music".

Definition GET (cwd : string) (fs : FileSystem) : Response :=
  let musicDir := musicDirOf cwd in
  if negb (existsSync fs musicDir) then
    json (ErrorBody "Music directory not found") (Some 404%Z)
  else
    match readdirSync fs musicDir with
    | Entries files =>
        let tracks := filter (fun file => endsWith file ".mp3") files in
        json (TracksBody tracks) None
    | Throws =>
        json (ErrorBody "Failed to read music directory") (Some 500%Z)
    end.

(** ** The player component: [src/app/player.tsx] *)

(** *** React state *)

(** The [useState] cells of [MusicPlayer], as one render reads them. *)
Record Render := mkRender {
  tracks : list string;
  currentTrack : option string;
  isPlaying : bool;
  error : option string;
  muted : bool;
  showStartOverlay : bool;
  isLoading : bool;
  retryCount : Z;
  currentTime : Q;
  duration : option Q;
  isDragging : bool;
  seekPosition : option Q
}.

Definition with_tracks (v : list string) (r : Render) : Render :=
  mkRender v (currentTrack r) (isPlaying r) (error r) (muted r) (showStartOverlay r)
    (isLoading r) (retryCount r) (currentTime r) (duration r) (isDragging r) (seekPosition r).
Definition with_currentTrack (v : option string) (r : Render) : Render :=
  mkRender (tracks r) v (isPlaying r) (error r) (muted r) (showStartOverlay r)
    (isLoading r) (retryCount r) (currentTime r) (duration r) (isDragging r) (seekPosition r).
Definition with_isPlaying (v : bool) (r : Render) : Render :=
  mkRender (tracks r) (currentTrack r) v (error r) (muted r) (showStartOverlay r)
    (isLoading r) (retryCount r) (currentTime r) (duration r) (isDragging r) (seekPosition r).
Definition with_error (v : option string) (r : Render) : Render :=
  mkRender (tracks r) (currentTrack r) (isPlaying r) v (muted r) (showStartOverlay r)
    (isLoading r) (retryCount r) (currentTime r) (duration r) (isDragging r) (seekPosition r).
Definition with_muted (v : bool) (r : Render) : Render :=
  mkRender (tracks r) (currentTrack r) (isPlaying r) (error r) v (showStartOverlay r)
    (isLoading r) (retryCount r) (currentTime r) (duration r) (isDragging r) (seekPosition r).
Definition with_showStartOverlay (v : bool) (r : Render) : Render :=
  mkRender (tracks r) (currentTrack r) (isPlaying r) (error r) (muted r) v
    (isLoading r) (retryCount r) (currentTime r) (duration r) (isDragging r) (seekPosition r).
Definition with_isLoading (v : bool) (r : Render) : Render :=
  mkRender (tracks r) (currentTrack r) (isPlaying r) (error r) (muted r) (showStartOverlay r)
    v (retryCount r) (currentTime r) (duration r) (isDragging r) (seekPosition r).
Definition with_retryCount (v : Z) (r : Render) : Render :=
  mkRender (tracks r) (currentTrack r) (isPlaying r) (error r) (muted r) (showStartOverlay r)
    (isLoading r) v (currentTime r) (duration r) (isDragging r) (seekPosition r).
Definition with_currentTime (v : Q) (r : Render) : Render :=
  mkRender (tracks r) (currentTrack r) (isPlaying r) (error r) (muted r) (showStartOverlay r)
    (isLoading r) (retryCount r) v (duration r) (isDragging r) (seekPosition r).
Definition with_duration (v : option Q) (r : Render) : Render :=
  mkRender (tracks r) (currentTrack r) (isPlaying r) (error r) (muted r) (showStartOverlay r)
    (isLoading r) (retryCount r) (currentTime r) v (isDragging r) (seekPosition r).
Definition with_isDragging (v : bool) (r : Render) : Render :=
  mkRender (tracks r) (currentTrack r) (isPlaying r) (error r) (muted r) (showStartOverlay r)
    (isLoading r) (retryCount r) (currentTime r) (duration r) v (seekPosition r).
Definition with_seekPosition (v : option Q) (r : Render) : Render :=
  mkRender (tracks r) (currentTrack r) (isPlaying r) (error r) (muted r) (showStartOverlay r)
    (isLoading r) (retryCount r) (currentTime r) (duration r) (isDragging r) v.

(** *** The DOM the component holds through refs *)

(** The hidden [<audio>] element, as far as the component reads and writes
    it.  [source] is the track of its [<source>] child ([/music/<track>]).
    The last three fields are a trace: every value written to
    [audio.currentTime] (latest first) and the number of [load()] and
    [play()] calls so far. *)
Record Audio := mkAudio {
  source : option string;
  a_currentTime : Q;
  a_duration : option Q;
  paused : bool;
  a_muted : bool;
  readyState : Z;
  seeks : list Q;
  loads : nat;
  plays : nat
}.

(** [AudioContext.state] *)
Inductive AudioContextState := suspended | running | closed.

(** [progressBarRef.current.getBoundingClientRect()] *)
Record DOMRect := mkRect {
  rect_left : Q;
  rect_width : Q
}.

(** A mouse event carries [clientX]; a touch event carries [touches], each
    with its [clientX]. *)
Inductive PointerEvent :=
| MouseEv (clientX : Q)
| TouchEv (touches : list Q).

(** *** Continuations *)

(** The code after an [await], inside a [setTimeout] callback or in a
    [then]/[catch], with the render its function closed over. *)
Inductive Cont :=
| KFetchSelect (r : Render) (ts : list string)
| KInitResume
| KStartResume (r : Render)
| KStartTimer (r : Render)
| KStartPlay (r : Render)
| KToggleResume (r : Render)
| KTogglePlay (r : Render)
| KEndedTimer (r : Render)
| KErrorTimer (r : Render)
| KErrorPlay (r : Render)
| KRetryResume (r : Render)
| KRetryTimer (r : Render)
| KRetryPlay (r : Render)
| KResetClose (r : Render)
| KTrackTimer (r : Render)
| KTrackPlay (r : Render)
| KVisResume (r : Render)
| KVisPlay (r : Render).

(** What a continuation waits for. *)
Inductive Task :=
| Timer (delay : Z) (k : Cont)
| ResumePromise (k : Cont)
| PlayPromise (k : Cont)
| ClosePromise (k : Cont).

(** *** The world: latest React state, refs, pending work *)

Record World := mkWorld {
  st : Render;
  audioRef : option Audio;
  audioContextRef : option AudioContextState;
  progressBarRef : option DOMRect;
  hasInitializedRef : bool;
  progressIntervalRef : option Render;
  lastDragPositionRef : option Q;
  trackEndedRef : bool;
  pending : list Task;
  listeners : list (nat * Render);
  nextListener : nat
}.

Definition upd_st (f : Render -> Render) (w : World) : World :=
  mkWorld (f (st w)) (audioRef w) (audioContextRef w) (progressBarRef w) (hasInitializedRef w)
    (progressIntervalRef w) (lastDragPositionRef w) (trackEndedRef w) (pending w)
    (listeners w) (nextListener w).
Definition upd_audio (f : Audio -> Audio) (w : World) : World :=
  mkWorld (st w) (option_map f (audioRef w)) (audioContextRef w) (progressBarRef w)
    (hasInitializedRef w) (progressIntervalRef w) (lastDragPositionRef w) (trackEndedRef w)
    (pending w) (listeners w) (nextListener w).
Definition with_audioContextRef (v : option AudioContextState) (w : World) : World :=
  mkWorld (st w) (audioRef w) v (progressBarRef w) (hasInitializedRef w)
    (progressIntervalRef w) (lastDragPositionRef w) (trackEndedRef w) (pending w)
    (listeners w) (nextListener w).
Definition with_hasInitializedRef (v : bool) (w : World) : World :=
  mkWorld (st w) (audioRef w) (audioContextRef w) (progressBarRef w) v
    (progressIntervalRef w) (lastDragPositionRef w) (trackEndedRef w) (pending w)
    (listeners w) (nextListener w).
Definition with_progressIntervalRef (v : option Render) (w : World) : World :=
  mkWorld (st w) (audioRef w) (audioContextRef w) (progressBarRef w) (hasInitializedRef w)
    v (lastDragPositionRef w) (trackEndedRef w) (pending w) (listeners w) (nextListener w).
Definition with_lastDragPositionRef (v : option Q) (w : World) : World :=
  mkWorld (st w) (audioRef w) (audioContextRef w) (progressBarRef w) (hasInitializedRef w)
    (progressIntervalRef w) v (trackEndedRef w) (pending w) (listeners w) (nextListener w).
Definition with_trackEndedRef (v : bool) (w : World) : World :=
  mkWorld (st w) (audioRef w) (audioContextRef w) (progressBarRef w) (hasInitializedRef w)
    (progressIntervalRef w) (lastDragPositionRef w) v (pending w) (listeners w) (nextListener w).
Definition with_pending (v : list Task) (w : World) : World :=
  mkWorld (st w) (audioRef w) (audioContextRef w) (progressBarRef w) (hasInitializedRef w)
    (progressIntervalRef w) (lastDragPositionRef w) (trackEndedRef w) v (listeners w)
    (nextListener w).
Definition with_listeners (v : list (nat * Render)) (n : nat) (w : World) : World :=
  mkWorld (st w) (audioRef w) (audioContextRef w) (progressBarRef w) (hasInitializedRef w)
    (progressIntervalRef w) (lastDragPositionRef w) (trackEndedRef w) (pending w) v n.

(** *** Actions: code that reads and mutates the world *)

Definition Action (A : Type) : Type := World -> A * World.

Definition ret {A : Type} (a : A) : Action A := fun w => (a, w).
Definition bind {A B : Type} (m : Action A) (f : A -> Action B) : Action B :=
  fun w => f (fst (m w)) (snd (m w)).
Definition get : Action World := fun w => (w, w).
Definition modify (f : World -> World) : Action unit := fun w => (tt, f w).
Definition exec {A : Type} (m : Action A) (w : World) : World := snd (m w).
Definition skip : Action unit := ret tt.

Declare Scope action_scope.
Delimit Scope action_scope with action.
Notation "x <- m ;; k" := (bind m (fun x => k))
  (at level 61, m at next level, right associativity) : action_scope.
Notation "m ;; k" := (bind m (fun _ => k))
  (at level 61, right associativity) : action_scope.
Open Scope action_scope.

(** The [useState] setters. *)
Definition setTracks (v : list string) : Action unit := modify (upd_st (with_tracks v)).
Definition setCurrentTrack (v : option string) : Action unit :=
  modify (upd_st (with_currentTrack v)).
Definition setIsPlaying (v : bool) : Action unit := modify (upd_st (with_isPlaying v)).
Definition setError (v : option string) : Action unit := modify (upd_st (with_error v)).
Definition setMuted (v : bool) : Action unit := modify (upd_st (with_muted v)).
Definition setShowStartOverlay (v : bool) : Action unit :=
  modify (upd_st (with_showStartOverlay v)).
Definition setIsLoading (v : bool) : Action unit := modify (upd_st (with_isLoading v)).
Definition setRetryCount (v : Z) : Action unit := modify (upd_st (with_retryCount v)).
(** [setRetryCount((prev) => ...)]: the updater reads the latest state. *)
Definition setRetryCountWith (f : Z -> Z) : Action unit :=
  modify (upd_st (fun s => with_retryCount (f (retryCount s)) s)).
Definition setCurrentTime (v : Q) : Action unit := modify (upd_st (with_currentTime v)).
Definition setDuration (v : option Q) : Action unit := modify (upd_st (with_duration v)).
Definition setIsDragging (v : bool) : Action unit := modify (upd_st (with_isDragging v)).
Definition setSeekPosition (v : option Q) : Action unit := modify (upd_st (with_seekPosition v)).

(** [setTimeout(k, delay)] and the three kinds of promise the code awaits. *)
Definition enqueue (t : Task) : Action unit :=
  modify (fun w => with_pending (pending w ++ [t]) w).
Definition setTimeout (k : Cont) (delay : Z) : Action unit := enqueue (Timer delay k).

(** *** The audio element *)

(** The [onPlay] and [onPause] props of the [<audio>] element. *)
Definition onPlay : Action unit := setIsPlaying true.
Definition onPause : Action unit := setIsPlaying false.

(** [audio.load()]: the media element load algorithm resets the element; it
    sets [paused] without firing a [pause] event. *)
Definition audio_load : Action unit :=
  modify (upd_audio (fun a =>
    mkAudio (source a) 0 None true (a_muted a) 0 (seeks a) (loads a + 1) (plays a))).

(** [audio.innerHTML = ""] and the new [<source>] child appended. *)
Definition audio_set_source (t : string) : Action unit :=
  modify (upd_audio (fun a =>
    mkAudio (Some t) (a_currentTime a) (a_duration a) (paused a) (a_muted a) (readyState a)
      (seeks a) (loads a) (plays a))).

(** [audio.currentTime = v] *)
Definition audio_set_currentTime (v : Q) : Action unit :=
  modify (upd_audio (fun a =>
    mkAudio (source a) v (a_duration a) (paused a) (a_muted a) (readyState a)
      (v :: seeks a) (loads a) (plays a))).

Definition audio_set_muted (v : bool) : Action unit :=
  modify (upd_audio (fun a =>
    mkAudio (source a) (a_currentTime a) (a_duration a) (paused a) v (readyState a)
      (seeks a) (loads a) (plays a))).

Definition audio_set_paused (v : bool) : Action unit :=
  modify (upd_audio (fun a =>
    mkAudio (source a) (a_currentTime a) (a_duration a) v (a_muted a) (readyState a)
      (seeks a) (loads a) (plays a))).

(** [audio.pause()]: a playing element is paused and fires [pause]; a paused
    one is left as it is. *)
Definition audio_pause : Action unit :=
  w <- get ;;
  match audioRef w with
  | Some a => if paused a then skip else audio_set_paused true ;; onPause
  | None => skip
  end.

(** [audio.play()]: the call is counted and its promise is pending. *)
Definition audio_play (k : Cont) : Action unit :=
  modify (upd_audio (fun a =>
    mkAudio (source a) (a_currentTime a) (a_duration a) (paused a) (a_muted a) (readyState a)
      (seeks a) (loads a) (plays a + 1))) ;;
  enqueue (PlayPromise k).

(** A [play()] promise is fulfilled: a paused element starts and fires
    [play].  A rejected one leaves the element as it is. *)
Definition play_fulfilled : Action unit :=
  w <- get ;;
  match audioRef w with
  | Some a => if paused a then audio_set_paused false ;; onPlay else skip
  | None => skip
  end.

(** A [resume()] promise is fulfilled: a suspended context runs. *)
Definition resume_fulfilled : Action unit :=
  w <- get ;;
  match audioContextRef w with
  | Some suspended => modify (with_audioContextRef (Some running))
  | _ => skip
  end.

(** A [close()] promise is fulfilled. *)
Definition close_fulfilled : Action unit :=
  w <- get ;;
  match audioContextRef w with
  | Some _ => modify (with_audioContextRef (Some closed))
  | None => skip
  end.

Definition is_suspended (c : option AudioContextState) : bool :=
  match c with Some suspended => true | _ => false end.

(** *** The functions of the component, in the order of the source *)

(** [availableTracks[randomIndex]] *)
Definition index {A : Type} (l : list A) (i : Z) : option A :=
  if (i <? 0)%Z then None else nth_error l (Z.to_nat i).

(** The product of two numbers is a double: the exact product rounded to
    the nearest double, a tie going to the even significand (IEEE 754
    binary64: 53 significant bits, the last place never below [2^-1074]).
    Products of magnitude [2^1024] and more ([Infinity]) do not occur in the
    code embedded here.

    [ilog2 x] is the integer [e] with [2^e <= x < 2^(e+1)], for [x > 0]. *)
Definition ilog2 (x : Q) : Z :=
  let e := (Z.log2 (Qnum x) - Z.log2 (Z.pos (Qden x)))%Z in
  if Qle_bool (2 ^ e) x then e else (e - 1)%Z.

(** The nearest integer, a tie going to the even one. *)
Definition round_half_even (x : Q) : Z :=
  let f := Qfloor x in
  match Qcompare (x - inject_Z f) (1 # 2) with
  | Lt => f
  | Gt => (f + 1)%Z
  | Eq => if Z.even f then f else (f + 1)%Z
  end.

(** The exponent of the last place of the double nearest to [x]. *)
Definition ulp_exponent (x : Q) : Z := Z.max (ilog2 (Qabs x) - 52) (-1074).

(** The double nearest to [x]. *)
Definition double (x : Q) : Q :=
  if Qeq_bool x 0 then 0
  else inject_Z (round_half_even (x / 2 ^ ulp_exponent x)) * 2 ^ ulp_exponent x.

(** [x * y] on numbers. *)
Definition multiply (x y : Q) : Q := double (x * y).

(** [rnd] is the value [Math.random()] returns. *)
Definition selectRandomTrack (availableTracks : list string) (rnd : Q) : Action (option string) :=
  if (List.length availableTracks =? 0)%nat then ret None
  else
    let randomIndex :=
      Qfloor (multiply rnd (inject_Z (Z.of_nat (List.length availableTracks)))) in
    let newTrack := index availableTracks randomIndex in
    setCurrentTrack newTrack ;;
    setRetryCount 0 ;;
    ret newTrack.

(** [a !== b && !isNaN(a)] on numbers. *)
Definition changed_number (a b : option Q) : bool :=
  match a, b with
  | Some x, Some y => negb (Qeq_bool x y)
  | Some _, None => true
  | None, _ => false
  end.

Definition updateProgress (r : Render) : Action unit :=
  w <- get ;;
  match audioRef w with
  | Some a =>
      if negb (isDragging r) then
        setCurrentTime (a_currentTime a) ;;
        (if changed_number (a_duration a) (duration r) then setDuration (a_duration a) else skip)
      else skip
  | None => skip
  end.

(** The interval is kept as the render its [updateProgress] closed over. *)
Definition startProgressTracking (r : Render) : Action unit :=
  modify (with_progressIntervalRef (Some r)).

Definition stopProgressTracking : Action unit :=
  modify (with_progressIntervalRef None).

Definition clientX_of (e : PointerEvent) : option Q :=
  match e with
  | TouchEv (x :: _) => Some x
  | TouchEv [] => None
  | MouseEv x => Some x
  end.

Definition handleProgressBarInteraction (r : Render) (e : PointerEvent) : Action unit :=
  w <- get ;;
  match progressBarRef w, duration r with
  | Some rect, Some d =>
      if Qle_bool d 0 then skip
      else
        match clientX_of e with
        | None => skip
        | Some clientX =>
            let position := (clientX - rect_left rect) / rect_width rect in
            let clampedPosition := Qmax 0 (Qmin 1 position) in
            let newTime := clampedPosition * d in
            setSeekPosition (Some clampedPosition) ;;
            setCurrentTime newTime ;;
            modify (with_lastDragPositionRef (Some clampedPosition)) ;;
            (if negb (isDragging r) then
               match audioRef w with
               | Some _ => audio_set_currentTime newTime
               | None => skip
               end
             else skip)
        end
  | _, _ => skip
  end.

(** The document-level listeners [handleMove] and [handleUp] that
    [handleProgressBarDown] creates: both close over the render [r] of
    [handleProgressBarDown], and so over its [handleProgressBarInteraction]
    and [duration]. *)
Definition handleMove (r : Render) (e : PointerEvent) : Action unit :=
  match clientX_of e with
  | None => skip
  | Some _ => handleProgressBarInteraction r e
  end.

Definition removeListeners (id : nat) : Action unit :=
  modify (fun w =>
    with_listeners (filter (fun l => negb (fst l =? id)%nat) (listeners w)) (nextListener w) w).

(** Assigning [NaN] to [audio.currentTime] throws; the [catch] of [handleUp]
    only removes the listeners. *)
Definition handleUp (id : nat) (r : Render) : Action unit :=
  setIsDragging false ;;
  w <- get ;;
  match audioRef w, lastDragPositionRef w, duration r with
  | Some _, Some p, None => removeListeners id
  | Some _, Some p, Some d =>
      let newTime := p * d in
      audio_set_currentTime newTime ;;
      setCurrentTime newTime ;;
      startProgressTracking r ;;
      setSeekPosition None ;;
      removeListeners id
  | _, _, _ =>
      startProgressTracking r ;;
      setSeekPosition None ;;
      removeListeners id
  end.

Definition handleProgressBarDown (r : Render) (e : PointerEvent) : Action unit :=
  setIsDragging true ;;
  stopProgressTracking ;;
  handleProgressBarInteraction r e ;;
  modify (fun w => with_listeners (listeners w ++ [(nextListener w, r)]) (S (nextListener w)) w).

(** [fetchTracks], from the response on: [res] is [None] when the request
    failed or was not ok, and the body's [tracks] otherwise. *)
Definition fetchTracks (r : Render) (res : option (list string)) : Action unit :=
  match res with
  | None => setError (Some "Failed to load music tracks")
  | Some [] =>
      setError (Some "No music tracks found. Please add MP3 files to the /public/music/ folder.")
  | Some ts =>
      setTracks ts ;;
      (if match currentTrack r with None => true | Some _ => false end
          && (List.length (tracks r) =? 0)%nat
       then setTimeout (KFetchSelect r ts) 0
       else skip)
  end.

(** [initializeAudioContext]; [fresh] is the state a new context starts in. *)
Definition initializeAudioContext (fresh : AudioContextState) : Action unit :=
  w <- get ;;
  (match audioContextRef w with
   | None => modify (with_audioContextRef (Some fresh))
   | Some _ => skip
   end) ;;
  w' <- get ;;
  if is_suspended (audioContextRef w') then enqueue (ResumePromise KInitResume)
  else modify (with_hasInitializedRef true).

Definition startPlayback_catch : Action unit :=
  setIsLoading false ;;
  setError (Some "Failed to initialize audio playback. Please reload the page.").

(** [startPlayback] after its [await audioContextRef.current.resume()]. *)
Definition startPlayback_resumed (r : Render) : Action unit :=
  w <- get ;;
  match audioRef w with
  | Some a =>
      (if (readyState a =? 0)%Z then audio_load else skip) ;;
      setTimeout (KStartTimer r) 500
  | None => startPlayback_catch
  end.

Definition startPlayback (r : Render) : Action unit :=
  w <- get ;;
  match audioRef w, currentTrack r with
  | Some _, Some _ =>
      setIsLoading true ;;
      (if is_suspended (audioContextRef w) then enqueue (ResumePromise (KStartResume r))
       else startPlayback_resumed r)
  | _, _ => skip
  end.

Definition togglePlayPause_catch : Action unit :=
  setIsPlaying false ;;
  setIsLoading false ;;
  setError (Some "Failed to resume playback. Please try again.").

(** [togglePlayPause] after its [await audioContextRef.current.resume()]. *)
Definition togglePlayPause_resumed (r : Render) : Action unit :=
  w <- get ;;
  match audioRef w with
  | Some _ => audio_play (KTogglePlay r)
  | None => togglePlayPause_catch
  end.

(** The branch of [togglePlayPause] that pauses. *)
Definition togglePlayPause_pause : Action unit :=
  audio_pause ;;
  setIsPlaying false ;;
  stopProgressTracking.

Definition togglePlayPause (r : Render) : Action unit :=
  w <- get ;;
  match audioRef w with
  | None => skip
  | Some _ =>
      if isPlaying r then togglePlayPause_pause
      else
        setIsLoading true ;;
        (if is_suspended (audioContextRef w) then enqueue (ResumePromise (KToggleResume r))
         else togglePlayPause_resumed r)
  end.

Definition handleTrackEnded (r : Render) (rnd : Q) : Action unit :=
  modify (with_trackEndedRef true) ;;
  stopProgressTracking ;;
  setCurrentTime 0 ;;
  _ <- selectRandomTrack (tracks r) rnd ;;
  setTimeout (KEndedTimer r) 500.

Definition skipToNext (r : Render) (rnd : Q) : Action unit :=
  stopProgressTracking ;;
  setCurrentTime 0 ;;
  _ <- selectRandomTrack (tracks r) rnd ;;
  skip.

(** [msg] is [target.error?.message]. *)
Definition handleError (r : Render) (msg : option string) (rnd : Q) : Action unit :=
  setError (Some ("Error playing the track: " ++
                  match msg with
                  | None | Some "" => "Unknown error"
                  | Some m => m
                  end)) ;;
  stopProgressTracking ;;
  if (retryCount r <? 3)%Z then
    setRetryCountWith (fun prev => (prev + 1)%Z) ;;
    w <- get ;;
    match audioRef w with
    | Some _ =>
        audio_load ;;
        setTimeout (KErrorTimer r) 1000
    | None => skip
    end
  else
    _ <- selectRandomTrack (tracks r) rnd ;;
    skip.

Definition toggleMute (r : Render) : Action unit :=
  w <- get ;;
  match audioRef w with
  | Some _ =>
      audio_set_muted (negb (muted r)) ;;
      setMuted (negb (muted r))
  | None => skip
  end.

Definition retryCurrentTrack_catch : Action unit :=
  setIsLoading false ;;
  setError (Some "Failed to retry playback. Please reload the page.").

(** [retryCurrentTrack] after its [await audioContextRef.current.resume()];
    [t] is the [currentTrack] of its render. *)
Definition retryCurrentTrack_resumed (r : Render) (t : string) : Action unit :=
  w <- get ;;
  match audioRef w with
  | Some _ =>
      audio_set_source t ;;
      audio_load ;;
      setTimeout (KRetryTimer r) 500
  | None => retryCurrentTrack_catch
  end.

Definition retryCurrentTrack (r : Render) : Action unit :=
  w <- get ;;
  match audioRef w, currentTrack r with
  | Some _, Some t =>
      setIsLoading true ;;
      setError None ;;
      setCurrentTime 0 ;;
      (if is_suspended (audioContextRef w) then enqueue (ResumePromise (KRetryResume r))
       else retryCurrentTrack_resumed r t)
  | _, _ => skip
  end.

Definition resetAudioSystem_catch : Action unit :=
  setIsLoading false ;;
  setError (Some "Failed to reset audio system. Please reload the page.").

(** [resetAudioSystem] after its [await audioContextRef.current.close()]. *)
Definition resetAudioSystem_closed (r : Render) (fresh : AudioContextState) : Action unit :=
  modify (with_audioContextRef (Some fresh)) ;;
  w <- get ;;
  (match audioRef w, currentTrack r with
   | Some _, Some t =>
       audio_set_source t ;;
       audio_load
   | _, _ => skip
   end) ;;
  setIsLoading false ;;
  (if negb (showStartOverlay r) then startPlayback r else skip).

Definition resetAudioSystem (r : Render) (fresh : AudioContextState) : Action unit :=
  setIsLoading true ;;
  setError None ;;
  setCurrentTime 0 ;;
  stopProgressTracking ;;
  w <- get ;;
  match audioContextRef w with
  | Some _ => enqueue (ClosePromise (KResetClose r))
  | None => resetAudioSystem_closed r fresh
  end.

Definition handleMetadataLoaded : Action unit :=
  w <- get ;;
  match audioRef w with
  | Some a => setDuration (a_duration a)
  | None => skip
  end.

(** The effect on [currentTrack], [isPlaying], [startProgressTracking] and
    [stopProgressTracking]. *)
Definition trackChangeEffect (r : Render) : Action unit :=
  w <- get ;;
  match audioRef w, currentTrack r with
  | Some _, Some t =>
      setIsLoading true ;;
      setCurrentTime 0 ;;
      stopProgressTracking ;;
      audio_set_source t ;;
      audio_load ;;
      (if isPlaying r || trackEndedRef w then setTimeout (KTrackTimer r) 500
       else setIsLoading false)
  | _, _ => skip
  end.

(** The one-second interval of the effect on [isPlaying]; the effect sets it
    up only when [isPlaying] holds and the element exists. *)
Definition checkActuallyPlaying (r : Render) : Action unit :=
  w <- get ;;
  match audioRef w with
  | Some a =>
      if isPlaying r && paused a then
        setIsPlaying false ;;
        stopProgressTracking
      else skip
  | None => skip
  end.

(** [handleVisibilityChange] after its [await audioContextRef.current.resume()]. *)
Definition handleVisibilityChange_resumed (r : Render) : Action unit :=
  w <- get ;;
  match audioRef w with
  | Some a => if isPlaying r && paused a then audio_play (KVisPlay r) else skip
  | None => skip
  end.

(** [visible] is [document.visibilityState === "visible"]. *)
Definition handleVisibilityChange (r : Render) (visible : bool) : Action unit :=
  if visible then
    w <- get ;;
    if is_suspended (audioContextRef w) then enqueue (ResumePromise (KVisResume r))
    else handleVisibilityChange_resumed r
  else
    if isPlaying r then stopProgressTracking else skip.

(** *** Settling a pending continuation

    [ok] tells whether the awaited promise was fulfilled (a timer just
    fires), [rnd] is the next [Math.random()] and [fresh] the state of a
    newly made audio context. *)
Definition run (k : Cont) (ok : bool) (rnd : Q) (fresh : AudioContextState) : Action unit :=
  match k with
  | KFetchSelect r ts => _ <- selectRandomTrack ts rnd ;; skip
  | KInitResume =>
      if ok then modify (with_hasInitializedRef true)
      else setError (Some "Failed to initialize audio system. Please reload the page.")
  | KStartResume r => if ok then startPlayback_resumed r else startPlayback_catch
  | KStartTimer r =>
      w <- get ;;
      match audioRef w with
      | Some _ => audio_play (KStartPlay r)
      | None => skip
      end
  | KStartPlay r =>
      if ok then
        setIsPlaying true ;;
        setShowStartOverlay false ;;
        setIsLoading false ;;
        setError None ;;
        startProgressTracking r
      else
        setIsPlaying false ;;
        setIsLoading false ;;
        setError (Some "Failed to play the track. Please try again.")
  | KToggleResume r => if ok then togglePlayPause_resumed r else togglePlayPause_catch
  | KTogglePlay r =>
      if ok then
        setIsPlaying true ;;
        setIsLoading false ;;
        setError None ;;
        startProgressTracking r
      else togglePlayPause_catch
  | KEndedTimer r => startPlayback r
  | KErrorTimer r =>
      w <- get ;;
      match audioRef w with
      | Some _ => audio_play (KErrorPlay r)
      | None => skip
      end
  | KErrorPlay r => if ok then skip else _ <- selectRandomTrack (tracks r) rnd ;; skip
  | KRetryResume r =>
      if ok then
        match currentTrack r with
        | Some t => retryCurrentTrack_resumed r t
        | None => skip
        end
      else retryCurrentTrack_catch
  | KRetryTimer r =>
      w <- get ;;
      match audioRef w with
      | Some _ => audio_play (KRetryPlay r)
      | None => skip
      end
  | KRetryPlay r =>
      if ok then
        setIsPlaying true ;;
        setIsLoading false ;;
        startProgressTracking r
      else
        setIsPlaying false ;;
        setIsLoading false ;;
        setError (Some "Failed to play the track. Please try again.")
  | KResetClose r =>
      if ok then
        modify (with_audioContextRef None) ;;
        resetAudioSystem_closed r fresh
      else resetAudioSystem_catch
  | KTrackTimer r =>
      w <- get ;;
      match audioRef w with
      | Some _ => audio_play (KTrackPlay r)
      | None => skip
      end
  | KTrackPlay r =>
      if ok then
        setIsLoading false ;;
        setError None ;;
        startProgressTracking r ;;
        modify (with_trackEndedRef false)
      else
        setIsPlaying false ;;
        setIsLoading false ;;
        setError (Some "Failed to play the new track. Please try again.")
  | KVisResume r => handleVisibilityChange_resumed r
  | KVisPlay r =>
      if ok then startProgressTracking r
      else
        setIsPlaying false ;;
        stopProgressTracking
  end.

(** The promise itself settles before its continuation runs.  This is the
    settlement as the handlers see it, with no render in between; [react]
    below puts the render that follows the [play] event of a fulfilled
    [play()] between the two. *)
Definition settle (t : Task) (ok : bool) (rnd : Q) (fresh : AudioContextState) : Action unit :=
  match t with
  | Timer _ k => run k true rnd fresh
  | ResumePromise k => (if ok then resume_fulfilled else skip) ;; run k ok rnd fresh
  | PlayPromise k => (if ok then play_fulfilled else skip) ;; run k ok rnd fresh
  | ClosePromise k => (if ok then close_fulfilled else skip) ;; run k ok rnd fresh
  end.

(** *** Effects that run after a render *)

(** [Object.is] on the dependencies of the effects. *)
Definition same_number (a b : option Q) : bool :=
  match a, b with
  | Some x, Some y => Qeq_bool x y
  | None, None => true
  | _, _ => false
  end.

Definition same_track (a b : option string) : bool :=
  match a, b with
  | Some x, Some y => String.eqb x y
  | None, None => true
  | _, _ => false
  end.

(** [updateProgress] depends on [duration] and [isDragging], and
    [startProgressTracking] on [updateProgress]: a change of either makes a
    new [startProgressTracking]. *)
Definition tracking_changed (prev cur : Render) : bool :=
  negb (same_number (duration prev) (duration cur))
  || negb (Bool.eqb (isDragging prev) (isDragging cur)).

(** Dependencies [isPlaying, startProgressTracking, stopProgressTracking]. *)
Definition progressEffect_due (prev cur : Render) : bool :=
  negb (Bool.eqb (isPlaying prev) (isPlaying cur)) || tracking_changed prev cur.

(** Dependencies [currentTrack, isPlaying, startProgressTracking,
    stopProgressTracking]. *)
Definition trackChangeEffect_due (prev cur : Render) : bool :=
  negb (same_track (currentTrack prev) (currentTrack cur))
  || negb (Bool.eqb (isPlaying prev) (isPlaying cur))
  || tracking_changed prev cur.

(** The effect that starts and stops progress tracking, after its cleanup. *)
Definition progressEffect (r : Render) : Action unit :=
  stopProgressTracking ;;
  if isPlaying r then startProgressTracking r else stopProgressTracking.

(** The render that follows a handler, and the effects whose dependencies
    changed since the render [prev], in the order of the source. *)
Definition commit (prev : Render) : Action unit :=
  w <- get ;;
  let cur := st w in
  (if progressEffect_due prev cur then progressEffect cur else skip) ;;
  (if trackChangeEffect_due prev cur then trackChangeEffect cur else skip).

(** *** Events *)

Inductive Event :=
| EFetched (res : option (list string))
| EUserInteraction (fresh : AudioContextState)
| EStart
| EToggle
| ESkip (rnd : Q)
| EMute
| ERetry
| EResetAudio (fresh : AudioContextState)
| EPointerDown (e : PointerEvent)
| EPointerMove (e : PointerEvent)
| EPointerUp
| EEnded (rnd : Q)
| EError (msg : option string) (rnd : Q)
| EPaused
| EPlayed
| ELoadedMetadata (d : Q)
| EPlayhead (t : Q)
| EProgressTick
| EWatchdogTick
| EVisibility (visible : bool)
| ESettle (i : nat) (ok : bool) (rnd : Q) (fresh : AudioContextState).

(** [Math.random()] is a double in [0, 1). *)
Definition valid_random (rnd : Q) : bool :=
  Qle_bool 0 rnd && negb (Qle_bool 1 rnd) && Qeq_bool (double rnd) rnd.

Definition is_some {A : Type} (o : option A) : bool :=
  match o with Some _ => true | None => false end.

Definition has_source (w : World) : bool :=
  match audioRef w with
  | Some a => is_some (source a)
  | None => false
  end.

Definition is_empty {A : Type} (l : list A) : bool :=
  match l with [] => true | _ => false end.

(** When an event can happen: a button is rendered and not [disabled], a
    media event needs a media resource, a tick needs its interval.
    [EPaused] and [EPlayed] are the element paused or started from outside
    the component (a media key, say). *)
Definition enabled (e : Event) (w : World) : bool :=
  let r := st w in
  match e with
  | EStart => showStartOverlay r && is_some (currentTrack r) && negb (isLoading r)
  | EToggle => negb (isLoading r || negb (is_some (currentTrack r)) || is_empty (tracks r))
  | ESkip rnd => negb (isLoading r || is_empty (tracks r)) && valid_random rnd
  | EMute => negb (isLoading r)
  | ERetry | EResetAudio _ => is_some (error r)
  | EPointerDown _ => is_some (progressBarRef w)
  | EEnded rnd | EError _ rnd => has_source w && valid_random rnd
  | EPaused => match audioRef w with Some a => negb (paused a) | None => false end
  | EPlayed =>
      has_source w && match audioRef w with Some a => paused a | None => false end
  | ELoadedMetadata d => has_source w && Qle_bool 0 d
  | EPlayhead t =>
      match audioRef w with
      | Some a =>
          negb (paused a) && Qle_bool 0 t
          && match a_duration a with Some d => Qle_bool t d | None => false end
      | None => false
      end
  | EProgressTick => is_some (progressIntervalRef w)
  | EWatchdogTick => isPlaying r && is_some (audioRef w)
  | ESettle i _ rnd _ => is_some (nth_error (pending w) i) && valid_random rnd
  | EFetched _ | EUserInteraction _ | EPointerMove _ | EPointerUp | EVisibility _ => true
  end.

Fixpoint remove_nth {A : Type} (i : nat) (l : list A) : list A :=
  match i, l with
  | _, [] => []
  | O, _ :: l' => l'
  | S i', x :: l' => x :: remove_nth i' l'
  end.

Fixpoint for_each {A : Type} (f : A -> Action unit) (l : list A) : Action unit :=
  match l with
  | [] => skip
  | x :: l' => f x ;; for_each f l'
  end.

(** What the component does on an event; [r] is the render on screen.  The
    settling of a task is taken here as one handler; [react] below splits
    the fulfilment of a [play()] at the render that follows its [play]
    event. *)
Definition handle (e : Event) (r : Render) : Action unit :=
  match e with
  | EFetched res => fetchTracks r res
  | EUserInteraction fresh => initializeAudioContext fresh
  | EStart => startPlayback r
  | EToggle => togglePlayPause r
  | ESkip rnd => skipToNext r rnd
  | EMute => toggleMute r
  | ERetry => retryCurrentTrack r
  | EResetAudio fresh => resetAudioSystem r fresh
  | EPointerDown e => handleProgressBarDown r e
  | EPointerMove e =>
      w <- get ;;
      for_each (fun l => handleMove (snd l) e) (listeners w)
  | EPointerUp =>
      w <- get ;;
      for_each (fun l => handleUp (fst l) (snd l)) (listeners w)
  | EEnded rnd =>
      audio_pause ;;
      handleTrackEnded r rnd
  | EError msg rnd => handleError r msg rnd
  | EPaused => audio_pause
  | EPlayed => play_fulfilled
  | ELoadedMetadata d =>
      modify (upd_audio (fun a =>
        mkAudio (source a) (a_currentTime a) (Some d) (paused a) (a_muted a)
          (Z.max (readyState a) 1) (seeks a) (loads a) (plays a))) ;;
      handleMetadataLoaded
  | EPlayhead t =>
      modify (upd_audio (fun a =>
        mkAudio (source a) t (a_duration a) (paused a) (a_muted a) (readyState a)
          (seeks a) (loads a) (plays a)))
  | EProgressTick =>
      w <- get ;;
      match progressIntervalRef w with
      | Some r' => updateProgress r'
      | None => skip
      end
  | EWatchdogTick => checkActuallyPlaying r
  | EVisibility visible => handleVisibilityChange r visible
  | ESettle i ok rnd fresh =>
      w <- get ;;
      match nth_error (pending w) i with
      | Some t =>
          modify (with_pending (remove_nth i (pending w))) ;;
          settle t ok rnd fresh
      | None => skip
      end
  end.

(** One event: the handler runs on the render [r] on screen, then React
    renders and runs the effects.  A fulfilled [play()] makes two handlers
    run: the element starts and fires [play] ([onPlay]), React renders and
    runs the effects, and only then the continuation of the promise runs,
    followed by a render of its own. *)
Definition react (e : Event) (r : Render) : Action unit :=
  match e with
  | ESettle i true rnd fresh =>
      w <- get ;;
      match nth_error (pending w) i with
      | Some (PlayPromise k) =>
          modify (with_pending (remove_nth i (pending w))) ;;
          play_fulfilled ;;
          commit r ;;
          w1 <- get ;;
          run k true rnd fresh ;;
          commit (st w1)
      | _ => handle e r ;; commit r
      end
  | _ => handle e r ;; commit r
  end.

Definition step (e : Event) (w : World) : option World :=
  if enabled e w then Some (exec (react e (st w)) w) else None.

Fixpoint steps (es : list Event) (w : World) : option World :=
  match es with
  | [] => Some w
  | e :: es' =>
      match step e w with
      | Some w' => steps es' w'
      | None => None
      end
  end.

(** The component after its first render: the [useState] and [useRef]
    initial values, the mounted [<audio>] element without a [<source>], and
    the progress bar at [rect]. *)
Definition initialRender : Render :=
  mkRender [] None false None false true false 0%Z 0 (Some 0) false None.

Definition initialAudio : Audio :=
  mkAudio None 0 None true false 0%Z [] 0 0.

Definition initialWorld (rect : DOMRect) : World :=
  mkWorld initialRender (Some initialAudio) None (Some rect) false None None false [] [] 0.

Inductive reachable (rect : DOMRect) : World -> Prop :=
| reachable_init : reachable rect (initialWorld rect)
| reachable_step : forall e w w',
    reachable rect w -> step e w = Some w' -> reachable rect w'.

(** *** Notions the properties are stated with *)

(** The transport is Playing when [isPlaying] holds. *)
Definition Playing (w : World) : Prop := isPlaying (st w) = true.

Definition hasTrack (w : World) : Prop := currentTrack (st w) <> None.

(** An action keeps a relation when every run relates the world before to
    the world after. *)
Definition keeps {A : Type} (R : World -> World -> Prop) (m : Action A) : Prop :=
  forall w, R w (snd (m w)).

(** The selection is the same: track, retry count and catalog. *)
Definition same_selection (w w' : World) : Prop :=
  currentTrack (st w') = currentTrack (st w)
  /\ retryCount (st w') = retryCount (st w)
  /\ tracks (st w') = tracks (st w).

(** A track, once selected, stays selected. *)
Definition track_kept (w w' : World) : Prop := hasTrack w -> hasTrack w'.

(** The pending work that can exist before the first track is selected. *)
Definition inert (t : Task) : bool :=
  match t with
  | Timer _ (KFetchSelect _ _) => true
  | ResumePromise KInitResume => true
  | ResumePromise (KVisResume r) => negb (isPlaying r)
  | ClosePromise (KResetClose r) => negb (is_some (currentTrack r))
  | _ => false
  end.

(** The component before the first track is selected. *)
Definition idle (w : World) : Prop :=
  currentTrack (st w) = None
  /\ isPlaying (st w) = false
  /\ has_source w = false
  /\ forallb inert (pending w) = true.

(** The random numbers an event carries are values of [Math.random()]. *)
Definition random_ok (e : Event) : Prop :=
  match e with
  | ESkip rnd | EEnded rnd | EError _ rnd | ESettle _ _ rnd _ => valid_random rnd = true
  | _ => True
  end.

(** The component stays [idle]. *)
Definition idle_kept (w w' : World) : Prop := idle w -> idle w'.

(** The pending work only grows and the flag is read, not written. *)
Definition grows (w w' : World) : Prop :=
  trackEndedRef w' = trackEndedRef w /\ exists l, pending w' = (pending w ++ l)%list.

(** *** A session used in the examples

    The catalog holds two tracks and the progress bar spans 0..100.  The
    catalog arrives and [Math.random()] = 0 selects "a.mp3"; the user clicks
    Start; the timers fire and the [play()] promises are fulfilled; the
    metadata gives a duration of 200 s.  After these events nothing is
    pending and "a.mp3" plays. *)
Definition demoRect : DOMRect := mkRect 0 100.

Definition demoCatalog : list string := ["a.mp3"; "b.mp3"].

Definition demoStartUp : list Event :=
  [ EFetched (Some demoCatalog);
    ESettle 0 true 0 running;    (* setTimeout 0: selectRandomTrack picks "a.mp3" *)
    EUserInteraction running;    (* the audio context is made, running *)
    EStart;                      (* startPlayback *)
    ESettle 0 true 0 running;    (* its timer: play() *)
    ESettle 0 true 0 running;    (* fulfilled: isPlaying, so the track effect reloads *)
    ESettle 0 true 0 running;    (* the effect's timer: play() *)
    ESettle 0 true 0 running;    (* fulfilled *)
    ELoadedMetadata 200;         (* duration changes, so the track effect reloads *)
    ESettle 0 true 0 running;    (* the effect's timer: play() *)
    ESettle 0 true 0 running;    (* fulfilled *)
    ELoadedMetadata 200 ].

(** The world after the events [es], or [w] itself when one of them cannot
    happen. *)
Definition after (es : list Event) (w : World) : World :=
  match steps es w with
  | Some w' => w'
  | None => w
  end.

Definition playingWorld : World := after demoStartUp (initialWorld demoRect).

(** Three [error] events on "a.mp3" while it plays; after each one the
    1000 ms timer fires and the retried [play()] stays pending. *)
Definition threeFailures : list Event :=
  [ EError None 0; ESettle 0 true 0 running;   (* the timer: play(), left pending *)
    EError None 0; ESettle 1 true 0 running;
    EError None 0; ESettle 2 true 0 running ].

(** Two [error] events, then the user clicks Retry and the retried
    [play()] is fulfilled. *)
Definition manualRetry : list Event :=
  [ EError None 0; EError None 0; ERetry;
    ESettle 2 true 0 running;    (* the timer of retryCurrentTrack: play() *)
    ESettle 2 true 0 running ].  (* fulfilled *)

(** The pointer goes down on the bar at 50 and moves to 80. *)
Definition dragStart : list Event :=
  [ EPointerDown (MouseEv 50); EPointerMove (MouseEv 80) ].

(** "a.mp3" ends and [Math.random()] = 1/2 selects "b.mp3"; both timers
    fire, and both [play()] calls for "b.mp3" are rejected. *)
Definition failedAutoplay : list Event :=
  [ EEnded (1 # 2);
    ESettle 0 true 0 running;    (* the timer of handleTrackEnded: startPlayback *)
    ESettle 0 true 0 running;    (* the timer of the track effect: play() *)
    ESettle 1 false 0 running;   (* rejected *)
    ESettle 0 true 0 running;    (* the timer of startPlayback: play() *)
    ESettle 0 false 0 running ]. (* rejected *)

(** Then the user skips ([Math.random()] = 0 selects "a.mp3"), and later the
    scheduled timer fires and its [play()] is fulfilled. *)
Definition skipAfterFailure : list Event := (failedAutoplay ++ [ESkip 0])%list.

Definition skipAfterFailurePlays : list Event :=
  (skipAfterFailure ++ [ESettle 0 true 0 running; ESettle 0 true 0 running])%list.

(** After the failed auto-play the user clicks the play button and the
    [play()] is fulfilled; the render that follows reloads the element.  The
    page is hidden and shown again before the reloaded element plays, and
    the [play()] of [handleVisibilityChange] is rejected. *)
Definition resumeThenShow : list Event :=
  (failedAutoplay
   ++ [ EToggle;
        ESettle 0 true 0 running;     (* fulfilled *)
        EVisibility false;
        EVisibility true ])%list.     (* play(), pending at index 1 *)

Definition failedResumeOnShow : list Event :=
  (resumeThenShow ++ [ESettle 1 false 0 running])%list.

(** Then the timer that the render scheduled fires, and its [play()] is
    rejected as well. *)
Definition failedResumeRetried : list Event :=
  (failedResumeOnShow
   ++ [ ESettle 1 true 0 running;     (* the timer: play() *)
        ESettle 1 false 0 running ])%list.

(** A catalog of ten tracks. *)
Definition tenTracks : list string :=
  ["0.mp3"; "1.mp3"; "2.mp3"; "3.mp3"; "4.mp3"; "5.mp3"; "6.mp3"; "7.mp3"; "8.mp3"; "9.mp3"].

(** *** What the component renders *)








(** [progressPercentage], computed at every render. *)
Definition progressPercentage (r : Render) : Q :=
  match duration r with
  | Some d => if Qle_bool d 0 then 0 else currentTime r / d * 100
  | None => 0
  end.

(** The drag handle is displayed when [progressPercentage > 0]. *)
Definition dragHandleShown (r : Render) : bool := negb (Qle_bool (progressPercentage r) 0).

(** [String.prototype.replace] with a string pattern: the first occurrence
    is replaced. *)
Fixpoint replace (pattern replacement s : string) : string :=
  if prefix pattern s then
    replacement ++ substring (String.length pattern) (String.length s - String.length pattern) s
  else
    match s with
    | EmptyString => EmptyString
    | String c s' => String c (replace pattern replacement s')
    end.

(** [replace(/_/g, " ")] *)
Fixpoint replace_underscores (s : string) : string :=
  match s with
  | EmptyString => EmptyString
  | String c s' => String (if Ascii.eqb c "_" then " "%char else c) (replace_underscores s')
  end.

(** The title shown for the current track:
    [currentTrack.replace(".mp3", "").replace(/_/g, " ")], or the
    placeholder. *)
Definition trackTitle (currentTrack : option string) : string :=
  match currentTrack with
  | Some t => replace_underscores (replace ".mp3" "" t)
  | None => "No track selected"
  end.

(** *** The route as the player reads it *)

(** What [fetchTracks] gets from [fetch("/api/music")] when the route
    answers [resp]: [response.ok] holds of the statuses 200..299, and
    [data.tracks] is the [tracks] field of the body; a body without the
    field takes the same branch as an empty list. *)
Definition fetched (resp : Response) : option (list string) :=
  if ((200 <=? status resp) && (status resp <=? 299))%Z then
    match body resp with
    | TracksBody ts => Some ts
    | ErrorBody _ => Some []
    end
  else None.

(** *** Further notions the properties are stated with *)

(** The events other than the fulfilment of a [play()]: one handler and one
    render. *)
Definition plain (e : Event) (w : World) : bool :=
  match e with
  | ESettle i true _ _ =>
      match nth_error (pending w) i with
      | Some (PlayPromise _) => false
      | _ => true
      end
  | _ => true
  end.

(** The world after the [play] event of the fulfilled [play()] pending at
    [i] and the render that follows it. *)
Definition played (i : nat) (w : World) : World :=
  exec (play_fulfilled ;; commit (st w)) (with_pending (remove_nth i (pending w)) w).

(** The element and the state agree on muting. *)
Definition muted_agrees (w : World) : Prop :=
  forall a, audioRef w = Some a -> a_muted a = muted (st w).

Definition muted_kept (w w' : World) : Prop := muted_agrees w -> muted_agrees w'.

(** The element stays mounted. *)
Definition audio_kept (w w' : World) : Prop := audioRef w <> None -> audioRef w' <> None.

Definition retryCount_ok (w : World) : Prop := (0 <= retryCount (st w) <= 3)%Z.

Definition retryCount_kept (w w' : World) : Prop := retryCount_ok w -> retryCount_ok w'.

(** Whether the continuation of a settled task calls [selectRandomTrack];
    [ok] tells whether its promise was fulfilled (a timer just fires). *)
Definition task_selects (t : Task) (ok : bool) : bool :=
  match t with
  | Timer _ (KFetchSelect _ _) => true
  | ResumePromise (KFetchSelect _ _) | PlayPromise (KFetchSelect _ _)
  | ClosePromise (KFetchSelect _ _) => true
  | Timer _ _ => false
  | ResumePromise (KErrorPlay _) | PlayPromise (KErrorPlay _)
  | ClosePromise (KErrorPlay _) => negb ok
  | _ => false
  end.

(** The events whose handler calls [selectRandomTrack]. *)
Definition selects (e : Event) (w : World) : bool :=
  match e with
  | ESkip _ | EEnded _ => true
  | EError _ _ => negb (retryCount (st w) <? 3)%Z
  | ESettle i ok _ _ =>
      match nth_error (pending w) i with
      | Some t => task_selects t ok
      | None => false
      end
  | _ => false
  end.

(** The track and the retry counter are the same. *)
Definition same_track_and_count (w w' : World) : Prop :=
  currentTrack (st w') = currentTrack (st w) /\ retryCount (st w') = retryCount (st w).

Definition cont_of (t : Task) : Cont :=
  match t with
  | Timer _ k | ResumePromise k | PlayPromise k | ClosePromise k => k
  end.

(** The continuations that call [setIsLoading(false)] on every path, or hand
    over to one that does: those of [startPlayback], [togglePlayPause],
    [retryCurrentTrack], [resetAudioSystem] and the track effect. *)
Definition clears_loading (t : Task) : bool :=
  match cont_of t with
  | KStartResume _ | KStartTimer _ | KStartPlay _
  | KToggleResume _ | KTogglePlay _
  | KRetryTimer _ | KRetryPlay _
  | KResetClose _
  | KTrackTimer _ | KTrackPlay _ => true
  | KRetryResume r => is_some (currentTrack r)
  | _ => false
  end.

(** How many settlements a continuation is away, at most, from the call of
    [setIsLoading(false)]. *)
Definition handover_rank (k : Cont) : nat :=
  match k with
  | KResetClose _ => 4
  | KStartResume _ | KRetryResume _ => 3
  | KStartTimer _ | KRetryTimer _ | KToggleResume _ | KTrackTimer _ => 2
  | KStartPlay _ | KRetryPlay _ | KTogglePlay _ | KTrackPlay _ => 1
  | _ => 0
  end.

(** The element is mounted, and [isLoading] is not left without pending
    work that will clear it. *)
Definition loading_served (w : World) : Prop :=
  audioRef w <> None
  /\ (isLoading (st w) = true -> existsb clears_loading (pending w) = true).

Definition served_kept (w w' : World) : Prop := loading_served w -> loading_served w'.

(** Once there is an audio context there is one. *)
Definition context_kept (w w' : World) : Prop :=
  audioContextRef w <> None -> audioContextRef w' <> None.

Definition overlay_same (w w' : World) : Prop :=
  showStartOverlay (st w') = showStartOverlay (st w).



(** Whether a character occurs in a string. *)
Definition occurs (c : ascii) (s : string) : bool :=
  existsb (Ascii.eqb c) (list_ascii_of_string s).

(** ** The visualizer: [src/app/visualizer.tsx]

    The numbers of one frame drawn while the track plays.  [dataArray] is the
    [Uint8Array] filled by [getByteFrequencyData]; its length is
    [bufferLength], the analyser's [frequencyBinCount]. *)

Definition particleCount : Z := 200.
Definition barCount : Z := 180.
Definition radius : Q := 150.

(** [Math.floor((i / particleCount) * bufferLength)] *)
Definition particleFreqIndex (i bufferLength : Z) : Z :=
  Qfloor (inject_Z i / inject_Z particleCount * inject_Z bufferLength).

(** [Math.floor(((i / barCount) * bufferLength) / 2)] *)
Definition barFreqIndex (i bufferLength : Z) : Z :=
  Qfloor (inject_Z i / inject_Z barCount * inject_Z bufferLength / 2).

(** [dataArray[freqIndex] / 255]; an index outside the array reads
    [undefined], and the quotient is [NaN] ([None]). *)
Definition amplitudeAt (dataArray : list Z) (freqIndex : Z) : option Q :=
  option_map (fun b => inject_Z b / 255) (index dataArray freqIndex).

(** A particle as it is pushed; [p_hue] and [p_alpha] are the two numbers
    written into its [hsla(...)] colour. *)
Record Particle := mkParticle {
  p_x : Q;
  p_y : Q;
  p_size : Q;
  p_hue : Q;
  p_alpha : Q
}.

(** One turn of the particle loop: [continue], a particle pushed, or, when
    the amplitude is [NaN], a particle pushed whose coordinates, size and
    opacity are [NaN] (the test [amplitude < 0.05] is false of [NaN]). *)
Inductive Turn :=
| Continue
| Push (p : Particle)
| PushNaN.

Record Bar := mkBar {
  innerX : Q;
  innerY : Q;
  outerX : Q;
  outerY : Q;
  barHeight : Q;
  b_hue : Q
}.

Section Canvas.

(** [Math.cos], [Math.sin], [Math.PI], and the size of the canvas. *)
Variables (cos sin : Q -> Q) (PI width height : Q).

Definition particle (dataArray : list Z) (i : Z) : Turn :=
  let bufferLength := Z.of_nat (List.length dataArray) in
  let freqIndex := particleFreqIndex i bufferLength in
  match amplitudeAt dataArray freqIndex with
  | None => PushNaN
  | Some amplitude =>
      if negb (Qle_bool (5 # 100) amplitude) then Continue
      else
        let angle := inject_Z i / inject_Z particleCount * PI * 2 in
        let distance := 50 + amplitude * 200 in
        let x := width / 2 + cos angle * distance in
        let y := height / 2 + sin angle * distance in
        let size := 1 + amplitude * 5 in
        let hue := inject_Z freqIndex / inject_Z bufferLength * 260 + 180 in
        Push (mkParticle x y size hue (amplitude * (8 # 10)))
  end.

(** One turn of the loop over the bars; [None] when the amplitude is [NaN]. *)
Definition bar (dataArray : list Z) (i : Z) : option Bar :=
  let bufferLength := Z.of_nat (List.length dataArray) in
  let freqIndex := barFreqIndex i bufferLength in
  match amplitudeAt dataArray freqIndex with
  | None => None
  | Some amplitude =>
      let barHeight := 5 + amplitude * 100 in
      let angle := inject_Z i / inject_Z barCount * PI * 2 in
      let innerX := width / 2 + cos angle * radius in
      let innerY := height / 2 + sin angle * radius in
      let outerX := width / 2 + cos angle * (radius + barHeight) in
      let outerY := height / 2 + sin angle * (radius + barHeight) in
      let hue := inject_Z i / inject_Z barCount * 260 + 180 in
      Some (mkBar innerX innerY outerX outerY barHeight hue)
  end.

End Canvas.

(** The values of a [Uint8Array]. *)
Definition bytes (dataArray : list Z) : Prop :=
  Forall (fun b => (0 <= b <= 255)%Z) dataArray.

(** * Properties *)

(** ** The catalog route *)

Lemma substring_whole (s : string) : substring 0 (String.length s) s = s.
Proof.
  induction s as [|c s IH]; simpl; [reflexivity | now rewrite IH].
Qed.

Lemma substring_skip_prefix (p t : string) :
  substring (String.length p) (String.length t) (p ++ t) = t.
Proof.
  induction p as [|c p IH]; simpl.
  - apply substring_whole.
  - exact IH.
Qed.

Lemma substring_split (s : string) :
  forall k m, (k + m = String.length s)%nat -> s = substring 0 k s ++ substring k m s.
Proof.
  induction s as [|c s IH]; intros k m Hlen; simpl in Hlen.
  - assert (k = 0%nat) by lia. assert (m = 0%nat) by lia. subst. reflexivity.
  - destruct k as [|k].
    + simpl in Hlen. subst m. simpl. now rewrite substring_whole.
    + simpl. f_equal. apply IH. simpl in Hlen. lia.
Qed.

Lemma append_length (p t : string) :
  String.length (p ++ t) = (String.length p + String.length t)%nat.
Proof.
  induction p as [|c p IH]; simpl; [reflexivity | now rewrite IH].
Qed.

(** [endsWith] holds exactly of the strings that are some stem followed by
    the search string. *)
Lemma endsWith_spec (s t : string) :
  endsWith s t = true <-> exists stem, s = stem ++ t.
Proof.
  unfold endsWith. split.
  - destruct (Nat.ltb_spec (String.length s) (String.length t)) as [Hlt|Hge];
      [discriminate|].
    intros Heq. apply String.eqb_eq in Heq.
    exists (substring 0 (String.length s - String.length t) s).
    pose proof (substring_split s (String.length s - String.length t) (String.length t)) as Hs.
    rewrite Heq in Hs. apply Hs. lia.
  - intros [stem ->]. rewrite append_length.
    destruct (Nat.ltb_spec (String.length stem + String.length t) (String.length t));
      [lia|].
    replace (String.length stem + String.length t - String.length t)%nat
      with (String.length stem) by lia.
    rewrite substring_skip_prefix. apply String.eqb_refl.
Qed.

Lemma filter_nothing {A : Type} (p : A -> bool) (l : list A) :
  (forall x, In x l -> p x = false) -> filter p l = [].
Proof.
  induction l as [|x l IH]; intros Hp; [reflexivity|]. simpl.
  rewrite (Hp x) by now left. apply IH. intros y Hy. apply Hp. now right.
Qed.

(** C9: [GET] answers 404 when the music directory is absent, 500 with an
    error body when reading it throws, and otherwise 200 with [tracks] being
    the directory's entries that end in ".mp3", in the directory's order; a
    directory without such entries gives 200 and the empty list. *)
Theorem GET_catalog_listing (cwd : string) (fs : FileSystem) :
  (existsSync fs (musicDirOf cwd) = false ->
     status (GET cwd fs) = 404%Z /\ exists m, body (GET cwd fs) = ErrorBody m)
  /\ (existsSync fs (musicDirOf cwd) = true ->
      readdirSync fs (musicDirOf cwd) = Throws ->
      status (GET cwd fs) = 500%Z /\ exists m, body (GET cwd fs) = ErrorBody m)
  /\ (forall files,
        existsSync fs (musicDirOf cwd) = true ->
        readdirSync fs (musicDirOf cwd) = Entries files ->
        status (GET cwd fs) = 200%Z
        /\ body (GET cwd fs) = TracksBody (filter (fun f => endsWith f ".mp3") files)
        /\ (forall f, In f (filter (fun f => endsWith f ".mp3") files) <->
                      In f files /\ exists stem, f = stem ++ ".mp3")
        /\ ((forall f, In f files -> ~ exists stem, f = stem ++ ".mp3") ->
            body (GET cwd fs) = TracksBody [])).
Proof.
  unfold GET. repeat split.
  - now rewrite H.
  - rewrite H. simpl. eauto.
  - now rewrite H, H0.
  - rewrite H, H0. simpl. eauto.
  - now rewrite H, H0.
  - now rewrite H, H0.
  - apply filter_In in H1. tauto.
  - apply filter_In in H1. apply endsWith_spec. tauto.
  - intros [Hin Hstem]. apply filter_In. split; [exact Hin|].
    now apply endsWith_spec.
  - intros Hnone. rewrite H, H0. simpl. f_equal.
    apply filter_nothing. intros f Hf.
    destruct (endsWith f ".mp3") eqn:E; [|reflexivity].
    exfalso. apply (Hnone f Hf). now apply endsWith_spec.
Qed.

(** ** Reasoning about actions *)

Lemma exec_bind {A B : Type} (m : Action A) (f : A -> Action B) (w : World) :
  exec (bind m f) w = exec (f (fst (m w))) (exec m w).
Proof. reflexivity. Qed.

Section Keeps.

Context (R : World -> World -> Prop).
Context (R_refl : forall w, R w w).
Context (R_trans : forall w1 w2 w3, R w1 w2 -> R w2 w3 -> R w1 w3).

Lemma keeps_ret {A : Type} (a : A) : keeps R (ret a).
Proof. intros w. apply R_refl. Qed.

Lemma keeps_get : keeps R get.
Proof. intros w. apply R_refl. Qed.

Lemma keeps_modify (f : World -> World) : (forall w, R w (f w)) -> keeps R (modify f).
Proof. intros H w. apply H. Qed.

Lemma keeps_bind {A B : Type} (m : Action A) (f : A -> Action B) :
  keeps R m -> (forall a, keeps R (f a)) -> keeps R (bind m f).
Proof.
  intros Hm Hf w. unfold bind. simpl.
  eapply R_trans; [apply Hm | apply Hf].
Qed.

Lemma keeps_for_each {A : Type} (f : A -> Action unit) (l : list A) :
  (forall x, keeps R (f x)) -> keeps R (for_each f l).
Proof.
  intros Hf. induction l as [|x l IH]; simpl.
  - apply keeps_ret.
  - apply keeps_bind; [apply Hf | intros _; exact IH].
Qed.

End Keeps.

Lemma same_selection_refl (w : World) : same_selection w w.
Proof. repeat split. Qed.

Lemma same_selection_trans (w1 w2 w3 : World) :
  same_selection w1 w2 -> same_selection w2 w3 -> same_selection w1 w3.
Proof.
  unfold same_selection. intros (H1 & H2 & H3) (H4 & H5 & H6).
  repeat split; congruence.
Qed.

Lemma track_kept_refl (w : World) : track_kept w w.
Proof. intros H. exact H. Qed.

Lemma track_kept_trans (w1 w2 w3 : World) :
  track_kept w1 w2 -> track_kept w2 w3 -> track_kept w1 w3.
Proof. unfold track_kept. auto. Qed.

(** The names of the actions built from [modify]. *)
Ltac unfold_actions :=
  unfold setTracks, setIsPlaying, setError, setMuted, setShowStartOverlay,
    setIsLoading, setCurrentTime, setDuration, setIsDragging, setSeekPosition,
    setTimeout, enqueue, onPlay, onPause, audio_load, audio_set_source,
    audio_set_currentTime, audio_set_muted, audio_set_paused,
    startProgressTracking, stopProgressTracking, removeListeners, skip.

(** One step of a proof that a composite action keeps a relation: [prim]
    proves it of the primitive at hand, [refl] and [trans] are the two lemmas
    of the relation. *)
Ltac keeps_step refl trans prim :=
  first
    [ apply (keeps_ret _ refl)
    | apply (keeps_get _ refl)
    | apply (keeps_bind _ trans); [ | intro ]
    | apply (keeps_for_each _ refl trans); intro
    | prim
    | apply keeps_modify; intros []; cbn; now auto
    | match goal with
      | |- keeps _ (match ?x with _ => _ end) => destruct x
      | |- keeps _ (if ?b then _ else _) => destruct b
      end ].

(** Running an action: the monad is unfolded and the result computed. *)
Ltac run_action :=
  unfold_actions; unfold exec, bind, get, ret, modify; cbn.

Ltac keeps_same :=
  unfold_actions;
  repeat keeps_step same_selection_refl same_selection_trans
    ltac:(apply keeps_modify; intros []; cbn; repeat split; reflexivity).

(** Rendering and the effects never change the selection. *)
Lemma commit_same_selection (prev : Render) : keeps same_selection (commit prev).
Proof.
  unfold commit, progressEffect, trackChangeEffect. keeps_same.
Qed.

Lemma retryCurrentTrack_same_selection (r : Render) :
  keeps same_selection (retryCurrentTrack r).
Proof.
  unfold retryCurrentTrack, retryCurrentTrack_resumed, retryCurrentTrack_catch. keeps_same.
Qed.

(** ** Track selection *)

(** *** Rounding to a double *)

Lemma pow2_pos (e : Z) : 0 < 2 ^ e.
Proof. apply Qpower_0_lt. reflexivity. Qed.

Lemma pow2_succ (e : Z) : 2 ^ (e + 1) == 2 * 2 ^ e.
Proof. rewrite Qpower_plus by discriminate. rewrite Qpower_1_r. ring. Qed.

Lemma pow2_Z (n : Z) : (0 <= n)%Z -> inject_Z (2 ^ n) == 2 ^ n.
Proof. intros H. rewrite (Zpower_Qpower 2 n H). reflexivity. Qed.

Lemma log2_bounds (a : Z) :
  (0 < a)%Z -> 2 ^ Z.log2 a <= inject_Z a /\ inject_Z a < 2 ^ (Z.log2 a + 1).
Proof.
  intros Ha. destruct (Z.log2_spec a Ha) as [H1 H2].
  pose proof (Z.log2_nonneg a) as H0.
  split.
  - rewrite <- pow2_Z by exact H0. rewrite <- Zle_Qle. exact H1.
  - rewrite <- pow2_Z by lia. rewrite <- Zlt_Qlt.
    replace (Z.log2 a + 1)%Z with (Z.succ (Z.log2 a)) by lia. exact H2.
Qed.

(** [ilog2 x] is the exponent of the power of two at or below [x]. *)
Lemma ilog2_spec (x : Q) : 0 < x -> 2 ^ ilog2 x <= x /\ x < 2 ^ (ilog2 x + 1).
Proof.
  intros Hx. unfold ilog2. cbv zeta.
  destruct x as [a b]. cbn [Qnum Qden].
  assert (Ha : (0 < a)%Z).
  { unfold Qlt in Hx. cbn in Hx. lia. }
  destruct (log2_bounds a Ha) as [A1 A2].
  destruct (log2_bounds (Z.pos b) ltac:(lia)) as [B1 B2].
  set (la := Z.log2 a) in *. set (lb := Z.log2 (Z.pos b)) in *.
  assert (Hb : 0 < inject_Z (Z.pos b)) by reflexivity.
  assert (Hx' : a # b == inject_Z a / inject_Z (Z.pos b)) by apply Qmake_Qdiv.
  pose proof (pow2_pos la) as Pa. pose proof (pow2_pos lb) as Pb.
  pose proof (pow2_pos (la - lb)) as Pe.
  assert (E : 2 ^ (la - lb) * 2 ^ lb == 2 ^ la).
  { rewrite <- Qpower_plus by discriminate.
    replace (la - lb + lb)%Z with la by lia. reflexivity. }
  rewrite pow2_succ in A2, B2.
  destruct (Qle_bool (2 ^ (la - lb)) (a # b)) eqn:Ele.
  - apply Qle_bool_iff in Ele. split; [exact Ele|].
    rewrite Hx'. apply Qlt_shift_div_r; [exact Hb|].
    rewrite pow2_succ. nra.
  - assert (Hlt : a # b < 2 ^ (la - lb)).
    { apply Qnot_le_lt. intros H. apply Qle_bool_iff in H. congruence. }
    replace (la - lb - 1 + 1)%Z with (la - lb)%Z by lia.
    split; [|exact Hlt].
    assert (E' : 2 * 2 ^ (la - lb - 1) == 2 ^ (la - lb)).
    { rewrite <- pow2_succ.
      replace (la - lb - 1 + 1)%Z with (la - lb)%Z by lia. reflexivity. }
    rewrite Hx'. apply Qle_shift_div_l; [exact Hb|].
    pose proof (pow2_pos (la - lb - 1)) as Pe'. nra.
Qed.

(** The nearest integer is within one half. *)
Lemma round_half_even_near (x : Q) :
  inject_Z (round_half_even x) <= x + (1 # 2)
  /\ x - (1 # 2) <= inject_Z (round_half_even x)
  /\ (Qfloor x <= round_half_even x)%Z.
Proof.
  unfold round_half_even. cbv zeta.
  pose proof (Qfloor_le x) as Hlo. pose proof (Qlt_floor x) as Hhi.
  rewrite inject_Z_plus in Hhi. change (inject_Z 1) with 1 in Hhi.
  destruct (Qcompare_spec (x - inject_Z (Qfloor x)) (1 # 2)) as [E|E|E].
  - destruct (Z.even (Qfloor x)); rewrite ?inject_Z_plus; change (inject_Z 1) with 1;
      repeat split; try lra; lia.
  - repeat split; try lra; lia.
  - rewrite inject_Z_plus; change (inject_Z 1) with 1. repeat split; try lra; lia.
Qed.


Lemma double_pos_eq (x : Q) :
  0 < x -> double x = inject_Z (round_half_even (x / 2 ^ ulp_exponent x)) * 2 ^ ulp_exponent x.
Proof.
  intros Hx. unfold double.
  destruct (Qeq_bool x 0) eqn:E; [|reflexivity].
  apply Qeq_bool_iff in E. rewrite E in Hx. discriminate.
Qed.

Lemma Qabs_pos_eq (x : Q) : 0 < x -> Qabs x = x.
Proof.
  destruct x as [[|p|p] b]; intros H; try reflexivity; discriminate.
Qed.

(** The nearest double is within half a unit of the last place. *)
Lemma double_near (x : Q) :
  0 < x ->
  double x <= x + 2 ^ ulp_exponent x * (1 # 2)
  /\ x - 2 ^ ulp_exponent x * (1 # 2) <= double x.
Proof.
  intros Hx. rewrite (double_pos_eq x Hx).
  set (q := ulp_exponent x).
  pose proof (pow2_pos q) as Pq.
  destruct (round_half_even_near (x / 2 ^ q)) as (H1 & H2 & _).
  assert (E : x / 2 ^ q * 2 ^ q == x) by (field; lra).
  set (m := x / 2 ^ q) in *. set (r := inject_Z (round_half_even m)) in *.
  split; nra.
Qed.

Lemma double_nonneg (x : Q) : 0 <= x -> 0 <= double x.
Proof.
  intros Hx. unfold double. destruct (Qeq_bool x 0) eqn:E; [discriminate|].
  set (q := ulp_exponent x).
  pose proof (pow2_pos q) as Pq.
  destruct (round_half_even_near (x / 2 ^ q)) as (_ & _ & H3).
  assert (H0 : (0 <= Qfloor (x / 2 ^ q))%Z).
  { change 0%Z with (Qfloor 0). apply Qfloor_resp_le.
    apply Qle_shift_div_l; [exact Pq | lra]. }
  apply Qmult_le_0_compat; [|lra].
  change 0 with (inject_Z 0). rewrite <- Zle_Qle. lia.
Qed.

(** Rounding moves a positive number by at most one part in [2^53], unless
    the number is below the least normal double. *)
Lemma double_relative (x : Q) :
  0 < x -> double x <= x * (1 + 2 ^ (-53)) \/ double x < 1.
Proof.
  intros Hx. destruct (double_near x Hx) as [Hup _].
  destruct (ilog2_spec x Hx) as [E1 E2].
  unfold ulp_exponent in Hup. rewrite (Qabs_pos_eq x Hx) in Hup.
  set (e := ilog2 x) in *.
  destruct (Z.max_spec (e - 52) (-1074)) as [[Hlt Hm] | [Hge Hm]]; rewrite Hm in Hup.
  - right.
    assert (H : 2 ^ (e + 1) <= 2 ^ (-1022))
      by (apply Qpower_le_compat_l; [lia | discriminate]).
    assert (H' : 2 ^ (-1022) + 2 ^ (-1074) * (1 # 2) < 1) by reflexivity.
    lra.
  - left.
    assert (H : 2 ^ (e - 52) == 2 ^ e * 2 ^ (-52)).
    { rewrite <- Qpower_plus by discriminate. reflexivity. }
    rewrite H in Hup.
    assert (H' : 2 ^ (-52) * (1 # 2) == 2 ^ (-53)) by reflexivity.
    pose proof (pow2_pos (-53)) as P. pose proof (pow2_pos e) as Pe.
    nra.
Qed.

Lemma ilog2_nonneg (x : Q) : 1 <= x -> (0 <= ilog2 x)%Z.
Proof.
  intros Hx. destruct (ilog2_spec x ltac:(lra)) as [_ H].
  assert (H' : 2 ^ 0 < 2 ^ (ilog2 x + 1)) by (change (2 ^ 0) with 1; lra).
  apply (Qpower_lt_compat_l_inv 2 0 (ilog2 x + 1)) in H'; [lia | reflexivity].
Qed.

(** Rounding never takes a number below an integer it is not below, as
    long as the integer is a double ([z <= 2^53]). *)
Lemma double_above_integer (x : Q) (z : Z) :
  (0 <= z <= 2 ^ 53)%Z -> inject_Z z <= x -> inject_Z z <= double x.
Proof.
  intros [Hz0 Hz1] Hx.
  destruct (Z.eq_dec z 0) as [->|Hnz].
  { apply double_nonneg. exact Hx. }
  assert (Hz : 1 <= inject_Z z) by (change 1 with (inject_Z 1); rewrite <- Zle_Qle; lia).
  assert (Hx1 : 1 <= x) by lra.
  assert (Hx0 : 0 < x) by lra.
  rewrite (double_pos_eq x Hx0).
  pose proof (ilog2_nonneg x Hx1) as He.
  destruct (ilog2_spec x Hx0) as [E1 E2].
  unfold ulp_exponent. rewrite (Qabs_pos_eq x Hx0).
  set (e := ilog2 x) in *.
  replace (Z.max (e - 52) (-1074)) with (e - 52)%Z by lia.
  set (q := (e - 52)%Z).
  pose proof (pow2_pos q) as Pq.
  destruct (round_half_even_near (x / 2 ^ q)) as (_ & _ & H3).
  set (r := round_half_even (x / 2 ^ q)) in *.
  destruct (Z_le_gt_dec e 52) as [Hle|Hgt].
  - (* the last place is a fraction of one: z is on the grid *)
    assert (Hn : inject_Z (2 ^ (52 - e)) * 2 ^ q == 1).
    { rewrite pow2_Z by lia. rewrite <- Qpower_plus by discriminate.
      unfold q. replace (52 - e + (e - 52))%Z with 0%Z by lia. reflexivity. }
    assert (Hm : inject_Z (z * 2 ^ (52 - e)) <= x / 2 ^ q).
    { apply Qle_shift_div_l; [exact Pq|]. rewrite inject_Z_mult.
      set (N := inject_Z (2 ^ (52 - e))) in *. nra. }
    assert (Hf : (z * 2 ^ (52 - e) <= Qfloor (x / 2 ^ q))%Z).
    { rewrite <- (Qfloor_Z (z * 2 ^ (52 - e))). apply Qfloor_resp_le. exact Hm. }
    assert (Hr : inject_Z (z * 2 ^ (52 - e)) <= inject_Z r) by (rewrite <- Zle_Qle; lia).
    rewrite inject_Z_mult in Hr.
    set (N := inject_Z (2 ^ (52 - e))) in *. nra.
  - (* the number is 2^53 or more *)
    assert (Hm : inject_Z (2 ^ 52) <= x / 2 ^ q).
    { apply Qle_shift_div_l; [exact Pq|]. rewrite pow2_Z by lia.
      rewrite <- Qpower_plus by discriminate. unfold q.
      replace (52 + (e - 52))%Z with e by lia. exact E1. }
    assert (Hf : (2 ^ 52 <= Qfloor (x / 2 ^ q))%Z).
    { rewrite <- (Qfloor_Z (2 ^ 52)). apply Qfloor_resp_le. exact Hm. }
    assert (Hr : inject_Z (2 ^ 52) <= inject_Z r) by (rewrite <- Zle_Qle; lia).
    assert (Hq : 2 <= 2 ^ q).
    { change 2 with (2 ^ 1) at 1. apply Qpower_le_compat_l; [unfold q; lia | discriminate]. }
    assert (Hz' : inject_Z z <= inject_Z (2 ^ 53)) by (rewrite <- Zle_Qle; lia).
    assert (H53 : inject_Z (2 ^ 53) == 2 * inject_Z (2 ^ 52)) by reflexivity.
    set (A := inject_Z (2 ^ 52)) in *. set (B := inject_Z (2 ^ 53)) in *.
    assert (HA : 0 < A) by reflexivity.
    nra.
Qed.

(** A double below 1 is at most [1 - 2^-53]. *)
Lemma double_below_one (x : Q) :
  0 <= x -> x < 1 -> double x == x -> x <= 1 - 2 ^ (-53).
Proof.
  intros H0 H1 Hd.
  destruct (Qlt_le_dec x (1 # 2)) as [Hlt|Hge].
  { assert (H : (1 # 2) <= 1 - 2 ^ (-53)) by discriminate. lra. }
  assert (Hx : 0 < x) by lra.
  destruct (ilog2_spec x Hx) as [E1 E2].
  assert (He : ilog2 x = (-1)%Z).
  { assert (A : 2 ^ ilog2 x < 2 ^ 0) by (change (2 ^ 0) with 1; lra).
    assert (B : 2 ^ (-1) < 2 ^ (ilog2 x + 1)) by (change (2 ^ (-1)) with (1 # 2); lra).
    apply (Qpower_lt_compat_l_inv 2 (ilog2 x) 0) in A; [|reflexivity].
    apply (Qpower_lt_compat_l_inv 2 (-1) (ilog2 x + 1)) in B; [|reflexivity]. lia. }
  rewrite (double_pos_eq x Hx) in Hd.
  unfold ulp_exponent in Hd. rewrite (Qabs_pos_eq x Hx), He in Hd.
  change (Z.max (-1 - 52) (-1074)) with (-53)%Z in Hd.
  set (r := round_half_even (x / 2 ^ (-53))) in *.
  assert (Hr : (r < 2 ^ 53)%Z).
  { rewrite Zlt_Qlt.
    assert (P : inject_Z (2 ^ 53) * 2 ^ (-53) == 1) by reflexivity.
    pose proof (pow2_pos (-53)) as Pq.
    set (u := 2 ^ (-53)) in *. set (N := inject_Z (2 ^ 53)) in *.
    apply Qnot_le_lt. intros Hc. nra. }
  assert (Hr' : inject_Z r <= inject_Z (2 ^ 53 - 1)) by (rewrite <- Zle_Qle; lia).
  assert (P : inject_Z (2 ^ 53 - 1) * 2 ^ (-53) == 1 - 2 ^ (-53)) by reflexivity.
  pose proof (pow2_pos (-53)) as Pq.
  set (u := 2 ^ (-53)) in *. set (N := inject_Z (2 ^ 53 - 1)) in *.
  nra.
Qed.

Lemma double_zero (x : Q) : x == 0 -> double x = 0.
Proof. intros H. unfold double. apply Qeq_bool_iff in H. now rewrite H. Qed.

Lemma double_below (x b : Q) :
  0 <= x -> 1 <= b -> x <= b * (1 - 2 ^ (-53)) -> double x < b.
Proof.
  intros H0 Hb Hx.
  destruct (Qeq_dec x 0) as [E|E].
  { rewrite (double_zero x E). lra. }
  assert (Hpos : 0 < x).
  { apply Qnot_le_lt. intros Hc. apply E. lra. }
  pose proof (pow2_pos (-53)) as Pu.
  assert (Pu1 : 2 ^ (-53) < 1) by reflexivity.
  destruct (double_relative x Hpos) as [H|H]; [|lra].
  set (u := 2 ^ (-53)) in *. nra.
Qed.

Lemma valid_random_spec (rnd : Q) :
  valid_random rnd = true <-> 0 <= rnd /\ rnd < 1 /\ double rnd == rnd.
Proof.
  unfold valid_random.
  rewrite !andb_true_iff, negb_true_iff, Qle_bool_iff, Qeq_bool_iff.
  split.
  - intros [[H1 H2] H3]. split; [exact H1|]. split; [|exact H3].
    apply Qnot_le_lt. intros H. apply Qle_bool_iff in H. congruence.
  - intros (H1 & H2 & H3). split; [split|]; [exact H1 | | exact H3].
    destruct (Qle_bool 1 rnd) eqn:E; [|reflexivity].
    apply Qle_bool_iff in E. exfalso. eapply Qlt_not_le; eassumption.
Qed.

(** [Math.floor(Math.random() * length)] is an index of the array. *)
Lemma randomIndex_range (n : nat) (rnd : Q) :
  (0 < n)%nat -> valid_random rnd = true ->
  (0 <= Qfloor (multiply rnd (inject_Z (Z.of_nat n))) < Z.of_nat n)%Z.
Proof.
  intros Hn Hrnd. apply valid_random_spec in Hrnd. destruct Hrnd as (Hlo & Hhi & Hd).
  pose proof (double_below_one rnd Hlo Hhi Hd) as Hmax.
  assert (Hpos : 1 <= inject_Z (Z.of_nat n)).
  { change 1 with (inject_Z 1). rewrite <- Zle_Qle. lia. }
  unfold multiply. set (N := inject_Z (Z.of_nat n)) in *.
  pose proof (pow2_pos (-53)) as Pu.
  assert (H0 : 0 <= rnd * N) by nra.
  split.
  - rewrite <- (Qfloor_Z 0). apply Qfloor_resp_le. apply double_nonneg. exact H0.
  - rewrite Zlt_Qlt. eapply Qle_lt_trans; [apply Qfloor_le|].
    apply double_below; [exact H0 | exact Hpos |].
    fold N. set (u := 2 ^ (-53)) in *. nra.
Qed.

Lemma Qfloor_interval (x : Q) (z : Z) :
  Qfloor x = z <-> inject_Z z <= x /\ x < inject_Z (z + 1).
Proof.
  split.
  - intros <-. split; [apply Qfloor_le | apply Qlt_floor].
  - intros [Hlo Hhi].
    assert (H1 : (z <= Qfloor x)%Z).
    { rewrite <- (Qfloor_Z z). now apply Qfloor_resp_le. }
    assert (H2 : (Qfloor x < z + 1)%Z).
    { rewrite Zlt_Qlt. eapply Qle_lt_trans; [apply Qfloor_le | exact Hhi]. }
    lia.
Qed.

(** Where the index falls: [i] is chosen when the exact product lies in
    [[i, (i+1) (1 - 2^-53)]], and only when it lies in
    [[i (1 - 2^-53), i+1)]. *)
Lemma randomIndex_interval (n i : Z) (rnd : Q) :
  (0 < n <= 2 ^ 53)%Z -> valid_random rnd = true -> (0 <= i < n)%Z ->
  (inject_Z i <= rnd * inject_Z n ->
   rnd * inject_Z n <= inject_Z (i + 1) * (1 - 2 ^ (-53)) ->
   Qfloor (multiply rnd (inject_Z n)) = i)
  /\ (Qfloor (multiply rnd (inject_Z n)) = i ->
      inject_Z i * (1 - 2 ^ (-53)) <= rnd * inject_Z n
      /\ rnd * inject_Z n < inject_Z (i + 1)).
Proof.
  intros Hn Hrnd Hi. apply valid_random_spec in Hrnd. destruct Hrnd as (Hlo & Hhi & Hd).
  assert (Hpos : 1 <= inject_Z n).
  { change 1 with (inject_Z 1). rewrite <- Zle_Qle. lia. }
  assert (Hi0 : 0 <= inject_Z i) by (change 0 with (inject_Z 0); rewrite <- Zle_Qle; lia).
  assert (Hi1 : 1 <= inject_Z (i + 1)).
  { change 1 with (inject_Z 1). rewrite <- Zle_Qle. lia. }
  unfold multiply. set (x := rnd * inject_Z n) in *.
  assert (H0 : 0 <= x) by (unfold x; nra).
  pose proof (pow2_pos (-53)) as Pu.
  assert (Pu1 : 2 ^ (-53) < 1) by reflexivity.
  split.
  - intros H1 H2. apply Qfloor_interval. split.
    + apply double_above_integer; [lia | exact H1].
    + apply double_below; assumption.
  - intros Hf. apply Qfloor_interval in Hf. destruct Hf as [F1 F2]. split.
    + destruct (Z.eq_dec i 0) as [->|Hnz]; [change (inject_Z 0) with 0; lra|].
      assert (Hi2 : 1 <= inject_Z i).
      { change 1 with (inject_Z 1). rewrite <- Zle_Qle. lia. }
      destruct (Qeq_dec x 0) as [E|E].
      { rewrite (double_zero x E) in F1. lra. }
      assert (Hx : 0 < x) by (apply Qnot_le_lt; intros Hc; apply E; lra).
      destruct (double_relative x Hx) as [H|H]; [|lra].
      set (u := 2 ^ (-53)) in *. set (I := inject_Z i) in *. nra.
    + apply Qnot_le_lt. intros Hc.
      pose proof (double_above_integer x (i + 1) ltac:(lia) Hc) as H. lra.
Qed.

(** A run of the rounding: the double nearest to 0.7 times 10 is the double
    7, though the exact product is below 7. *)
Lemma multiply_rounds :
  Qfloor (multiply (3152519739159347 # 4503599627370496) 10) = 7%Z
  /\ Qfloor ((3152519739159347 # 4503599627370496) * 10) = 6%Z
  /\ valid_random (3152519739159347 # 4503599627370496) = true.
Proof. vm_compute. repeat split. Qed.

Lemma index_in_range {A : Type} (l : list A) (i : Z) :
  (0 <= i < Z.of_nat (List.length l))%Z -> exists x, index l i = Some x /\ In x l.
Proof.
  intros [Hlo Hhi]. unfold index.
  destruct (Z.ltb_spec i 0) as [Hneg|_]; [lia|].
  destruct (nth_error l (Z.to_nat i)) as [x|] eqn:E.
  - exists x. split; [reflexivity | eapply nth_error_In; exact E].
  - apply nth_error_None in E. lia.
Qed.

(** On a nonempty catalog [selectRandomTrack] picks a member, makes it the
    current track and resets [retryCount]. *)
Lemma selectRandomTrack_member (ts : list string) (rnd : Q) (w : World) :
  ts <> [] -> valid_random rnd = true ->
  exists t, fst (selectRandomTrack ts rnd w) = Some t
    /\ In t ts
    /\ currentTrack (st (snd (selectRandomTrack ts rnd w))) = Some t
    /\ retryCount (st (snd (selectRandomTrack ts rnd w))) = 0%Z.
Proof.
  intros Hne Hrnd. unfold selectRandomTrack.
  assert (Hlen : (0 < List.length ts)%nat) by (destruct ts; [congruence | simpl; lia]).
  replace (List.length ts =? 0)%nat with false
    by (symmetry; apply Nat.eqb_neq; lia).
  destruct (index_in_range ts _ (randomIndex_range (List.length ts) rnd Hlen Hrnd))
    as (t & Hidx & Hin).
  exists t. cbv zeta.
  cbn [fst snd bind ret setCurrentTrack setRetryCount modify upd_st st
       with_currentTrack with_retryCount currentTrack retryCount].
  repeat split; assumption.
Qed.

(** C5: on a nonempty catalog [selectRandomTrack] returns a member of the
    catalog, makes it the current track and resets [retryCount] to 0,
    whatever the world is (the current track is not excluded).  The member is
    the one at index [floor(rnd * n)], the product being the double that
    JavaScript computes: for a catalog of at most [2^53] tracks index [i] is
    chosen when the exact product lies in [[i, (i+1) (1 - 2^-53)]] and only
    when it lies in [[i (1 - 2^-53), i+1)], so that the values of [rnd] that
    choose [i] are those of [[i/n, (i+1)/n)] up to one part in [2^53] at the
    two ends.  On the empty catalog it returns [null] and changes nothing. *)
Theorem selectRandomTrack_spec (ts : list string) (rnd : Q) (w : World) :
  let n := Z.of_nat (List.length ts) in
  let result := fst (selectRandomTrack ts rnd w) in
  let w' := snd (selectRandomTrack ts rnd w) in
  (ts = [] -> result = None /\ w' = w)
  /\ (ts <> [] -> valid_random rnd = true ->
      (exists t, result = Some t /\ In t ts /\ currentTrack (st w') = Some t)
      /\ retryCount (st w') = 0%Z
      /\ result = index ts (Qfloor (multiply rnd (inject_Z n)))
      /\ ((n <= 2 ^ 53)%Z -> forall i : Z, (0 <= i < n)%Z ->
          (inject_Z i <= rnd * inject_Z n ->
           rnd * inject_Z n <= inject_Z (i + 1) * (1 - 2 ^ (-53)) ->
           Qfloor (multiply rnd (inject_Z n)) = i)
          /\ (Qfloor (multiply rnd (inject_Z n)) = i ->
              inject_Z i * (1 - 2 ^ (-53)) <= rnd * inject_Z n
              /\ rnd * inject_Z n < inject_Z (i + 1)))).
Proof.
  intros n result w'. subst n result w'. split.
  - intros ->. split; reflexivity.
  - intros Hne Hrnd.
    destruct (selectRandomTrack_member ts rnd w Hne Hrnd) as (t & Hres & Hin & Hcur & Hret).
    split; [exists t; repeat split; assumption|].
    split; [exact Hret|]. split.
    + unfold selectRandomTrack.
      destruct ts; [congruence | reflexivity].
    + intros Hn i Hi. apply randomIndex_interval; [|exact Hrnd | exact Hi].
      destruct ts; [congruence | simpl List.length in *; lia].
Qed.

(** A catalog of ten tracks and [Math.random()] = 0.7, that is, the double
    nearest to 7/10, which is below 7/10: the product is rounded to the
    double 7, and the track at index 7 is chosen. *)
Lemma selectRandomTrack_spec_witness :
  (exists t, fst (selectRandomTrack tenTracks (3152519739159347 # 4503599627370496)
                    playingWorld) = Some t
             /\ In t tenTracks
             /\ currentTrack
                  (st (snd (selectRandomTrack tenTracks (3152519739159347 # 4503599627370496)
                              playingWorld)))
                = Some t)
  /\ fst (selectRandomTrack tenTracks (3152519739159347 # 4503599627370496) playingWorld)
     = Some "7.mp3".
Proof.
  split; [|vm_compute; reflexivity].
  apply (proj2 (selectRandomTrack_spec tenTracks (3152519739159347 # 4503599627370496)
                  playingWorld)).
  - discriminate.
  - vm_compute. reflexivity.
Defined.

(** ** Seeking on the progress bar *)

Lemma clamp_unit (p : Q) : 0 <= Qmax 0 (Qmin 1 p) /\ Qmax 0 (Qmin 1 p) <= 1.
Proof.
  split.
  - apply Q.le_max_l.
  - apply Q.max_lub; [discriminate | apply Q.le_min_l].
Qed.

Lemma exec_skip (w : World) : exec skip w = w.
Proof. reflexivity. Qed.

(** C6: [handleProgressBarInteraction] maps the pointer coordinate [x] to
    [clamp((x - left) / width, 0, 1) * duration], a time in [[0, duration]],
    shows it, and (outside a drag) writes it to the element; when the
    duration is unknown ([NaN]) or not positive it changes nothing.  The bar
    has a width other than 0, so that the quotient is a number. *)
Theorem seek_clamp (r : Render) (e : PointerEvent) (w : World) :
  let w' := exec (handleProgressBarInteraction r e) w in
  ((duration r = None \/ exists d, duration r = Some d /\ d <= 0) -> w' = w)
  /\ (forall rect d x,
        progressBarRef w = Some rect -> ~ rect_width rect == 0 ->
        duration r = Some d -> 0 < d -> clientX_of e = Some x ->
        let time := Qmax 0 (Qmin 1 ((x - rect_left rect) / rect_width rect)) * d in
        currentTime (st w') = time
        /\ 0 <= time /\ time <= d
        /\ (isDragging r = false -> forall a, audioRef w = Some a ->
            exists a', audioRef w' = Some a'
                       /\ a_currentTime a' = time /\ seeks a' = time :: seeks a)).
Proof.
  intros w'. subst w'. unfold handleProgressBarInteraction. split.
  - intros [Hnan | (d & Hd & Hle)].
    + rewrite Hnan. run_action. now destruct (progressBarRef w).
    + rewrite Hd. run_action. destruct (progressBarRef w); [|reflexivity].
      apply Qle_bool_iff in Hle. now rewrite Hle.
  - intros rect d x Hbar _ Hd Hpos Hx.
    set (time := Qmax 0 (Qmin 1 ((x - rect_left rect) / rect_width rect)) * d).
    assert (Hnle : Qle_bool d 0 = false).
    { destruct (Qle_bool d 0) eqn:E; [|reflexivity].
      apply Qle_bool_iff in E. exfalso. eapply Qlt_not_le; eassumption. }
    destruct (clamp_unit ((x - rect_left rect) / rect_width rect)) as [Hc0 Hc1].
    run_action. rewrite Hbar, Hd, Hnle, Hx. cbn. fold time. repeat split.
    + destruct (isDragging r); cbn; [reflexivity|].
      destruct (audioRef w); reflexivity.
    + apply Qmult_le_0_compat; [exact Hc0 | now apply Qlt_le_weak].
    + unfold time. rewrite <- (Qmult_1_l d) at 2.
      apply Qmult_le_compat_r; [exact Hc1 | now apply Qlt_le_weak].
    + intros Hdrag a Ha. rewrite Hdrag, Ha. cbn. rewrite Ha. cbn. eauto.
Qed.

(** The bar spans 0..100, the track lasts 200 s, the pointer is at 50. *)
Lemma seek_clamp_witness :
  currentTime
    (st (exec (handleProgressBarInteraction
                 (with_duration (Some 200) initialRender) (MouseEv 50))
              (initialWorld (mkRect 0 100))))
  = Qmax 0 (Qmin 1 ((50 - 0) / 100)) * 200.
Proof.
  apply (proj2 (seek_clamp (with_duration (Some 200) initialRender) (MouseEv 50)
                  (initialWorld (mkRect 0 100))) (mkRect 0 100) 200 50).
  - reflexivity.
  - discriminate.
  - reflexivity.
  - reflexivity.
  - reflexivity.
Defined.

(** ** A selected track stays selected *)

Lemma selectRandomTrack_track_kept (ts : list string) (rnd : Q) :
  valid_random rnd = true -> keeps track_kept (selectRandomTrack ts rnd).
Proof.
  intros Hrnd w Hw.
  destruct ts as [|t0 ts0]; [exact Hw|].
  destruct (selectRandomTrack_member (t0 :: ts0) rnd w) as (t & _ & _ & Ht & _);
    [discriminate | exact Hrnd |].
  unfold hasTrack. rewrite Ht. discriminate.
Qed.

Ltac unfold_handlers :=
  unfold handle, settle, run, commit, progressEffect, fetchTracks, initializeAudioContext, startPlayback,
    startPlayback_resumed, startPlayback_catch, togglePlayPause, togglePlayPause_pause,
    togglePlayPause_resumed,
    togglePlayPause_catch, handleTrackEnded, skipToNext, handleError, toggleMute,
    retryCurrentTrack, retryCurrentTrack_resumed, retryCurrentTrack_catch,
    resetAudioSystem, resetAudioSystem_closed, resetAudioSystem_catch,
    handleMetadataLoaded, trackChangeEffect, checkActuallyPlaying,
    handleVisibilityChange, handleVisibilityChange_resumed, handleProgressBarDown,
    handleMove, handleUp, handleProgressBarInteraction, updateProgress,
    audio_pause, audio_play, play_fulfilled, resume_fulfilled, close_fulfilled,
    setRetryCount, setRetryCountWith.

Ltac keeps_track rnd_ok :=
  unfold_handlers; unfold_actions;
  repeat keeps_step track_kept_refl track_kept_trans
    ltac:(first
      [ apply selectRandomTrack_track_kept; exact rnd_ok
      | apply keeps_modify; intros []; unfold track_kept, hasTrack; cbn; now auto ]).

Lemma handle_track_kept (e : Event) (r : Render) :
  random_ok e -> keeps track_kept (handle e r).
Proof.
  intros Hrnd. destruct e; simpl in Hrnd; keeps_track Hrnd.
Qed.

Lemma commit_track_kept (prev : Render) : keeps track_kept (commit prev).
Proof.
  intros w Hw. unfold hasTrack in *.
  now rewrite (proj1 (commit_same_selection prev w)).
Qed.

Lemma enabled_random_ok (e : Event) (w : World) : enabled e w = true -> random_ok e.
Proof.
  destruct e; simpl; trivial; intros H; apply andb_true_iff in H; tauto.
Qed.

(** ** One event *)

Lemma step_react (e : Event) (w w' : World) :
  step e w = Some w' -> enabled e w = true /\ w' = exec (react e (st w)) w.
Proof.
  unfold step. destruct (enabled e w); [|discriminate].
  intros [= <-]. split; reflexivity.
Qed.

(** An event other than a fulfilled [play()] is its handler and one
    render. *)
Lemma step_inv (e : Event) (w w' : World) :
  step e w = Some w' -> plain e w = true ->
  enabled e w = true /\ w' = exec (commit (st w)) (exec (handle e (st w)) w).
Proof.
  intros Hstep Hp. apply step_react in Hstep. destruct Hstep as [En ->].
  split; [exact En|].
  destruct e; try reflexivity. destruct ok; [|reflexivity].
  revert Hp. unfold react, plain, exec, bind. cbn [fst snd get].
  destruct (nth_error (pending w) i) as [[d k|k|k|k]|]; intros Hp; try reflexivity.
  discriminate Hp.
Qed.

(** A fulfilled [play()] is the [play] event with its render ([played]), and
    then the continuation with its render. *)
Lemma step_cases (e : Event) (w w' : World) :
  step e w = Some w' ->
  enabled e w = true
  /\ (w' = exec (commit (st w)) (exec (handle e (st w)) w)
      \/ exists i rnd fresh k,
           e = ESettle i true rnd fresh
           /\ nth_error (pending w) i = Some (PlayPromise k)
           /\ w' = exec (commit (st (played i w))) (exec (run k true rnd fresh) (played i w))).
Proof.
  intros Hstep. destruct (plain e w) eqn:Hp.
  - destruct (step_inv e w w' Hstep Hp) as [En ->]. split; [exact En | left; reflexivity].
  - apply step_react in Hstep. destruct Hstep as [En ->]. split; [exact En|]. right.
    destruct e; try discriminate Hp. destruct ok; [|discriminate Hp].
    exists i, rnd, fresh. revert Hp. unfold react, plain, played, exec, bind.
    cbn [fst snd get].
    destruct (nth_error (pending w) i) as [[d k|k|k|k]|]; intros Hp; try discriminate Hp.
    exists k. repeat split.
Qed.

(** What the handlers, the continuations and the renders keep, every event
    keeps. *)
Lemma step_keeps (R : World -> World -> Prop) :
  (forall w, R w w) ->
  (forall w1 w2 w3, R w1 w2 -> R w2 w3 -> R w1 w3) ->
  (forall e r, random_ok e -> keeps R (handle e r)) ->
  (forall prev, keeps R (commit prev)) ->
  (forall k rnd fresh, valid_random rnd = true -> keeps R (run k true rnd fresh)) ->
  (forall i w, R w (with_pending (remove_nth i (pending w)) w)) ->
  forall e w w', step e w = Some w' -> R w w'.
Proof.
  intros Hrefl Htrans Hh Hc Hr Hp e w w' Hstep.
  destruct (step_cases e w w' Hstep) as [En [-> | (i & rnd & fresh & k & -> & Hnth & ->)]].
  - eapply Htrans; [apply (Hh e (st w) (enabled_random_ok e w En)) | apply Hc].
  - pose proof (enabled_random_ok _ _ En) as Hrnd. cbn in Hrnd.
    unfold played. rewrite exec_bind.
    eapply Htrans; [apply Hp|].
    eapply Htrans; [apply (Hh EPlayed (st w) I)|].
    eapply Htrans; [apply Hc|].
    eapply Htrans; [apply (Hr k rnd fresh Hrnd) | apply Hc].
Qed.

Lemma run_track_kept (k : Cont) (ok : bool) (rnd : Q) (fresh : AudioContextState) :
  valid_random rnd = true -> keeps track_kept (run k ok rnd fresh).
Proof.
  intros Hrnd. destruct k; keeps_track Hrnd.
Qed.

Lemma step_track_kept (e : Event) (w w' : World) :
  step e w = Some w' -> track_kept w w'.
Proof.
  apply step_keeps.
  - apply track_kept_refl.
  - apply track_kept_trans.
  - apply handle_track_kept.
  - apply commit_track_kept.
  - intros k rnd fresh. apply run_track_kept.
  - intros i [] H. exact H.
Qed.

(** ** Nothing plays before a track is selected *)

Lemma idle_kept_refl (w : World) : idle_kept w w.
Proof. intros H. exact H. Qed.

Lemma idle_kept_trans (w1 w2 w3 : World) :
  idle_kept w1 w2 -> idle_kept w2 w3 -> idle_kept w1 w3.
Proof. unfold idle_kept. auto. Qed.

Ltac keeps_idle :=
  unfold_handlers; unfold_actions;
  repeat keeps_step idle_kept_refl idle_kept_trans
    ltac:(apply keeps_modify; intros [? [?|] ? ? ? ? ? ? ? ? ?];
          unfold idle_kept, idle, has_source; cbn; now auto).

Lemma handleMove_idle (r : Render) (e : PointerEvent) : keeps idle_kept (handleMove r e).
Proof. keeps_idle. Qed.

Lemma handleUp_idle (id : nat) (r : Render) : keeps idle_kept (handleUp id r).
Proof. keeps_idle. Qed.

Ltac crush :=
  repeat first
    [ progress cbn in *
    | match goal with
      | |- context [if ?b then _ else _] => destruct b eqn:?
      | |- context [match ?x with _ => _ end] => destruct x eqn:?
      end ].

Ltac idle_done :=
  unfold idle, hasTrack, has_source in *; cbn in *;
  first
    [ left; discriminate
    | right; repeat split; auto;
      try (rewrite forallb_app; cbn; rewrite ?andb_true_r; auto) ].

Lemma commit_idle (prev : Render) (w : World) : idle w -> idle (exec (commit prev) w).
Proof.
  destruct w as [s a c pb hi pi ld te pd ls nl].
  destruct s as [tr ct ip er mu so il rc cti du dr sp].
  unfold idle. cbn. intros (-> & -> & Hsrc & Hpd).
  unfold_handlers. run_action. crush; auto.
Qed.

Lemma forallb_remove_nth {A : Type} (p : A -> bool) (l : list A) :
  forall i, forallb p l = true -> forallb p (remove_nth i l) = true.
Proof.
  induction l as [|x l IH]; intros [|i] H; simpl in *; auto.
  - apply andb_true_iff in H. tauto.
  - apply andb_true_iff in H. apply andb_true_iff. split; [tauto|]. apply IH. tauto.
Qed.

Lemma forallb_nth_error {A : Type} (p : A -> bool) (l : list A) (i : nat) (x : A) :
  forallb p l = true -> nth_error l i = Some x -> p x = true.
Proof.
  intros H E. rewrite forallb_forall in H. apply H. eapply nth_error_In. exact E.
Qed.

Lemma selectRandomTrack_hasTrack (ts : list string) (rnd : Q) (w : World) :
  ts <> [] -> valid_random rnd = true -> hasTrack (snd (selectRandomTrack ts rnd w)).
Proof.
  intros Hne Hrnd.
  destruct (selectRandomTrack_member ts rnd w Hne Hrnd) as (t & _ & _ & Ht & _).
  unfold hasTrack. rewrite Ht. discriminate.
Qed.

Lemma handle_idle (e : Event) (w : World) :
  idle w -> enabled e w = true ->
  hasTrack (exec (handle e (st w)) w) \/ idle (exec (handle e (st w)) w).
Proof.
  intros Hidle Hen.
  destruct e.
  all: try solve [
   destruct w as [s [a|] c pb hi pi ld te pd ls nl];
   destruct s as [tr ct ip er mu so il rc cti du dr sp];
   revert Hidle Hen;
   unfold idle, enabled, has_source; cbn; intros (-> & -> & Hsrc & Hpd) Hen;
   try discriminate Hen;
   try (rewrite Hsrc in Hen; discriminate Hen);
   try (destruct il; discriminate Hen);
   unfold_handlers; run_action; crush; idle_done ].
  - (* ESkip *)
    left. cbn in Hen. apply andb_true_iff in Hen. destruct Hen as [Hen Hrnd].
    unfold handle, skipToNext, exec, bind. cbn [fst snd].
    apply selectRandomTrack_hasTrack; [|exact Hrnd].
    destruct (tracks (st w)); [|discriminate].
    rewrite orb_true_r in Hen. discriminate.
  - (* EPointerMove *)
    right. unfold handle. rewrite exec_bind.
    apply (keeps_for_each _ idle_kept_refl idle_kept_trans); [|exact Hidle].
    intros l. apply handleMove_idle.
  - (* EPointerUp *)
    right. unfold handle. rewrite exec_bind.
    apply (keeps_for_each _ idle_kept_refl idle_kept_trans); [|exact Hidle].
    intros l. apply handleUp_idle.
  - (* ESettle *)
    cbn in Hen. apply andb_true_iff in Hen. destruct Hen as [Hen Hrnd].
    destruct (nth_error (pending w) i) as [t|] eqn:Et; [|discriminate].
    assert (Ht : inert t = true).
    { destruct Hidle as (_ & _ & _ & Hpd). eapply forallb_nth_error; eassumption. }
    assert (Hidle' : idle (with_pending (remove_nth i (pending w)) w)).
    { destruct Hidle as (H1 & H2 & H3 & H4). destruct w. cbn in *.
      repeat split; try assumption. now apply forallb_remove_nth. }
    unfold handle, exec, bind. cbn [fst snd get]. rewrite Et. cbn [fst snd modify].
    set (w1 := with_pending (remove_nth i (pending w)) w) in *. clearbody w1.
    clear Et Hidle.
    destruct t as [d k|k|k|k]; destruct k; try discriminate Ht.
    + (* the fetched catalog is shuffled *)
      destruct ts as [|t0 ts0].
      * right. exact Hidle'.
      * left. unfold settle, run, bind. cbn [fst snd].
        apply selectRandomTrack_hasTrack; [discriminate | exact Hrnd].
    + destruct w1 as [s [a|] c pb hi pi ld te pd ls nl];
        destruct s as [tr ct ip er mu so il rc cti du dr sp];
        revert Hidle'; unfold idle, has_source; cbn; intros (-> & -> & Hsrc & Hpd);
        unfold_handlers; run_action; crush; idle_done.
    + destruct w1 as [s [a|] c pb hi pi ld te pd ls nl];
        destruct s as [tr ct ip er mu so il rc cti du dr sp];
        destruct r as [tr' ct' ip' er' mu' so' il' rc' cti' du' dr' sp'];
        cbn in Ht; apply negb_true_iff in Ht; subst;
        revert Hidle'; unfold idle, has_source; cbn; intros (-> & -> & Hsrc & Hpd);
        unfold_handlers; run_action; crush; idle_done.
    + destruct w1 as [s [a|] c pb hi pi ld te pd ls nl];
        destruct s as [tr ct ip er mu so il rc cti du dr sp];
        destruct r as [tr' ct' ip' er' mu' so' il' rc' cti' du' dr' sp'];
        cbn in Ht; destruct ct'; try discriminate Ht;
        revert Hidle'; unfold idle, has_source; cbn; intros (-> & -> & Hsrc & Hpd);
        unfold_handlers; run_action; crush; idle_done.
Qed.

(** C7: in every world the component can reach from its first render, by
    any sequence of events (catalog fetched, user interaction, start, toggle,
    skip, mute, retry, reset, pointer gestures, ended, error, pause, metadata,
    playhead, progress and watchdog ticks, visibility changes, timers and
    promises settling), [isPlaying] implies that [currentTrack] is not
    [null]. *)
Theorem playing_has_track (rect : DOMRect) (w : World) :
  reachable rect w -> Playing w -> hasTrack w.
Proof.
  intros Hreach.
  assert (Hinv : hasTrack w \/ idle w).
  { induction Hreach as [|e w w' Hreach IH Hstep].
    - right. repeat split.
    - destruct IH as [Htrack | Hidle].
      + left. exact (step_track_kept e w w' Hstep Htrack).
      + destruct (step_cases e w w' Hstep)
          as [En [-> | (i & rnd & fresh & k & -> & Hnth & _)]].
        * destruct (handle_idle e w Hidle En) as [Htrack | Hidle'].
          -- left. apply commit_track_kept. exact Htrack.
          -- right. apply commit_idle. exact Hidle'.
        * (* no [play()] is pending before a track is selected *)
          destruct Hidle as (_ & _ & _ & Hpd).
          pose proof (forallb_nth_error inert _ _ _ Hpd Hnth) as Hin.
          discriminate Hin. }
  intros Hplaying. destruct Hinv as [Htrack | (_ & Hidle & _)]; [exact Htrack|].
  unfold Playing in Hplaying. congruence.
Qed.

Lemma steps_reachable (rect : DOMRect) (es : list Event) :
  forall w w', reachable rect w -> steps es w = Some w' -> reachable rect w'.
Proof.
  induction es as [|e es IH]; simpl; intros w w' Hw Hs.
  - injection Hs as <-. exact Hw.
  - destruct (step e w) as [w1|] eqn:E; [|discriminate].
    apply (IH w1 w'); [|exact Hs]. eapply reachable_step; eassumption.
Qed.

(** The session of the examples reaches a world that plays "a.mp3". *)
Lemma playing_has_track_witness :
  reachable demoRect playingWorld /\ Playing playingWorld /\ hasTrack playingWorld.
Proof.
  assert (Hreach : reachable demoRect playingWorld).
  { apply (steps_reachable demoRect demoStartUp (initialWorld demoRect));
      [apply reachable_init | vm_compute; reflexivity]. }
  assert (Hplay : Playing playingWorld) by (vm_compute; reflexivity).
  split; [exact Hreach | split; [exact Hplay|]].
  exact (playing_has_track demoRect playingWorld Hreach Hplay).
Defined.

(** ** Rendering without a changed dependency *)

Lemma same_number_refl (a : option Q) : same_number a a = true.
Proof. destruct a; [apply Qeq_bool_refl | reflexivity]. Qed.

Lemma same_track_refl (a : option string) : same_track a a = true.
Proof. destruct a; [apply String.eqb_refl | reflexivity]. Qed.

(** When the handler left [currentTrack], [isPlaying], [duration] and
    [isDragging] as the render on screen had them, no effect runs. *)
Lemma commit_noop (prev : Render) (w : World) :
  currentTrack (st w) = currentTrack prev ->
  isPlaying (st w) = isPlaying prev ->
  duration (st w) = duration prev ->
  isDragging (st w) = isDragging prev ->
  exec (commit prev) w = w.
Proof.
  intros Ht Hp Hd Hg. unfold commit, progressEffect_due, trackChangeEffect_due, tracking_changed.
  run_action. rewrite Ht, Hp, Hd, Hg.
  rewrite same_number_refl, same_track_refl, !eqb_reflx. reflexivity.
Qed.

Lemma same_track_eq (a b : option string) : same_track a b = true -> a = b.
Proof.
  destruct a, b; simpl; try discriminate; [|reflexivity].
  intros H. apply String.eqb_eq in H. now subst.
Qed.

Lemma same_track_neq (a b : option string) : a <> b -> same_track a b = false.
Proof.
  intros H. destruct (same_track a b) eqn:E; [|reflexivity].
  apply same_track_eq in E. contradiction.
Qed.

Lemma eqb_neq (a b : bool) : a <> b -> Bool.eqb a b = false.
Proof. destruct a, b; simpl; congruence. Qed.

(** A change of any of the four makes the effect due. *)
Lemma dependency_changed (prev cur : Render) (t : string) :
  currentTrack cur = Some t ->
  (currentTrack prev <> Some t
   \/ isPlaying prev <> isPlaying cur
   \/ same_number (duration prev) (duration cur) = false
   \/ isDragging prev <> isDragging cur) ->
  trackChangeEffect_due prev cur = true.
Proof.
  intros Ht Hdep. unfold trackChangeEffect_due, tracking_changed. rewrite Ht.
  destruct Hdep as [H | [H | [H | H]]].
  - now rewrite (same_track_neq _ _ H).
  - rewrite (eqb_neq _ _ H). now destruct (same_track _ _).
  - rewrite H. now destruct (same_track _ _), (Bool.eqb (isPlaying _) _).
  - rewrite (eqb_neq _ _ H).
    now destruct (same_track _ _), (Bool.eqb (isPlaying _) _), (same_number _ _).
Qed.

(** The render when the track effect is due and a track is selected: the
    world after it, in full. *)
Lemma commit_effect (prev : Render) (w : World) (a : Audio) (t : string) :
  audioRef w = Some a -> currentTrack (st w) = Some t ->
  trackChangeEffect_due prev (st w) = true ->
  exec (commit prev) w
  = mkWorld
      (with_isLoading (isPlaying (st w) || trackEndedRef w) (with_currentTime 0 (st w)))
      (Some (mkAudio (Some t) 0 None true (a_muted a) 0 (seeks a) (loads a + 1) (plays a)))
      (audioContextRef w) (progressBarRef w) (hasInitializedRef w) None
      (lastDragPositionRef w) (trackEndedRef w)
      (pending w ++ if isPlaying (st w) || trackEndedRef w
                    then [Timer 500 (KTrackTimer (st w))] else [])
      (listeners w) (nextListener w).
Proof.
  intros Ha Ht Hdue.
  destruct w as [s oa c pb hi pi ld te pd ls nl]. cbn in Ha, Ht, Hdue. subst oa.
  unfold commit, progressEffect, trackChangeEffect. run_action.
  rewrite Hdue, Ht. cbn.
  destruct s as [tr ct ip er mu so il rc cti du dr sp]. cbn in Ht. subst ct.
  destruct (progressEffect_due prev _); cbn;
    destruct ip; cbn; try (destruct te; cbn); rewrite ?app_nil_r; reflexivity.
Qed.

Lemma step_fulfilled_play (w w' : World) (i : nat) (k : Cont) (rnd : Q)
    (fresh : AudioContextState) :
  nth_error (pending w) i = Some (PlayPromise k) ->
  step (ESettle i true rnd fresh) w = Some w' ->
  w' = exec (commit (st (played i w))) (exec (run k true rnd fresh) (played i w)).
Proof.
  intros Hnth Hstep. apply step_react in Hstep. destruct Hstep as [_ ->].
  unfold react, played, exec, bind. cbn [fst snd get]. rewrite Hnth. reflexivity.
Qed.

(** The [play] event of a fulfilled [play()] on a paused element, when
    [isPlaying] was false and a track is selected: the render reloads the
    element and schedules a [play()]. *)
Lemma played_paused (w : World) (i : nat) (a : Audio) (t : string) :
  isPlaying (st w) = false -> audioRef w = Some a -> paused a = true ->
  currentTrack (st w) = Some t ->
  played i w
  = mkWorld
      (with_isLoading true (with_currentTime 0 (with_isPlaying true (st w))))
      (Some (mkAudio (Some t) 0 None true (a_muted a) 0 (seeks a) (loads a + 1) (plays a)))
      (audioContextRef w) (progressBarRef w) (hasInitializedRef w) None
      (lastDragPositionRef w) (trackEndedRef w)
      (remove_nth i (pending w) ++ [Timer 500 (KTrackTimer (with_isPlaying true (st w)))])
      (listeners w) (nextListener w).
Proof.
  intros Hp Ha Hpa Ht. unfold played. rewrite exec_bind.
  assert (Hh : exec play_fulfilled (with_pending (remove_nth i (pending w)) w)
               = mkWorld (with_isPlaying true (st w))
                   (Some (mkAudio (source a) (a_currentTime a) (a_duration a) false (a_muted a)
                            (readyState a) (seeks a) (loads a) (plays a)))
                   (audioContextRef w) (progressBarRef w) (hasInitializedRef w)
                   (progressIntervalRef w) (lastDragPositionRef w) (trackEndedRef w)
                   (remove_nth i (pending w)) (listeners w) (nextListener w)).
  { destruct w as [s oa c pb hi pi ld te pd ls nl]. cbn in Ha. subst oa.
    unfold play_fulfilled. run_action. rewrite Hpa. reflexivity. }
  rewrite Hh. clear Hh.
  assert (Ht' : currentTrack (with_isPlaying true (st w)) = Some t) by exact Ht.
  assert (Hdue : trackChangeEffect_due (st w) (with_isPlaying true (st w)) = true).
  { apply dependency_changed with (t := t); [exact Ht'|].
    right. left. cbn. rewrite Hp. discriminate. }
  match goal with
  | |- exec (commit _) ?W = _ => exact (commit_effect (st w) W _ t eq_refl Ht' Hdue)
  end.
Qed.

Lemma enabled_error_audio (msg : option string) (rnd : Q) (w : World) :
  enabled (EError msg rnd) w = true ->
  valid_random rnd = true /\ exists a, audioRef w = Some a.
Proof.
  cbn. unfold has_source. intros H. apply andb_true_iff in H. destruct H as [H1 H2].
  split; [exact H2|]. destruct (audioRef w) as [a|]; [eauto | discriminate].
Qed.

Lemma error_step_retry (w w' : World) (msg : option string) (rnd : Q) :
  step (EError msg rnd) w = Some w' -> (retryCount (st w) < 3)%Z ->
  retryCount (st w') = (retryCount (st w) + 1)%Z
  /\ currentTrack (st w') = currentTrack (st w)
  /\ tracks (st w') = tracks (st w)
  /\ has_source w' = true
  /\ (exists a a', audioRef w = Some a /\ audioRef w' = Some a'
        /\ source a' = source a /\ loads a' = S (loads a) /\ plays a' = plays a)
  /\ pending w' = (pending w ++ [Timer 1000 (KErrorTimer (st w))])%list.
Proof.
  unfold step. destruct (enabled (EError msg rnd) w) eqn:En; [|discriminate].
  intros [= <-] Hlt.
  pose proof En as En'. cbn in En'. apply andb_true_iff in En'. destruct En' as [Hsrc _].
  destruct (enabled_error_audio msg rnd w En) as (_ & a & Ha).
  apply Z.ltb_lt in Hlt.
  rewrite exec_bind.
  destruct w as [s oa c pb hi pi ld te pd ls nl]. cbn in Ha, Hlt, Hsrc. subst oa.
  unfold has_source in Hsrc. cbn in Hsrc.
  rewrite commit_noop.
  all: unfold handle, handleError; run_action; rewrite Hlt; cbn; try reflexivity.
  repeat split; try assumption.
  exists a. eexists. repeat split. cbn. apply Nat.add_1_r.
Qed.

Lemma error_step_switch (w w' : World) (msg : option string) (rnd : Q) :
  step (EError msg rnd) w = Some w' -> (3 <= retryCount (st w))%Z ->
  tracks (st w) <> [] ->
  retryCount (st w') = 0%Z
  /\ exists t, currentTrack (st w') = Some t /\ In t (tracks (st w)).
Proof.
  unfold step. destruct (enabled (EError msg rnd) w) eqn:En; [|discriminate].
  intros [= <-] Hge Hne.
  destruct (enabled_error_audio msg rnd w En) as (Hrnd & _).
  rewrite exec_bind.
  destruct (commit_same_selection (st w) (exec (handleError (st w) msg rnd) w))
    as (Ht & Hr & _).
  unfold exec in *. cbn [handle]. rewrite Ht, Hr. clear Ht Hr.
  assert (Hlt : (retryCount (st w) <? 3)%Z = false) by (apply Z.ltb_ge; exact Hge).
  unfold handleError, bind. cbn [fst snd]. rewrite Hlt. cbn [fst snd].
  match goal with
  | |- context [selectRandomTrack ?ts ?r ?w0] =>
      destruct (selectRandomTrack_member ts r w0 Hne Hrnd)
        as (t & _ & Hin & Hcur & Hret)
  end.
  split; [exact Hret | exists t; split; [exact Hcur | exact Hin]].
Qed.

(** ** The error policy *)

Lemma error_timer_plays (r : Render) (ok : bool) (rnd : Q) (fresh : AudioContextState)
    (w : World) (a : Audio) :
  audioRef w = Some a ->
  exists a', audioRef (exec (run (KErrorTimer r) ok rnd fresh) w) = Some a'
    /\ plays a' = S (plays a)
    /\ pending (exec (run (KErrorTimer r) ok rnd fresh) w)
       = (pending w ++ [PlayPromise (KErrorPlay r)])%list.
Proof.
  intros Ha. destruct w as [s oa c pb hi pi ld te pd ls nl]. cbn in Ha. subst oa.
  unfold run, audio_play. run_action.
  eexists. repeat split. cbn. apply Nat.add_1_r.
Qed.

(** C1, as the code has it: an [error] event seen with [retryCount < 3]
    adds one to [retryCount], reloads the element with the same source, keeps
    the track and schedules one [play()] 1000 ms later; so three [error]
    events in a row from [retryCount = 0] leave the track as it was with
    [retryCount = 3], and it is the next [error] event, seen with
    [retryCount >= 3], that calls [selectRandomTrack]: the track becomes a
    member of the catalog and [retryCount] is 0 again. *)
Theorem error_retry_policy :
  (forall w w' msg rnd,
      step (EError msg rnd) w = Some w' -> (retryCount (st w) < 3)%Z ->
      retryCount (st w') = (retryCount (st w) + 1)%Z
      /\ currentTrack (st w') = currentTrack (st w)
      /\ (exists a a', audioRef w = Some a /\ audioRef w' = Some a'
            /\ source a' = source a /\ loads a' = S (loads a) /\ plays a' = plays a)
      /\ pending w' = (pending w ++ [Timer 1000 (KErrorTimer (st w))])%list)
  /\ (forall r ok rnd fresh w a,
        audioRef w = Some a ->
        exists a', audioRef (exec (run (KErrorTimer r) ok rnd fresh) w) = Some a'
                   /\ plays a' = S (plays a))
  /\ (forall w w1 w2 w3 m1 m2 m3 r1 r2 r3,
        retryCount (st w) = 0%Z -> tracks (st w) <> [] ->
        step (EError m1 r1) w = Some w1 ->
        step (EError m2 r2) w1 = Some w2 ->
        step (EError m3 r3) w2 = Some w3 ->
        retryCount (st w3) = 3%Z
        /\ currentTrack (st w3) = currentTrack (st w)
        /\ forall m4 r4 w4,
             step (EError m4 r4) w3 = Some w4 ->
             retryCount (st w4) = 0%Z
             /\ exists t, currentTrack (st w4) = Some t /\ In t (tracks (st w))).
Proof.
  split; [|split].
  - intros w w' msg rnd Hstep Hlt.
    destruct (error_step_retry w w' msg rnd Hstep Hlt) as (H1 & H2 & _ & _ & H5 & H6).
    repeat split; assumption.
  - intros r ok rnd fresh w a Ha.
    destruct (error_timer_plays r ok rnd fresh w a Ha) as (a' & H1 & H2 & _).
    eauto.
  - intros w w1 w2 w3 m1 m2 m3 r1 r2 r3 H0 Hne S1 S2 S3.
    destruct (error_step_retry w w1 m1 r1 S1) as (A1 & A2 & A3 & _); [lia|].
    destruct (error_step_retry w1 w2 m2 r2 S2) as (B1 & B2 & B3 & _); [lia|].
    destruct (error_step_retry w2 w3 m3 r3 S3) as (C1 & C2 & C3 & _); [lia|].
    split; [lia | split; [congruence|]].
    intros m4 r4 w4 S4.
    destruct (error_step_switch w3 w4 m4 r4 S4) as (D1 & t & D2 & D3);
      [lia | congruence |].
    split; [exact D1 | exists t; split; [exact D2 | congruence]].
Qed.

(** Against C1 as stated: after three failures in a row on "a.mp3" the
    track is still "a.mp3" and [retryCount] is 3, not 0; the fourth failure
    selects with [Math.random()] = 0, and the catalog member chosen is
    "a.mp3" again. *)
Lemma three_failures_keep_the_track :
  steps threeFailures playingWorld = Some (after threeFailures playingWorld)
  /\ currentTrack (st playingWorld) = Some "a.mp3"
  /\ currentTrack (st (after threeFailures playingWorld)) = Some "a.mp3"
  /\ retryCount (st (after threeFailures playingWorld)) = 3%Z
  /\ exists w4, step (EError None 0) (after threeFailures playingWorld) = Some w4
       /\ retryCount (st w4) = 0%Z /\ currentTrack (st w4) = Some "a.mp3".
Proof.
  repeat (split; [vm_compute; reflexivity|]).
  exists (after (threeFailures ++ [EError None 0]) playingWorld).
  repeat (split; [vm_compute; reflexivity|]). vm_compute. reflexivity.
Qed.

(** ** Manual retry *)

Lemma retry_continuations_same_selection (r : Render) (ok : bool) (rnd : Q)
    (fresh : AudioContextState) :
  keeps same_selection (run (KRetryResume r) ok rnd fresh)
  /\ keeps same_selection (run (KRetryTimer r) ok rnd fresh)
  /\ keeps same_selection (run (KRetryPlay r) ok rnd fresh).
Proof.
  split; [|split];
    unfold run, retryCurrentTrack_resumed, retryCurrentTrack_catch, audio_play;
    keeps_same.
Qed.

Lemma retry_resume_fulfilled (w w' : World) (i : nat) (r : Render) (rnd : Q)
    (fresh : AudioContextState) (a : Audio) (t : string) :
  nth_error (pending w) i = Some (ResumePromise (KRetryResume r)) ->
  step (ESettle i true rnd fresh) w = Some w' ->
  audioRef w = Some a -> currentTrack r = Some t ->
  (exists a', audioRef w' = Some a' /\ source a' = Some t /\ loads a' = S (loads a)
              /\ plays a' = plays a)
  /\ pending w' = (remove_nth i (pending w) ++ [Timer 500 (KRetryTimer r)])%list.
Proof.
  intros Hnth Hstep Ha Ht.
  apply step_inv in Hstep; [|unfold plain; now rewrite Hnth]. destruct Hstep as [_ ->].
  assert (Hh : exec (handle (ESettle i true rnd fresh) (st w)) w
               = exec (settle (ResumePromise (KRetryResume r)) true rnd fresh)
                   (with_pending (remove_nth i (pending w)) w)).
  { unfold handle, exec, bind. cbn [fst snd get]. rewrite Hnth. reflexivity. }
  rewrite Hh. clear Hh Hnth.
  destruct w as [s oa c pb hi pi ld te pd ls nl]. cbn in Ha. subst oa.
  rewrite commit_noop;
    unfold settle, run, resume_fulfilled, retryCurrentTrack_resumed; run_action;
    rewrite ?Ht; destruct c as [[| |]|]; cbn; try reflexivity.
  all: split; [eexists; repeat split; cbn; apply Nat.add_1_r | reflexivity].
Qed.

Lemma retry_resume_rejected (w w' : World) (i : nat) (r : Render) (rnd : Q)
    (fresh : AudioContextState) :
  nth_error (pending w) i = Some (ResumePromise (KRetryResume r)) ->
  step (ESettle i false rnd fresh) w = Some w' ->
  audioRef w' = audioRef w
  /\ pending w' = remove_nth i (pending w)
  /\ isLoading (st w') = false
  /\ error (st w') = Some "Failed to retry playback. Please reload the page.".
Proof.
  intros Hnth Hstep.
  apply step_inv in Hstep; [|reflexivity]. destruct Hstep as [_ ->].
  assert (Hh : exec (handle (ESettle i false rnd fresh) (st w)) w
               = exec (settle (ResumePromise (KRetryResume r)) false rnd fresh)
                   (with_pending (remove_nth i (pending w)) w)).
  { unfold handle, exec, bind. cbn [fst snd get]. rewrite Hnth. reflexivity. }
  rewrite Hh. clear Hh Hnth.
  destruct w as [s oa c pb hi pi ld te pd ls nl].
  rewrite commit_noop; unfold settle, run, retryCurrentTrack_catch; run_action;
    try reflexivity.
  repeat split.
Qed.

Lemma retry_suspended (w w' : World) (a : Audio) (t : string) :
  step ERetry w = Some w' ->
  audioRef w = Some a -> currentTrack (st w) = Some t ->
  is_suspended (audioContextRef w) = true ->
  audioRef w' = Some a
  /\ pending w' = (pending w ++ [ResumePromise (KRetryResume (st w))])%list.
Proof.
  intros Hstep Ha Ht Hctx.
  apply step_inv in Hstep; [|reflexivity]. destruct Hstep as [_ ->].
  destruct w as [s oa c pb hi pi ld te pd ls nl]. cbn in Ha, Ht, Hctx. subst oa.
  rewrite commit_noop; unfold handle, retryCurrentTrack; run_action;
    rewrite ?Ht, ?Hctx; cbn; try reflexivity; try assumption.
  split; reflexivity.
Qed.

Lemma retry_timer_plays (r : Render) (ok : bool) (rnd : Q)
    (fresh : AudioContextState) (w : World) (a : Audio) :
  audioRef w = Some a ->
  exists a', audioRef (exec (run (KRetryTimer r) ok rnd fresh) w) = Some a'
    /\ plays a' = S (plays a) /\ source a' = source a /\ loads a' = loads a
    /\ pending (exec (run (KRetryTimer r) ok rnd fresh) w)
       = (pending w ++ [PlayPromise (KRetryPlay r)])%list.
Proof.
  intros Ha. destruct w as [s oa c pb hi pi ld te pd ls nl]. cbn in Ha. subst oa.
  unfold run, audio_play; run_action.
  eexists; repeat split; cbn; apply Nat.add_1_r.
Qed.

(** C2, as the code has it: [retryCurrentTrack] and the code it schedules
    keep [currentTrack] and leave [retryCount] as it is.  With a track
    selected and the audio context not suspended the element gets that
    track as its source again and is reloaded, and a timer is set for
    500 ms, which calls [play()] on the reloaded element.  With a suspended
    context the function only awaits [resume()] and leaves the element
    alone: once the promise is fulfilled the element gets the track as its
    source, is reloaded and the timer is set; when it is rejected nothing is
    reloaded, [isLoading] is cleared and an error is set. *)
Theorem retry_keeps_selection :
  (forall w w',
      step ERetry w = Some w' ->
      currentTrack (st w') = currentTrack (st w)
      /\ retryCount (st w') = retryCount (st w))
  /\ (forall w w' a t,
        step ERetry w = Some w' ->
        audioRef w = Some a -> currentTrack (st w) = Some t ->
        is_suspended (audioContextRef w) = false ->
        (exists a', audioRef w' = Some a' /\ source a' = Some t /\ loads a' = S (loads a))
        /\ pending w' = (pending w ++ [Timer 500 (KRetryTimer (st w))])%list)
  /\ (forall w w' a t,
        step ERetry w = Some w' ->
        audioRef w = Some a -> currentTrack (st w) = Some t ->
        is_suspended (audioContextRef w) = true ->
        audioRef w' = Some a
        /\ pending w' = (pending w ++ [ResumePromise (KRetryResume (st w))])%list)
  /\ (forall w w' i r rnd fresh a t,
        nth_error (pending w) i = Some (ResumePromise (KRetryResume r)) ->
        step (ESettle i true rnd fresh) w = Some w' ->
        audioRef w = Some a -> currentTrack r = Some t ->
        (exists a', audioRef w' = Some a' /\ source a' = Some t /\ loads a' = S (loads a)
                    /\ plays a' = plays a)
        /\ pending w' = (remove_nth i (pending w) ++ [Timer 500 (KRetryTimer r)])%list)
  /\ (forall w w' i r rnd fresh,
        nth_error (pending w) i = Some (ResumePromise (KRetryResume r)) ->
        step (ESettle i false rnd fresh) w = Some w' ->
        audioRef w' = audioRef w
        /\ pending w' = remove_nth i (pending w)
        /\ isLoading (st w') = false
        /\ error (st w') = Some "Failed to retry playback. Please reload the page.")
  /\ (forall r ok rnd fresh w a,
        audioRef w = Some a ->
        exists a', audioRef (exec (run (KRetryTimer r) ok rnd fresh) w) = Some a'
          /\ plays a' = S (plays a) /\ source a' = source a /\ loads a' = loads a
          /\ pending (exec (run (KRetryTimer r) ok rnd fresh) w)
             = (pending w ++ [PlayPromise (KRetryPlay r)])%list)
  /\ (forall r ok rnd fresh w,
        same_selection w (exec (run (KRetryResume r) ok rnd fresh) w)
        /\ same_selection w (exec (run (KRetryTimer r) ok rnd fresh) w)
        /\ same_selection w (exec (run (KRetryPlay r) ok rnd fresh) w)).
Proof.
  split; [|split; [|split; [|split; [|split; [|split]]]]].
  - intros w w' Hstep. unfold step in Hstep.
    destruct (enabled ERetry w); [|discriminate]. injection Hstep as <-.
    rewrite exec_bind.
    destruct (commit_same_selection (st w) (exec (handle ERetry (st w)) w)) as (A1 & A2 & _).
    destruct (retryCurrentTrack_same_selection (st w) w) as (B1 & B2 & _).
    unfold exec in *. cbn [handle] in *. split; congruence.
  - intros w w' a t Hstep Ha Ht Hctx. unfold step in Hstep.
    destruct (enabled ERetry w); [|discriminate]. injection Hstep as <-.
    rewrite exec_bind.
    destruct w as [s oa c pb hi pi ld te pd ls nl]. cbn in Ha, Ht, Hctx. subst oa.
    rewrite commit_noop.
    all: unfold handle, retryCurrentTrack, retryCurrentTrack_resumed; run_action;
      rewrite ?Ht, ?Hctx; cbn; try reflexivity; try assumption.
    split; [|reflexivity]. eexists. repeat split. cbn. apply Nat.add_1_r.
  - exact retry_suspended.
  - exact retry_resume_fulfilled.
  - exact retry_resume_rejected.
  - exact retry_timer_plays.
  - intros r ok rnd fresh w.
    destruct (retry_continuations_same_selection r ok rnd fresh) as (H1 & H2 & H3).
    repeat split; first [apply H1 | apply H2 | apply H3].
Qed.

(** Against C2 as stated: after two failures [retryCount] is 2; the user
    retries, the reloaded track plays, and [retryCount] is still 2. *)
Lemma manual_retry_keeps_retryCount :
  steps manualRetry playingWorld = Some (after manualRetry playingWorld)
  /\ currentTrack (st (after manualRetry playingWorld)) = Some "a.mp3"
  /\ isPlaying (st (after manualRetry playingWorld)) = true
  /\ retryCount (st (after manualRetry playingWorld)) = 2%Z.
Proof.
  repeat (split; [vm_compute; reflexivity|]). vm_compute. reflexivity.
Qed.

(** ** Auto-start after a track change *)


Lemma trackChangeEffect_spec (r : Render) (w : World) (a : Audio) (t : string) :
  audioRef w = Some a -> currentTrack r = Some t ->
  (exists a', audioRef (exec (trackChangeEffect r) w) = Some a'
      /\ source a' = Some t /\ loads a' = S (loads a)
      /\ plays a' = plays a /\ paused a' = true)
  /\ pending (exec (trackChangeEffect r) w)
     = (pending w ++ if isPlaying r || trackEndedRef w
                     then [Timer 500 (KTrackTimer r)] else [])%list
  /\ trackEndedRef (exec (trackChangeEffect r) w) = trackEndedRef w
  /\ isPlaying (st (exec (trackChangeEffect r) w)) = isPlaying (st w).
Proof.
  intros Ha Ht. destruct w as [s oa c pb hi pi ld te pd ls nl]. cbn in Ha. subst oa.
  unfold trackChangeEffect. run_action. rewrite Ht. cbn.
  destruct (isPlaying r || te); cbn.
  - split; [eexists; repeat split; cbn; apply Nat.add_1_r|]. repeat split.
  - split; [eexists; repeat split; cbn; apply Nat.add_1_r|].
    rewrite app_nil_r. repeat split.
Qed.

Lemma track_timer_plays (r : Render) (ok : bool) (rnd : Q)
    (fresh : AudioContextState) (w : World) (a : Audio) :
  audioRef w = Some a ->
  exists a', audioRef (exec (run (KTrackTimer r) ok rnd fresh) w) = Some a'
    /\ plays a' = S (plays a) /\ source a' = source a
    /\ pending (exec (run (KTrackTimer r) ok rnd fresh) w)
       = (pending w ++ [PlayPromise (KTrackPlay r)])%list.
Proof.
  intros Ha. destruct w as [s oa c pb hi pi ld te pd ls nl]. cbn in Ha. subst oa.
  unfold run, audio_play; run_action.
  eexists; repeat split; cbn; apply Nat.add_1_r.
Qed.

Lemma start_timer_plays (r : Render) (ok : bool) (rnd : Q)
    (fresh : AudioContextState) (w : World) (a : Audio) :
  audioRef w = Some a ->
  exists a', audioRef (exec (run (KStartTimer r) ok rnd fresh) w) = Some a'
    /\ plays a' = S (plays a) /\ source a' = source a
    /\ pending (exec (run (KStartTimer r) ok rnd fresh) w)
       = (pending w ++ [PlayPromise (KStartPlay r)])%list.
Proof.
  intros Ha. destruct w as [s oa c pb hi pi ld te pd ls nl]. cbn in Ha. subst oa.
  unfold run, audio_play; run_action.
  eexists; repeat split; cbn; apply Nat.add_1_r.
Qed.

(** [handleTrackEnded]'s timer calls [startPlayback], which schedules the
    [play()] unless it has to await the audio context first. *)
Lemma ended_timer_starts (r : Render) (ok : bool) (rnd : Q)
    (fresh : AudioContextState) (w : World) (a : Audio) (t : string) :
  audioRef w = Some a -> currentTrack r = Some t ->
  is_suspended (audioContextRef w) = false ->
  pending (exec (run (KEndedTimer r) ok rnd fresh) w)
  = (pending w ++ [Timer 500 (KStartTimer r)])%list.
Proof.
  intros Ha Ht Hctx. destruct w as [s oa c pb hi pi ld te pd ls nl].
  cbn in Ha, Hctx. subst oa.
  unfold run, startPlayback, startPlayback_resumed. run_action. rewrite Ht, Hctx. cbn.
  destruct (readyState a =? 0)%Z; reflexivity.
Qed.

Lemma start_play_fulfilled (r : Render) (rnd : Q) (fresh : AudioContextState) (w : World) :
  isPlaying (st (exec (settle (PlayPromise (KStartPlay r)) true rnd fresh) w)) = true.
Proof.
  destruct w as [s [a|] c pb hi pi ld te pd ls nl];
    unfold settle, run, play_fulfilled; run_action; [destruct (paused a)|]; reflexivity.
Qed.

Lemma grows_refl (w : World) : grows w w.
Proof. split; [reflexivity | exists []; now rewrite app_nil_r]. Qed.

Lemma grows_trans (w1 w2 w3 : World) : grows w1 w2 -> grows w2 w3 -> grows w1 w3.
Proof.
  intros (H1 & l1 & E1) (H2 & l2 & E2). split; [congruence|].
  exists (l1 ++ l2)%list. now rewrite E2, E1, app_assoc.
Qed.

Lemma commit_grows (prev : Render) : keeps grows (commit prev).
Proof.
  unfold commit, progressEffect, trackChangeEffect. unfold_actions.
  repeat keeps_step grows_refl grows_trans
    ltac:(apply keeps_modify; intros [];
          first [ apply grows_refl
                | split; [reflexivity | cbn; eexists; reflexivity] ]).
Qed.

Lemma enabled_ended_audio (rnd : Q) (w : World) :
  enabled (EEnded rnd) w = true ->
  valid_random rnd = true /\ exists a, audioRef w = Some a.
Proof.
  cbn. unfold has_source. intros H. apply andb_true_iff in H. destruct H as [H1 H2].
  split; [exact H2|]. destruct (audioRef w) as [a|]; [eauto | discriminate].
Qed.

(** [selectRandomTrack] writes React state only. *)
Lemma selectRandomTrack_refs (ts : list string) (rnd : Q) (w : World) :
  trackEndedRef (snd (selectRandomTrack ts rnd w)) = trackEndedRef w
  /\ pending (snd (selectRandomTrack ts rnd w)) = pending w
  /\ audioRef (snd (selectRandomTrack ts rnd w)) = audioRef w
  /\ isPlaying (st (snd (selectRandomTrack ts rnd w))) = isPlaying (st w)
  /\ duration (st (snd (selectRandomTrack ts rnd w))) = duration (st w)
  /\ isDragging (st (snd (selectRandomTrack ts rnd w))) = isDragging (st w).
Proof.
  destruct w. unfold selectRandomTrack.
  destruct (List.length ts =? 0)%nat; repeat split.
Qed.

Lemma ended_step (w w' : World) (rnd : Q) :
  step (EEnded rnd) w = Some w' ->
  trackEndedRef w' = true
  /\ In (Timer 500 (KEndedTimer (st w))) (pending w').
Proof.
  unfold step. destruct (enabled (EEnded rnd) w) eqn:En; [|discriminate].
  intros [= <-]. rewrite exec_bind.
  destruct (commit_grows (st w) (exec (handle (EEnded rnd) (st w)) w)) as (Hflag & l & Hl).
  unfold exec in *. cbn [handle] in *. rewrite Hflag, Hl. clear Hflag Hl.
  unfold handleTrackEnded, bind. cbn [fst snd].
  match goal with
  | |- context [selectRandomTrack ?ts ?r ?w0] =>
      destruct (selectRandomTrack_refs ts r w0) as (Hf & _);
      destruct (snd (selectRandomTrack ts r w0)) eqn:Esel
  end.
  cbn in Hf. split.
  - cbn. rewrite Hf. now destruct (snd (audio_pause w)).
  - apply in_or_app. left. cbn. apply in_or_app. right. now left.
Qed.

Lemma skip_paused_step (w w' : World) (rnd : Q) :
  step (ESkip rnd) w = Some w' ->
  isPlaying (st w) = false -> trackEndedRef w = false ->
  pending w' = pending w
  /\ isPlaying (st w') = false
  /\ (exists t, currentTrack (st w') = Some t /\ In t (tracks (st w)))
  /\ forall a, audioRef w = Some a ->
       exists a', audioRef w' = Some a' /\ plays a' = plays a
                  /\ (source a = currentTrack (st w) -> source a' = currentTrack (st w')).
Proof.
  unfold step. destruct (enabled (ESkip rnd) w) eqn:En; [|discriminate].
  intros [= <-] Hpaused Hflag.
  cbn in En. apply andb_true_iff in En. destruct En as [En Hrnd].
  assert (Hne : tracks (st w) <> []).
  { destruct (tracks (st w)); [|discriminate]. rewrite orb_true_r in En. discriminate. }
  destruct w as [s oa c pb hi pi ld te pd ls nl].
  destruct s as [tr ct ip er mu so il rc cti du dr sp].
  cbn in Hpaused, Hflag, Hne. subst ip te.
  destruct (index_in_range tr _ (randomIndex_range (List.length tr) rnd
              ltac:(destruct tr; [congruence | simpl; lia]) Hrnd)) as (t & Hidx & Hin).
  unfold handle, skipToNext, selectRandomTrack. cbv zeta. cbn [st tracks].
  replace (List.length tr =? 0)%nat with false
    by (symmetry; apply Nat.eqb_neq; destruct tr; [congruence | simpl; lia]).
  rewrite Hidx.
  unfold commit, progressEffect_due, trackChangeEffect_due, tracking_changed,
    trackChangeEffect, setRetryCount, setCurrentTrack. run_action.
  rewrite same_number_refl, !eqb_reflx. cbn.
  destruct (same_track ct (Some t)) eqn:Esame; cbn.
  - apply same_track_eq in Esame. subst ct.
    repeat split; eauto.
  - destruct oa as [a|]; cbn.
    + repeat split; eauto.
      intros a0 [= <-]. eexists. repeat split.
    + repeat split; eauto. intros a0 [=].
Qed.

(** The render after a change of track: the effect loads the new track, and
    schedules its [play()] exactly when [isPlaying] holds or the flag
    [trackEndedRef] is set. *)
Lemma commit_track_changed (prev : Render) (w : World) (a : Audio) (t : string) :
  audioRef w = Some a -> currentTrack (st w) = Some t ->
  same_track (currentTrack prev) (Some t) = false ->
  (exists a', audioRef (exec (commit prev) w) = Some a'
      /\ source a' = Some t /\ loads a' = S (loads a)
      /\ plays a' = plays a /\ paused a' = true)
  /\ pending (exec (commit prev) w)
     = (pending w ++ if isPlaying (st w) || trackEndedRef w
                     then [Timer 500 (KTrackTimer (st w))] else [])%list
  /\ trackEndedRef (exec (commit prev) w) = trackEndedRef w.
Proof.
  intros Ha Ht Hdiff. destruct w as [s oa c pb hi pi ld te pd ls nl].
  cbn in Ha, Ht. subst oa.
  unfold commit, trackChangeEffect_due, progressEffect, trackChangeEffect. run_action.
  rewrite Ht, Hdiff. cbn.
  destruct (progressEffect_due prev s); cbn; rewrite ?Ht; cbn;
    destruct (isPlaying s) eqn:Ep; cbn; rewrite ?Ep; cbn;
    try (destruct te; cbn);
    rewrite ?app_nil_r;
    (split; [eexists; repeat split; cbn; apply Nat.add_1_r | split; reflexivity]).
Qed.

(** What the [ended] event does before the render: the element is paused
    (the [pause] event precedes [ended]), the flag is set, a track is
    selected and [startPlayback] is scheduled. *)
Lemma ended_handler (r : Render) (rnd : Q) (w : World) (a : Audio) :
  audioRef w = Some a -> valid_random rnd = true ->
  trackEndedRef (exec (handle (EEnded rnd) r) w) = true
  /\ (exists a1, audioRef (exec (handle (EEnded rnd) r) w) = Some a1
                 /\ plays a1 = plays a /\ loads a1 = loads a)
  /\ pending (exec (handle (EEnded rnd) r) w)
     = (pending w ++ [Timer 500 (KEndedTimer r)])%list
  /\ (currentTrack (st (exec (handle (EEnded rnd) r) w)) = currentTrack (st w)
      \/ exists t, currentTrack (st (exec (handle (EEnded rnd) r) w)) = Some t
                   /\ In t (tracks r)).
Proof.
  intros Ha Hrnd.
  destruct w as [s oa c pb hi pi ld te pd ls nl].
  destruct s as [tr ct ip er mu so il rc cti du dr sp]. cbn in Ha. subst oa.
  unfold handle, handleTrackEnded, exec, bind. cbn [fst snd].
  destruct (tracks r) as [|t0 ts0] eqn:Etr.
  { unfold audio_pause. run_action.
    destruct (paused a); cbn; repeat split; eauto. }
  match goal with
  | |- context [selectRandomTrack ?ts ?x ?w0] =>
      destruct (selectRandomTrack_member ts x w0 ltac:(discriminate) Hrnd)
        as (t & _ & Hin & Hcur & _);
      destruct (selectRandomTrack_refs ts x w0) as (Hf & Hp & Hau & _);
      destruct (snd (selectRandomTrack ts x w0)) as [s1 oa1 c1 pb1 hi1 pi1 ld1 te1 pd1 ls1 nl1]
        eqn:Esel
  end.
  cbn in Hf, Hp, Hau, Hcur. subst te1 pd1 oa1. cbn.
  unfold audio_pause. run_action.
  split; [now destruct (paused a) | split; [|split]].
  - destruct (paused a); cbn; eauto.
  - now destruct (paused a).
  - right. eauto.
Qed.

Lemma ended_step_autostart (w w' : World) (rnd : Q) :
  step (EEnded rnd) w = Some w' ->
  same_track (currentTrack (st w)) (currentTrack (st w')) = false ->
  exists r', In (Timer 500 (KTrackTimer r')) (pending w')
             /\ currentTrack r' = currentTrack (st w').
Proof.
  intros Hstep. apply step_inv in Hstep; [|reflexivity]. destruct Hstep as [En ->].
  destruct (enabled_ended_audio rnd w En) as (Hrnd & a & Ha).
  destruct (ended_handler (st w) rnd w a Ha Hrnd) as (Hflag & (a1 & Ha1 & _) & _ & Hsel).
  remember (exec (handle (EEnded rnd) (st w)) w) as w1 eqn:Ew1. clear Ew1.
  destruct (commit_same_selection (st w) w1) as (Hct & _).
  change (snd (commit (st w) w1)) with (exec (commit (st w)) w1) in Hct.
  rewrite Hct. intros Hdiff.
  destruct Hsel as [Hsame | (t & Ht & _)].
  { rewrite Hsame, same_track_refl in Hdiff. discriminate. }
  rewrite Ht in Hdiff.
  destruct (commit_track_changed (st w) w1 a1 t Ha1 Ht Hdiff) as (_ & Hpend & _).
  rewrite Hflag, orb_true_r in Hpend.
  exists (st w1). split; [|reflexivity].
  rewrite Hpend. apply in_or_app. right. now left.
Qed.

Lemma skipn_appended {A : Type} (l l' : list A) : skipn (List.length l) (l ++ l') = l'.
Proof. induction l as [|x l IH]; simpl; [reflexivity | exact IH]. Qed.

(** X1, the rule of auto-start behind C4 as far as the code keeps it: after a
    change of track the effect loads the new track and schedules its
    [play()] if and only if [isPlaying] holds or the flag [trackEndedRef] is
    up, and the timer it schedules calls [play()].  A skip while not playing
    and with the flag down selects a track, schedules nothing and calls no
    [play()].  The [ended] event, whatever [isPlaying] is, raises the flag and
    schedules [startPlayback]; when the track changed the effect schedules a
    [play()] as well; [startPlayback] leads to a [play()] whose fulfilment
    sets [isPlaying]. *)
Theorem track_change_autostart :
  (forall prev w a t,
      audioRef w = Some a -> currentTrack (st w) = Some t ->
      same_track (currentTrack prev) (Some t) = false ->
      (exists a', audioRef (exec (commit prev) w) = Some a'
          /\ source a' = Some t /\ loads a' = S (loads a) /\ plays a' = plays a)
      /\ (In (Timer 500 (KTrackTimer (st w)))
             (skipn (List.length (pending w)) (pending (exec (commit prev) w)))
          <-> isPlaying (st w) = true \/ trackEndedRef w = true)
      /\ (isPlaying (st w) = false -> trackEndedRef w = false ->
          pending (exec (commit prev) w) = pending w))
  /\ (forall r ok rnd fresh w a,
        audioRef w = Some a ->
        exists a', audioRef (exec (run (KTrackTimer r) ok rnd fresh) w) = Some a'
                   /\ plays a' = S (plays a) /\ source a' = source a)
  /\ (forall w w' rnd,
        step (ESkip rnd) w = Some w' ->
        isPlaying (st w) = false -> trackEndedRef w = false ->
        pending w' = pending w
        /\ isPlaying (st w') = false
        /\ (exists t, currentTrack (st w') = Some t /\ In t (tracks (st w)))
        /\ forall a, audioRef w = Some a ->
             exists a', audioRef w' = Some a' /\ plays a' = plays a
                        /\ (source a = currentTrack (st w) ->
                            source a' = currentTrack (st w')))
  /\ (forall w w' rnd,
        step (EEnded rnd) w = Some w' ->
        trackEndedRef w' = true
        /\ In (Timer 500 (KEndedTimer (st w))) (pending w')
        /\ (same_track (currentTrack (st w)) (currentTrack (st w')) = false ->
            exists r', In (Timer 500 (KTrackTimer r')) (pending w')
                       /\ currentTrack r' = currentTrack (st w')))
  /\ (forall r ok rnd fresh w a t,
        audioRef w = Some a -> currentTrack r = Some t ->
        is_suspended (audioContextRef w) = false ->
        pending (exec (run (KEndedTimer r) ok rnd fresh) w)
        = (pending w ++ [Timer 500 (KStartTimer r)])%list)
  /\ (forall r ok rnd fresh w a,
        audioRef w = Some a ->
        exists a', audioRef (exec (run (KStartTimer r) ok rnd fresh) w) = Some a'
                   /\ plays a' = S (plays a) /\ source a' = source a)
  /\ (forall r rnd fresh w,
        isPlaying (st (exec (settle (PlayPromise (KStartPlay r)) true rnd fresh) w)) = true).
Proof.
  split; [|split; [|split; [|split; [|split; [|split]]]]].
  - intros prev w a t Ha Ht Hdiff.
    destruct (commit_track_changed prev w a t Ha Ht Hdiff)
      as ((a' & H1 & H2 & H3 & H4 & _) & Hpend & _).
    split; [exists a'; repeat split; assumption|]. rewrite Hpend. split.
    + rewrite skipn_appended.
      destruct (isPlaying (st w)), (trackEndedRef w); cbn; intuition congruence.
    + intros -> ->. cbn. apply app_nil_r.
  - intros r ok rnd fresh w a Ha.
    destruct (track_timer_plays r ok rnd fresh w a Ha) as (a' & H1 & H2 & H3 & _).
    eauto.
  - exact skip_paused_step.
  - intros w w' rnd Hstep. destruct (ended_step w w' rnd Hstep) as [H1 H2].
    repeat split; [exact H1 | exact H2 | exact (ended_step_autostart w w' rnd Hstep)].
  - intros r ok rnd fresh w a t. apply ended_timer_starts.
  - intros r ok rnd fresh w a Ha.
    destruct (start_timer_plays r ok rnd fresh w a Ha) as (a' & H1 & H2 & H3 & _).
    eauto.
  - exact start_play_fulfilled.
Qed.

(** ** Visibility changes *)

Lemma step_hidden (w w' : World) :
  step (EVisibility false) w = Some w' -> isPlaying (st w) = true ->
  progressIntervalRef w' = None /\ audioRef w' = audioRef w
  /\ st w' = st w /\ pending w' = pending w.
Proof.
  intros Hstep Hp. apply step_inv in Hstep; [|reflexivity]. destruct Hstep as [_ ->].
  destruct w as [s oa c pb hi pi ld te pd ls nl]. cbn in Hp.
  rewrite commit_noop; unfold handle, handleVisibilityChange; run_action; rewrite ?Hp;
    cbn; repeat split; try assumption.
Qed.

(** The [play()] of [handleVisibilityChange] is rejected: [isPlaying]
    becomes false, and the render that follows runs the track effect. *)
Lemma failed_resume_step (w w' : World) (i : nat) (r : Render) (rnd : Q)
    (fresh : AudioContextState) (a : Audio) (t : string) :
  nth_error (pending w) i = Some (PlayPromise (KVisPlay r)) ->
  step (ESettle i false rnd fresh) w = Some w' ->
  isPlaying (st w) = true -> audioRef w = Some a -> currentTrack (st w) = Some t ->
  isPlaying (st w') = false /\ error (st w') = error (st w)
  /\ progressIntervalRef w' = None
  /\ isLoading (st w') = trackEndedRef w
  /\ pending w'
     = (remove_nth i (pending w)
        ++ if trackEndedRef w
           then [Timer 500 (KTrackTimer (with_isPlaying false (st w)))] else [])%list
  /\ exists a', audioRef w' = Some a' /\ plays a' = plays a /\ loads a' = S (loads a)
       /\ paused a' = true /\ a_currentTime a' = 0.
Proof.
  intros Hnth Hstep Hp Ha Ht.
  apply step_inv in Hstep; [|reflexivity]. destruct Hstep as [_ ->].
  assert (Hh : exec (handle (ESettle i false rnd fresh) (st w)) w
               = mkWorld (with_isPlaying false (st w)) (Some a)
                   (audioContextRef w) (progressBarRef w) (hasInitializedRef w) None
                   (lastDragPositionRef w) (trackEndedRef w)
                   (remove_nth i (pending w)) (listeners w) (nextListener w)).
  { unfold handle, exec, bind. cbn [fst snd get]. rewrite Hnth.
    destruct w as [s oa c pb hi pi ld te pd ls nl]. cbn in Ha. subst oa.
    unfold settle, run. run_action. reflexivity. }
  rewrite Hh. clear Hh.
  assert (Ht' : currentTrack (with_isPlaying false (st w)) = Some t) by exact Ht.
  assert (Hdue : trackChangeEffect_due (st w) (with_isPlaying false (st w)) = true).
  { apply dependency_changed with (t := t); [exact Ht'|].
    right. left. cbn. rewrite Hp. discriminate. }
  match goal with
  | |- context [exec (commit _) ?W] =>
      rewrite (commit_effect (st w) W a t eq_refl Ht' Hdue)
  end.
  cbn. repeat split. eexists. repeat split. cbn. apply Nat.add_1_r.
Qed.

(** X25, the part of C8 the code keeps: when the page is hidden while
    [isPlaying] holds, the progress interval is cleared and neither the
    element nor the state nor the pending work changes.  When the page
    becomes visible a suspended audio context is resumed first, and however
    that settles the handler goes on; then, if [isPlaying] holds and the
    element is paused, [play()] is called exactly once and nothing else
    changes, and otherwise nothing happens.  When that [play()] is rejected
    the handler sets [isPlaying] to false, stops polling, leaves [error] as it
    was and schedules nothing; but [isPlaying] changed, so the render that
    follows runs the track effect: the element is reloaded, paused at
    position 0, and with the flag [trackEndedRef] down nothing is scheduled,
    while with the flag up [isLoading] stays set and a further [play()] is
    scheduled 500 ms later. *)
Theorem visibility_round_trip :
  (forall w w',
      step (EVisibility false) w = Some w' -> isPlaying (st w) = true ->
      progressIntervalRef w' = None /\ audioRef w' = audioRef w
      /\ st w' = st w /\ pending w' = pending w)
  /\ (forall r w,
        is_suspended (audioContextRef w) = true ->
        exec (handleVisibilityChange r true) w
        = with_pending (pending w ++ [ResumePromise (KVisResume r)]) w)
  /\ (forall r ok rnd fresh w,
        exec (settle (ResumePromise (KVisResume r)) ok rnd fresh) w
        = exec (handleVisibilityChange_resumed r)
            (if ok then exec resume_fulfilled w else w))
  /\ (forall w,
        is_suspended (audioContextRef w) = true ->
        audioContextRef (exec resume_fulfilled w) = Some running)
  /\ (forall r w,
        is_suspended (audioContextRef w) = false ->
        exec (handleVisibilityChange r true) w = exec (handleVisibilityChange_resumed r) w)
  /\ (forall r w a,
        audioRef w = Some a -> isPlaying r = true -> paused a = true ->
        (exists a', audioRef (exec (handleVisibilityChange_resumed r) w) = Some a'
            /\ plays a' = S (plays a) /\ paused a' = true)
        /\ pending (exec (handleVisibilityChange_resumed r) w)
           = (pending w ++ [PlayPromise (KVisPlay r)])%list
        /\ st (exec (handleVisibilityChange_resumed r) w) = st w)
  /\ (forall r w a,
        audioRef w = Some a -> isPlaying r = false \/ paused a = false ->
        exec (handleVisibilityChange_resumed r) w = w)
  /\ (forall r rnd fresh w,
        isPlaying (st (exec (run (KVisPlay r) false rnd fresh) w)) = false
        /\ error (st (exec (run (KVisPlay r) false rnd fresh) w)) = error (st w)
        /\ audioRef (exec (run (KVisPlay r) false rnd fresh) w) = audioRef w
        /\ pending (exec (run (KVisPlay r) false rnd fresh) w) = pending w
        /\ progressIntervalRef (exec (run (KVisPlay r) false rnd fresh) w) = None)
  /\ (forall w w' i r rnd fresh a t,
        nth_error (pending w) i = Some (PlayPromise (KVisPlay r)) ->
        step (ESettle i false rnd fresh) w = Some w' ->
        isPlaying (st w) = true -> audioRef w = Some a -> currentTrack (st w) = Some t ->
        isPlaying (st w') = false /\ error (st w') = error (st w)
        /\ progressIntervalRef w' = None
        /\ isLoading (st w') = trackEndedRef w
        /\ pending w'
           = (remove_nth i (pending w)
              ++ if trackEndedRef w
                 then [Timer 500 (KTrackTimer (with_isPlaying false (st w)))] else [])%list
        /\ exists a', audioRef w' = Some a' /\ plays a' = plays a /\ loads a' = S (loads a)
             /\ paused a' = true /\ a_currentTime a' = 0).
Proof.
  split; [exact step_hidden|].
  split; [|split; [|split; [|split; [|split; [|split; [|split]]]]]].
  - intros r w Hs. destruct w as [s oa c pb hi pi ld te pd ls nl]. cbn in Hs.
    unfold handleVisibilityChange. run_action. now rewrite Hs.
  - intros r [|] rnd fresh w; reflexivity.
  - intros w Hs. destruct w as [s oa c pb hi pi ld te pd ls nl]. cbn in Hs.
    unfold resume_fulfilled. run_action.
    destruct c as [[| |]|]; try discriminate. reflexivity.
  - intros r w Hs. destruct w as [s oa c pb hi pi ld te pd ls nl]. cbn in Hs.
    unfold handleVisibilityChange. run_action. now rewrite Hs.
  - intros r w a Ha Hp Hpaused. destruct w as [s oa c pb hi pi ld te pd ls nl].
    cbn in Ha. subst oa.
    unfold handleVisibilityChange_resumed, audio_play. run_action.
    rewrite Hp, Hpaused. cbn.
    split; [eexists; repeat split; cbn; [apply Nat.add_1_r | exact Hpaused]|].
    split; reflexivity.
  - intros r w a Ha Hor. destruct w as [s oa c pb hi pi ld te pd ls nl].
    cbn in Ha. subst oa.
    unfold handleVisibilityChange_resumed. run_action.
    destruct Hor as [-> | ->]; [reflexivity | now rewrite andb_false_r].
  - intros r rnd fresh w. destruct w as [s oa c pb hi pi ld te pd ls nl].
    unfold run. run_action. repeat split.
  - intros w w' i r rnd fresh a t. apply failed_resume_step.
Qed.

(** C8, where the code departs from it: the render that follows a failed
    resume runs the track effect, and the flag [trackEndedRef], cleared only
    when the [play()] of the effect is fulfilled, makes it schedule a further
    [play()].  After the failed auto-play of "b.mp3" the flag is up; the user
    resumes with the play button, and the page is hidden and shown while
    the element is paused: [isPlaying] holds, so [handleVisibilityChange]
    calls [play()].  That [play()] is rejected: [isPlaying] becomes false and
    [error] stays [null], but [isLoading] is set and a second timer is
    pending, scheduled by the render.  When it fires [play()] is called once
    more, and when that is rejected too the session shows an error. *)
Lemma failed_resume_on_show_is_retried :
  steps resumeThenShow playingWorld = Some (after resumeThenShow playingWorld)
  /\ isPlaying (st (after resumeThenShow playingWorld)) = true
  /\ trackEndedRef (after resumeThenShow playingWorld) = true
  /\ error (st (after resumeThenShow playingWorld)) = None
  /\ pending (after resumeThenShow playingWorld)
     = [ Timer 500
           (KTrackTimer
              (with_isPlaying true
                 (with_isLoading true (st (after failedAutoplay playingWorld)))));
         PlayPromise (KVisPlay (st (after resumeThenShow playingWorld))) ]
  /\ steps failedResumeOnShow playingWorld = Some (after failedResumeOnShow playingWorld)
  /\ isPlaying (st (after failedResumeOnShow playingWorld)) = false
  /\ isLoading (st (after failedResumeOnShow playingWorld)) = true
  /\ error (st (after failedResumeOnShow playingWorld)) = None
  /\ pending (after failedResumeOnShow playingWorld)
     = [ Timer 500
           (KTrackTimer
              (with_isPlaying true
                 (with_isLoading true (st (after failedAutoplay playingWorld)))));
         Timer 500
           (KTrackTimer (with_isPlaying false (st (after resumeThenShow playingWorld)))) ]
  /\ steps failedResumeRetried playingWorld = Some (after failedResumeRetried playingWorld)
  /\ option_map plays (audioRef (after failedResumeRetried playingWorld))
     = option_map (fun a => S (plays a)) (audioRef (after failedResumeOnShow playingWorld))
  /\ isPlaying (st (after failedResumeRetried playingWorld)) = false
  /\ error (st (after failedResumeRetried playingWorld))
     = Some "Failed to play the new track. Please try again.".
Proof.
  repeat (split; [vm_compute; reflexivity|]). vm_compute. reflexivity.
Qed.

(** ** Pausing *)

(** C10: the pausing branch of [togglePlayPause] run twice gives the world
    it gives when run once; it leaves [isPlaying] false and never touches
    the track, the shown or the element's position, or [error].  When
    [isPlaying] is already false it changes no React state at all, and the
    render that follows runs no effect.  It is what [togglePlayPause] does
    when its render has [isPlaying]. *)
Theorem pause_idempotent (w : World) :
  exec togglePlayPause_pause (exec togglePlayPause_pause w) = exec togglePlayPause_pause w
  /\ isPlaying (st (exec togglePlayPause_pause w)) = false
  /\ currentTrack (st (exec togglePlayPause_pause w)) = currentTrack (st w)
  /\ currentTime (st (exec togglePlayPause_pause w)) = currentTime (st w)
  /\ error (st (exec togglePlayPause_pause w)) = error (st w)
  /\ (forall a, audioRef w = Some a ->
        exists a', audioRef (exec togglePlayPause_pause w) = Some a'
                   /\ a_currentTime a' = a_currentTime a
                   /\ paused a' = true /\ plays a' = plays a /\ loads a' = loads a)
  /\ (isPlaying (st w) = false ->
        st (exec togglePlayPause_pause w) = st w
        /\ exec (commit (st w)) (exec togglePlayPause_pause w) = exec togglePlayPause_pause w)
  /\ (forall r, isPlaying r = true -> audioRef w <> None ->
        exec (togglePlayPause r) w = exec togglePlayPause_pause w).
Proof.
  destruct w as [s oa c pb hi pi ld te pd ls nl].
  destruct s as [tr ct ip er mu so il rc cti du dr sp].
  split; [|split; [|split; [|split; [|split; [|split; [|split]]]]]].
  - unfold togglePlayPause_pause, audio_pause. run_action.
    destruct oa as [a|]; cbn; [destruct (paused a) eqn:E; cbn; rewrite ?E|]; reflexivity.
  - unfold togglePlayPause_pause, audio_pause. run_action.
    destruct oa as [a|]; cbn; [destruct (paused a)|]; reflexivity.
  - unfold togglePlayPause_pause, audio_pause. run_action.
    destruct oa as [a|]; cbn; [destruct (paused a)|]; reflexivity.
  - unfold togglePlayPause_pause, audio_pause. run_action.
    destruct oa as [a|]; cbn; [destruct (paused a)|]; reflexivity.
  - unfold togglePlayPause_pause, audio_pause. run_action.
    destruct oa as [a|]; cbn; [destruct (paused a)|]; reflexivity.
  - intros a Ha. cbn in Ha. subst oa.
    unfold togglePlayPause_pause, audio_pause. run_action.
    destruct (paused a) eqn:E; cbn; eexists; repeat split; cbn; assumption.
  - intros Hp. cbn in Hp. subst ip.
    assert (Hst : st (exec togglePlayPause_pause
                        (mkWorld (mkRender tr ct false er mu so il rc cti du dr sp)
                           oa c pb hi pi ld te pd ls nl))
                  = mkRender tr ct false er mu so il rc cti du dr sp).
    { unfold togglePlayPause_pause, audio_pause. run_action.
      destruct oa as [a|]; cbn; [destruct (paused a)|]; reflexivity. }
    split; [exact Hst|].
    apply commit_noop; rewrite Hst; reflexivity.
  - intros r Hr Hau. cbn in Hau. unfold togglePlayPause.
    unfold exec at 1. unfold bind at 1. cbn [fst snd get audioRef].
    destruct oa as [a|]; [|congruence]. rewrite Hr. reflexivity.
Qed.

(** ** Dragging on the progress bar *)

(** The listeners of a gesture close over the render of the pointer-down. *)
Lemma handleProgressBarDown_listens (r : Render) (e : PointerEvent) (w : World) :
  listeners (exec (handleProgressBarDown r e) w) = (listeners w ++ [(nextListener w, r)])%list
  /\ isDragging (st (exec (handleProgressBarDown r e) w)) = true.
Proof.
  destruct w as [s oa c pb hi pi ld te pd ls nl].
  unfold handleProgressBarDown, handleProgressBarInteraction. run_action.
  destruct pb as [rect|], (duration r) as [d|]; cbn; try (split; reflexivity).
  destruct (Qle_bool d 0); cbn; [split; reflexivity|].
  destruct (clientX_of e); cbn; [|split; reflexivity].
  destruct (isDragging r); cbn; [split; reflexivity|].
  destruct oa; split; reflexivity.
Qed.

(** A move handled by a listener whose render has [isDragging = false]
    writes [audio.currentTime]. *)
Lemma handleMove_writes_the_element (r : Render) (x : Q) (w : World)
    (rect : DOMRect) (d : Q) (a : Audio) :
  isDragging r = false -> progressBarRef w = Some rect -> duration r = Some d ->
  0 < d -> audioRef w = Some a ->
  exists a', audioRef (exec (handleMove r (MouseEv x)) w) = Some a'
    /\ seeks a' = Qmax 0 (Qmin 1 ((x - rect_left rect) / rect_width rect)) * d :: seeks a.
Proof.
  intros Hdrag Hbar Hd Hpos Ha.
  assert (Hnle : Qle_bool d 0 = false).
  { destruct (Qle_bool d 0) eqn:E; [|reflexivity].
    apply Qle_bool_iff in E. exfalso. eapply Qlt_not_le; eassumption. }
  destruct w as [s oa c pb hi pi ld te pd ls nl]. cbn in Hbar, Ha. subst oa pb.
  unfold handleMove, handleProgressBarInteraction. run_action.
  rewrite Hd, Hnle, Hdrag. cbn. eauto.
Qed.

(** X2, the part of C3 the code keeps: the release writes the last dragged
    position to the element once, shows it and ends the drag. *)
Lemma handleUp_commits_last_position (id : nat) (r : Render) (w : World)
    (a : Audio) (p d : Q) :
  audioRef w = Some a -> lastDragPositionRef w = Some p -> duration r = Some d ->
  (exists a', audioRef (exec (handleUp id r) w) = Some a'
      /\ seeks a' = p * d :: seeks a /\ a_currentTime a' = p * d)
  /\ currentTime (st (exec (handleUp id r) w)) = p * d
  /\ isDragging (st (exec (handleUp id r) w)) = false.
Proof.
  intros Ha Hp Hd. destruct w as [s oa c pb hi pi ld te pd ls nl]. cbn in Ha, Hp.
  subst oa ld. unfold handleUp. run_action. rewrite Hd. cbn.
  split; [eexists; repeat split | split; reflexivity].
Qed.

(** C3, where the code departs from it: "a.mp3" plays and nothing was ever
    written to [audio.currentTime]; the pointer goes down at 50 and moves to
    80 on the bar 0..100.  The drag is still on, and the element's
    [currentTime] has been written twice, with 100 and then 160 (latest
    first). *)
Lemma drag_writes_the_element_before_release :
  option_map seeks (audioRef playingWorld) = Some []
  /\ isDragging (st playingWorld) = false
  /\ steps dragStart playingWorld = Some (after dragStart playingWorld)
  /\ isDragging (st (after dragStart playingWorld)) = true
  /\ List.length (listeners (after dragStart playingWorld)) = 1%nat
  /\ option_map (fun a => map Qred (seeks a)) (audioRef (after dragStart playingWorld))
     = Some [160; 100].
Proof.
  repeat (split; [vm_compute; reflexivity|]). vm_compute. reflexivity.
Qed.

(** C4, where the code departs from it: the flag [trackEndedRef] is
    cleared only when the [play()] of the effect is fulfilled.  "a.mp3" ends,
    "b.mp3" is selected and its [play()] calls are rejected: nothing is
    pending, [isPlaying] is false and the flag is still up.  The user skips
    to "a.mp3": the effect schedules a [play()] although nothing was playing,
    and once that is fulfilled "a.mp3" plays. *)
Lemma skip_after_failed_autoplay_autostarts :
  steps failedAutoplay playingWorld = Some (after failedAutoplay playingWorld)
  /\ currentTrack (st (after failedAutoplay playingWorld)) = Some "b.mp3"
  /\ isPlaying (st (after failedAutoplay playingWorld)) = false
  /\ pending (after failedAutoplay playingWorld) = []
  /\ trackEndedRef (after failedAutoplay playingWorld) = true
  /\ steps skipAfterFailure playingWorld = Some (after skipAfterFailure playingWorld)
  /\ currentTrack (st (after skipAfterFailure playingWorld)) = Some "a.mp3"
  /\ isPlaying (st (after skipAfterFailure playingWorld)) = false
  /\ pending (after skipAfterFailure playingWorld)
     = [Timer 500 (KTrackTimer
                     (with_retryCount 0
                        (with_currentTrack (Some "a.mp3")
                           (with_currentTime 0 (st (after failedAutoplay playingWorld))))))]
  /\ steps skipAfterFailurePlays playingWorld
     = Some (after skipAfterFailurePlays playingWorld)
  /\ isPlaying (st (after skipAfterFailurePlays playingWorld)) = true.
Proof.
  repeat (split; [vm_compute; reflexivity|]). vm_compute. reflexivity.
Qed.

(** The drag of the examples is released: the listener of the gesture
    (number 0, made in the render of [playingWorld]) writes the position. *)
Lemma handleUp_commits_last_position_witness :
  isDragging (st (exec (handleUp 0 (st playingWorld)) (after dragStart playingWorld)))
  = false.
Proof.
  destruct (audioRef (after dragStart playingWorld)) as [a|] eqn:Ea;
    [|vm_compute in Ea; discriminate Ea].
  destruct (lastDragPositionRef (after dragStart playingWorld)) as [p|] eqn:Ep;
    [|vm_compute in Ep; discriminate Ep].
  apply (handleUp_commits_last_position 0 (st playingWorld)
           (after dragStart playingWorld) a p 200 Ea Ep).
  vm_compute. reflexivity.
Defined.

(** * Further properties of the code *)

(** ** The element stays mounted *)

Lemma audio_kept_refl (w : World) : audio_kept w w.
Proof. intros H. exact H. Qed.

Lemma audio_kept_trans (w1 w2 w3 : World) :
  audio_kept w1 w2 -> audio_kept w2 w3 -> audio_kept w1 w3.
Proof. unfold audio_kept. auto. Qed.

Ltac keeps_audio :=
  unfold_handlers; unfold selectRandomTrack, setCurrentTrack; unfold_actions;
  repeat keeps_step audio_kept_refl audio_kept_trans
    ltac:(apply keeps_modify; intros [? [?|] ? ? ? ? ? ? ? ? ?];
          unfold audio_kept; cbn; now auto).

Lemma handle_audio_kept (e : Event) (r : Render) : keeps audio_kept (handle e r).
Proof. destruct e; keeps_audio. Qed.

Lemma commit_audio_kept (prev : Render) : keeps audio_kept (commit prev).
Proof. keeps_audio. Qed.

Lemma reachable_audio (rect : DOMRect) (w : World) :
  reachable rect w -> exists a, audioRef w = Some a.
Proof.
  intros Hreach.
  assert (H : audioRef w <> None).
  { induction Hreach as [|e w w' _ IH Hstep]; [discriminate|].
    revert IH. apply (step_keeps audio_kept) with (e := e); try exact Hstep.
    - apply audio_kept_refl.
    - apply audio_kept_trans.
    - intros e0 r _. apply handle_audio_kept.
    - apply commit_audio_kept.
    - intros k rnd fresh _. destruct k; keeps_audio.
    - intros i [] H. exact H. }
  destruct (audioRef w) as [a|]; [eauto | congruence].
Qed.

(** ** Muting *)

Lemma muted_kept_refl (w : World) : muted_kept w w.
Proof. intros H. exact H. Qed.

Lemma muted_kept_trans (w1 w2 w3 : World) :
  muted_kept w1 w2 -> muted_kept w2 w3 -> muted_kept w1 w3.
Proof. unfold muted_kept. auto. Qed.

Ltac keeps_muted :=
  unfold_handlers; unfold selectRandomTrack, setCurrentTrack; unfold_actions;
  repeat keeps_step muted_kept_refl muted_kept_trans
    ltac:(apply keeps_modify; intros [? [?|] ? ? ? ? ? ? ? ? ?];
          unfold muted_kept, muted_agrees; cbn;
          first [ now auto | intros H ? [= <-]; cbn; apply H; reflexivity ]).

Lemma toggleMute_agrees (r : Render) : keeps muted_kept (toggleMute r).
Proof.
  intros [s [a|] c pb hi pi ld te pd ls nl]; unfold toggleMute; run_action.
  - intros _ a' [= <-]. reflexivity.
  - intros H. exact H.
Qed.

Lemma handle_muted_kept (e : Event) (r : Render) : keeps muted_kept (handle e r).
Proof.
  destruct e; try (unfold handle; apply toggleMute_agrees); keeps_muted.
Qed.

Lemma commit_muted_kept (prev : Render) : keeps muted_kept (commit prev).
Proof. keeps_muted. Qed.

(** X3: in every world the component can reach, the [muted] property of the
    element equals the [muted] state: only [toggleMute] writes either, and it
    writes both.  A click on the mute button flips the state. *)
Theorem mute_in_sync (rect : DOMRect) (w : World) :
  reachable rect w ->
  (forall a, audioRef w = Some a -> a_muted a = muted (st w))
  /\ (forall w', step EMute w = Some w' -> muted (st w') = negb (muted (st w))).
Proof.
  intros Hreach. split.
  - induction Hreach as [|e w w' _ IH Hstep].
    + intros a [= <-]. reflexivity.
    + revert IH. apply (step_keeps muted_kept) with (e := e); try exact Hstep.
      * apply muted_kept_refl.
      * apply muted_kept_trans.
      * intros e0 r _. apply handle_muted_kept.
      * apply commit_muted_kept.
      * intros k rnd fresh _. destruct k; keeps_muted.
      * intros i [] H. exact H.
  - intros w' Hstep. destruct (reachable_audio rect w Hreach) as [a Ha].
    apply step_inv in Hstep; [|reflexivity]. destruct Hstep as [_ ->].
    destruct w as [s oa c pb hi pi ld te pd ls nl]. cbn in Ha. subst oa.
    rewrite commit_noop; unfold handle, toggleMute; run_action; reflexivity.
Qed.

Lemma mute_in_sync_witness :
  muted (st (after [EMute] playingWorld)) = negb (muted (st playingWorld)).
Proof.
  apply (proj2 (mute_in_sync demoRect playingWorld
                  (steps_reachable demoRect demoStartUp (initialWorld demoRect) playingWorld
                     (reachable_init demoRect) ltac:(vm_compute; reflexivity)))).
  vm_compute. reflexivity.
Defined.

(** ** The retry counter *)

Lemma retryCount_kept_refl (w : World) : retryCount_kept w w.
Proof. intros H. exact H. Qed.

Lemma retryCount_kept_trans (w1 w2 w3 : World) :
  retryCount_kept w1 w2 -> retryCount_kept w2 w3 -> retryCount_kept w1 w3.
Proof. unfold retryCount_kept. auto. Qed.

Ltac keeps_retryCount :=
  unfold_handlers; unfold selectRandomTrack, setCurrentTrack; unfold_actions;
  repeat keeps_step retryCount_kept_refl retryCount_kept_trans
    ltac:(apply keeps_modify; intros [[] ? ? ? ? ? ? ? ? ? ?];
          unfold retryCount_kept, retryCount_ok; cbn; intros; lia).

Lemma selectRandomTrack_retryCount (ts : list string) (rnd : Q) :
  keeps retryCount_kept (selectRandomTrack ts rnd).
Proof. keeps_retryCount. Qed.

Lemma handleError_retryCount (w : World) (msg : option string) (rnd : Q) :
  retryCount_ok w -> retryCount_ok (exec (handleError (st w) msg rnd) w).
Proof.
  destruct w as [[tr ct ip er mu so il rc cti du dr sp] oa c pb hi pi ld te pd ls nl].
  unfold handleError, retryCount_ok. run_action.
  destruct (Z.ltb_spec rc 3) as [Hlt|Hge]; cbn; intros Hok.
  - destruct oa; cbn; lia.
  - apply selectRandomTrack_retryCount. exact Hok.
Qed.

Lemma handle_retryCount_kept (e : Event) (r : Render) :
  match e with EError _ _ => True | _ => keeps retryCount_kept (handle e r) end.
Proof. destruct e; try exact I; keeps_retryCount. Qed.

Lemma commit_retryCount_kept (prev : Render) : keeps retryCount_kept (commit prev).
Proof. keeps_retryCount. Qed.

Lemma run_retryCount_kept (k : Cont) (ok : bool) (rnd : Q) (fresh : AudioContextState) :
  keeps retryCount_kept (run k ok rnd fresh).
Proof. destruct k; keeps_retryCount. Qed.

(** X4: in every world the component can reach, [retryCount] lies between
    0 and 3: [handleError] adds one only when the render on screen has
    [retryCount < 3], and [selectRandomTrack] resets it to 0. *)
Theorem retryCount_bounded (rect : DOMRect) (w : World) :
  reachable rect w -> (0 <= retryCount (st w) <= 3)%Z.
Proof.
  induction 1 as [|e w w' _ IH Hstep]; [cbn; lia|].
  destruct (step_cases e w w' Hstep) as [_ [-> | (i & rnd & fresh & k & -> & _ & ->)]].
  - apply commit_retryCount_kept.
    pose proof (handle_retryCount_kept e (st w)) as Hk.
    destruct e; try (apply Hk; exact IH).
    apply handleError_retryCount. exact IH.
  - apply commit_retryCount_kept. apply run_retryCount_kept.
    unfold played. rewrite exec_bind.
    apply commit_retryCount_kept.
    apply (handle_retryCount_kept EPlayed (st w)).
    destruct w. exact IH.
Qed.

Lemma retryCount_bounded_witness : (0 <= retryCount (st (after threeFailures playingWorld)) <= 3)%Z.
Proof.
  apply (retryCount_bounded demoRect).
  apply (steps_reachable demoRect (demoStartUp ++ threeFailures) (initialWorld demoRect));
    [apply reachable_init | vm_compute; reflexivity].
Defined.

(** ** Where the track changes *)

Lemma same_track_and_count_refl (w : World) : same_track_and_count w w.
Proof. split; reflexivity. Qed.

Lemma same_track_and_count_trans (w1 w2 w3 : World) :
  same_track_and_count w1 w2 -> same_track_and_count w2 w3 -> same_track_and_count w1 w3.
Proof. intros [H1 H2] [H3 H4]. split; congruence. Qed.

Ltac keeps_track_and_count :=
  unfold_handlers; unfold_actions;
  repeat keeps_step same_track_and_count_refl same_track_and_count_trans
    ltac:(apply keeps_modify; intros []; split; reflexivity).

Lemma commit_same_track_and_count (prev : Render) : keeps same_track_and_count (commit prev).
Proof. keeps_track_and_count. Qed.

Lemma handle_same_track_and_count (e : Event) (r : Render) :
  match e with
  | ESkip _ | EEnded _ | EError _ _ | ESettle _ _ _ _ => True
  | _ => keeps same_track_and_count (handle e r)
  end.
Proof. destruct e; try exact I; keeps_track_and_count. Qed.

Lemma settle_same_track_and_count (t : Task) (ok : bool) (rnd : Q) (fresh : AudioContextState) :
  task_selects t ok = false -> keeps same_track_and_count (settle t ok rnd fresh).
Proof.
  destruct t as [d k|k|k|k]; destruct k; cbn; intros H; try discriminate H;
    try (apply negb_false_iff in H; subst ok);
    keeps_track_and_count.
Qed.

(** X5: [currentTrack] changes only where [selectRandomTrack] is called.  An
    event that is neither a skip nor [ended], nor an [error] handled with
    [retryCount >= 3], nor the settling of the first-load timer or of a
    rejected retry [play()], leaves [currentTrack] as it was; it leaves
    [retryCount] as it was too, except that an [error] event adds one. *)
Theorem track_changes_only_by_selection (e : Event) (w w' : World) :
  step e w = Some w' -> selects e w = false ->
  currentTrack (st w') = currentTrack (st w)
  /\ retryCount (st w')
     = match e with
       | EError _ _ => (retryCount (st w) + 1)%Z
       | _ => retryCount (st w)
       end.
Proof.
  intros Hstep Hsel.
  destruct (step_cases e w w' Hstep) as [_ [-> | (i & rnd & fresh & k & -> & Hnth & ->)]].
  - destruct (commit_same_track_and_count (st w) (exec (handle e (st w)) w)) as [Hc Hr].
    unfold exec in *. rewrite Hc, Hr. clear Hc Hr.
    pose proof (handle_same_track_and_count e (st w)) as Hk.
    destruct e; try discriminate Hsel; try exact (Hk w).
    + (* EError *)
      cbn in Hsel. apply negb_false_iff in Hsel.
      destruct w as [[tr ct ip er mu so il rc cti du dr sp] oa c pb hi pi ld te pd ls nl].
      cbn in Hsel. unfold handle, handleError. run_action. rewrite Hsel. cbn.
      destruct oa; split; reflexivity.
    + (* ESettle *)
      cbn in Hsel. unfold handle, bind. cbn [fst snd get].
      destruct (nth_error (pending w) i) as [t|]; [|split; reflexivity].
      cbn [fst snd modify].
      destruct (settle_same_track_and_count t ok rnd fresh Hsel
                  (with_pending (remove_nth i (pending w)) w)) as [H1 H2].
      rewrite H1, H2. destruct w. split; reflexivity.
  - (* a fulfilled play(): the play event, a render, the continuation, a render *)
    cbn [selects] in Hsel. rewrite Hnth in Hsel.
    assert (Hk : task_selects (Timer 0 k) true = false)
      by (destruct k; solve [reflexivity | discriminate Hsel]).
    change (same_track_and_count w
              (exec (commit (st (played i w))) (exec (run k true rnd fresh) (played i w)))).
    eapply same_track_and_count_trans; [|apply commit_same_track_and_count].
    eapply same_track_and_count_trans;
      [|exact (settle_same_track_and_count (Timer 0 k) true rnd fresh Hk _)].
    unfold played. rewrite exec_bind.
    eapply same_track_and_count_trans; [|apply commit_same_track_and_count].
    eapply same_track_and_count_trans;
      [|exact (handle_same_track_and_count EPlayed (st w) _)].
    destruct w; split; reflexivity.
Qed.

Lemma track_changes_only_by_selection_witness :
  currentTrack (st (after [EError None 0] playingWorld)) = currentTrack (st playingWorld)
  /\ retryCount (st (after [EError None 0] playingWorld))
     = (retryCount (st playingWorld) + 1)%Z.
Proof.
  apply (track_changes_only_by_selection (EError None 0) playingWorld
           (after [EError None 0] playingWorld)); vm_compute; reflexivity.
Defined.

(** ** The listeners of a drag *)

Lemma handleUp_listeners (id : nat) (r : Render) (w : World) :
  listeners (exec (handleUp id r) w)
  = filter (fun l => negb (fst l =? id)%nat) (listeners w)
  /\ isDragging (st (exec (handleUp id r) w)) = false.
Proof.
  destruct w as [s [a|] c pb hi pi [p|] te pd ls nl]; unfold handleUp; run_action;
    try destruct (duration r); split; reflexivity.
Qed.

Lemma for_each_handleUp_listeners (l : list (nat * Render)) :
  forall w,
    (forall x, In x (listeners w) -> In (fst x) (map fst l)) ->
    listeners (exec (for_each (fun l => handleUp (fst l) (snd l)) l) w) = [].
Proof.
  induction l as [|[id r] l IH]; intros w Hsub.
  - cbn. destruct (listeners w) as [|x ls]; [reflexivity|].
    destruct (Hsub x (or_introl eq_refl)).
  - cbn [for_each]. rewrite exec_bind. apply IH.
    intros x Hx. rewrite (proj1 (handleUp_listeners _ _ _)) in Hx.
    apply filter_In in Hx. destruct Hx as [Hin Hne].
    destruct (Hsub x Hin) as [E|Hin']; [|exact Hin'].
    cbn in E, Hne. subst id. rewrite Nat.eqb_refl in Hne. discriminate.
Qed.

Lemma for_each_handleUp_isDragging (l : list (nat * Render)) :
  forall w, l <> [] ->
    isDragging (st (exec (for_each (fun l => handleUp (fst l) (snd l)) l) w)) = false.
Proof.
  induction l as [|[id r] l IH]; intros w Hne; [congruence|].
  cbn [for_each]. rewrite exec_bind. destruct l as [|x l'].
  - cbn [for_each]. rewrite exec_skip. apply handleUp_listeners.
  - apply IH. discriminate.
Qed.

Lemma commit_listeners (prev : Render) (w : World) :
  listeners (exec (commit prev) w) = listeners w
  /\ isDragging (st (exec (commit prev) w)) = isDragging (st w).
Proof.
  destruct w as [s oa c pb hi pi ld te pd ls nl].
  unfold_handlers. run_action. crush; split; reflexivity.
Qed.

(** X6: after a [mouseup] or [touchend] no document listener of a drag is
    left, whichever branch each [handleUp] took (also the [catch]), and if
    there was a listener [isDragging] is false. *)
Theorem pointer_up_removes_the_listeners (w w' : World) :
  step EPointerUp w = Some w' ->
  listeners w' = []
  /\ (listeners w <> [] -> isDragging (st w') = false).
Proof.
  intros Hstep. apply step_inv in Hstep; [|reflexivity]. destruct Hstep as [_ ->].
  destruct (commit_listeners (st w) (exec (handle EPointerUp (st w)) w)) as [-> ->].
  unfold handle. rewrite exec_bind. cbn [fst get]. split.
  - apply for_each_handleUp_listeners. intros x Hx. now apply in_map.
  - apply for_each_handleUp_isDragging.
Qed.

Lemma pointer_up_removes_the_listeners_witness :
  listeners (after (dragStart ++ [EPointerUp]) playingWorld) = [].
Proof.
  apply (pointer_up_removes_the_listeners (after dragStart playingWorld)).
  vm_compute. reflexivity.
Defined.

(** ** The watchdog *)

(** X7: after a tick of the one-second watchdog [isPlaying] does not hold of
    a paused element.  When the element plays, the tick changes nothing at
    all; when it is paused, [isPlaying] becomes false and polling stops. *)
Theorem watchdog_corrects_isPlaying (w w' : World) :
  step EWatchdogTick w = Some w' ->
  (forall a', audioRef w' = Some a' -> isPlaying (st w') = true -> paused a' = false)
  /\ (forall a, audioRef w = Some a -> paused a = false -> w' = w)
  /\ (forall a, audioRef w = Some a -> paused a = true ->
        isPlaying (st w') = false /\ progressIntervalRef w' = None).
Proof.
  intros Hstep. apply step_inv in Hstep; [|reflexivity]. destruct Hstep as [En ->].
  destruct w as [[tr ct ip er mu so il rc cti du dr sp] [a|] c pb hi pi ld te pd ls nl];
    cbn in En; try (rewrite andb_false_r in En; discriminate En).
  rewrite andb_true_r in En. subst ip.
  destruct (paused a) eqn:Ep.
  - unfold handle, checkActuallyPlaying, commit, progressEffect_due, trackChangeEffect_due,
      progressEffect, trackChangeEffect.
    run_action. rewrite Ep. cbn. rewrite ?orb_true_r. cbn.
    split; [|split].
    + destruct ct; cbn; [destruct te; cbn|]; intros a' _ H; discriminate H.
    + intros a0 [= <-] H. congruence.
    + intros a0 _ _. destruct ct; cbn; [destruct te; cbn|]; split; reflexivity.
  - rewrite commit_noop; unfold handle, checkActuallyPlaying; run_action; rewrite Ep;
      try reflexivity.
    cbn. split; [|split].
    + intros a' [= <-] _. exact Ep.
    + reflexivity.
    + intros a0 [= <-] H. congruence.
Qed.

Lemma watchdog_corrects_isPlaying_witness :
  isPlaying (st (after [EError None 0] playingWorld)) = true
  /\ isPlaying (st (after [EError None 0; EWatchdogTick] playingWorld)) = false.
Proof.
  split; [vm_compute; reflexivity|].
  destruct (audioRef (after [EError None 0] playingWorld)) as [a|] eqn:Ea;
    [|vm_compute in Ea; discriminate Ea].
  apply (proj2 (proj2 (watchdog_corrects_isPlaying (after [EError None 0] playingWorld)
                         (after [EError None 0; EWatchdogTick] playingWorld)
                         ltac:(vm_compute; reflexivity))) a Ea).
  vm_compute in Ea. injection Ea as <-. reflexivity.
Defined.

(** ** Pausing, and the effect that follows *)

(** X8: pausing with the toggle button.  The handler pauses the element and
    clears [isPlaying]; [isPlaying] is a dependency of the track effect, so
    the render that follows runs that effect, which reloads the element.  The
    track stays selected, the shown time and the element's position are 0,
    the element's duration is unknown again, [load()] was called once more
    and [play()] was not; nothing is scheduled unless the flag
    [trackEndedRef] is up. *)
Theorem toggle_pause_reloads_the_element (w w' : World) (a : Audio) :
  step EToggle w = Some w' -> isPlaying (st w) = true -> audioRef w = Some a ->
  isPlaying (st w') = false
  /\ currentTrack (st w') = currentTrack (st w)
  /\ currentTime (st w') = 0
  /\ progressIntervalRef w' = None
  /\ (exists a', audioRef w' = Some a'
        /\ source a' = currentTrack (st w) /\ paused a' = true
        /\ a_currentTime a' = 0 /\ a_duration a' = None
        /\ loads a' = S (loads a) /\ plays a' = plays a)
  /\ (trackEndedRef w = false -> pending w' = pending w).
Proof.
  intros Hstep Hp Ha. apply step_inv in Hstep; [|reflexivity]. destruct Hstep as [En ->].
  destruct w as [[tr ct ip er mu so il rc cti du dr sp] oa c pb hi pi ld te pd ls nl].
  cbn in Hp, Ha, En. subst ip oa.
  destruct il; [discriminate En|]. destruct ct as [t|]; [|discriminate En].
  unfold handle, togglePlayPause, togglePlayPause_pause, audio_pause, commit,
    progressEffect_due, trackChangeEffect_due, progressEffect, trackChangeEffect.
  run_action.
  destruct (paused a) eqn:Epa; cbn; rewrite ?orb_true_r; cbn;
    destruct te; cbn; rewrite ?Nat.add_1_r, ?app_nil_r;
    repeat (split; try reflexivity); try discriminate;
    eexists; repeat split; cbn; rewrite ?Nat.add_1_r; reflexivity.
Qed.

Lemma toggle_pause_reloads_the_element_witness :
  option_map a_currentTime (audioRef (after [EPlayhead 42; EToggle] playingWorld)) = Some 0.
Proof.
  destruct (audioRef (after [EPlayhead 42] playingWorld)) as [a|] eqn:Ea;
    [|vm_compute in Ea; discriminate Ea].
  destruct (toggle_pause_reloads_the_element (after [EPlayhead 42] playingWorld)
              (after [EPlayhead 42; EToggle] playingWorld) a
              ltac:(vm_compute; reflexivity) ltac:(vm_compute; reflexivity) Ea)
    as (_ & _ & _ & _ & (a' & Ha' & _ & _ & Ht & _) & _).
  rewrite Ha'. cbn. now rewrite Ht.
Defined.

(** ** The catalog, from the directory to the player *)

(** X9: the route and [fetchTracks] together.  When the music directory is
    missing or cannot be read the response is not ok and the player shows
    "Failed to load music tracks"; when it holds no entry ending in ".mp3"
    the player shows the "No music tracks found" message; in both cases the
    catalog in state is untouched and nothing is scheduled.  Otherwise
    [tracks] becomes the directory's ".mp3" entries, in order, and [error] is
    left as it was.  The fetch itself never changes [currentTrack]. *)
Theorem catalog_from_directory_to_player (cwd : string) (fs : FileSystem) (w w' : World) :
  step (EFetched (fetched (GET cwd fs))) w = Some w' ->
  currentTrack (st w') = currentTrack (st w)
  /\ ((existsSync fs (musicDirOf cwd) = false \/ readdirSync fs (musicDirOf cwd) = Throws) ->
      error (st w') = Some "Failed to load music tracks"
      /\ tracks (st w') = tracks (st w) /\ pending w' = pending w)
  /\ (forall files,
        existsSync fs (musicDirOf cwd) = true ->
        readdirSync fs (musicDirOf cwd) = Entries files ->
        (filter (fun f => endsWith f ".mp3") files = [] ->
         error (st w')
         = Some "No music tracks found. Please add MP3 files to the /public/music/ folder."
         /\ tracks (st w') = tracks (st w) /\ pending w' = pending w)
        /\ (filter (fun f => endsWith f ".mp3") files <> [] ->
            tracks (st w') = filter (fun f => endsWith f ".mp3") files
            /\ error (st w') = error (st w))).
Proof.
  intros Hstep. apply step_inv in Hstep; [|reflexivity]. destruct Hstep as [_ ->].
  assert (Hnoop : forall res,
            exec (commit (st w)) (exec (handle (EFetched res) (st w)) w)
            = exec (fetchTracks (st w) res) w).
  { intros res. apply commit_noop; destruct w as [[] ? ? ? ? ? ? ? ? ? ?];
      destruct res as [[|t ts]|]; unfold handle, fetchTracks; run_action;
      try reflexivity; destruct (_ && _); reflexivity. }
  rewrite Hnoop. clear Hnoop.
  destruct w as [[tr ct ip er mu so il rc cti du dr sp] oa c pb hi pi ld te pd ls nl].
  unfold fetched, GET. split; [|split].
  - destruct (existsSync fs (musicDirOf cwd)); cbn; [|reflexivity].
    destruct (readdirSync fs (musicDirOf cwd)) as [files|]; cbn; [|reflexivity].
    destruct (filter _ files); unfold fetchTracks; run_action; [reflexivity|].
    destruct (_ && _); reflexivity.
  - intros [-> | Hthrow]; cbn; [repeat split|].
    destruct (existsSync fs (musicDirOf cwd)); cbn; [|repeat split].
    rewrite Hthrow. cbn. repeat split.
  - intros files -> ->. cbn. split.
    + intros ->. cbn. repeat split.
    + intros Hne. destruct (filter _ files) as [|t ts]; [congruence|].
      unfold fetchTracks. run_action. destruct (_ && _); split; reflexivity.
Qed.

Lemma catalog_from_directory_to_player_witness :
  tracks (st (after [EFetched (Some ["a.mp3"; "b.mp3"])] (initialWorld demoRect)))
  = ["a.mp3"; "b.mp3"].
Proof.
  pose (fs := mkFileSystem (fun _ => true)
                (fun _ => Entries ["a.mp3"; "cover.jpg"; "b.mp3"])).
  destruct (catalog_from_directory_to_player "/srv" fs (initialWorld demoRect)
              (after [EFetched (Some ["a.mp3"; "b.mp3"])] (initialWorld demoRect))
              ltac:(vm_compute; reflexivity)) as (_ & _ & H).
  destruct (H ["a.mp3"; "cover.jpg"; "b.mp3"] eq_refl eq_refl) as [_ H2].
  apply H2. vm_compute. discriminate.
Defined.

(** ** The first selection *)

(** X10: a fetched nonempty catalog is stored, and a selection is scheduled
    with [setTimeout(..., 0)] exactly when the render had neither a track nor
    a catalog.  When that timer fires, the track selected is a member of the
    fetched list (the [tracks] of the closure are stale and empty) and
    [retryCount] is 0. *)
Theorem first_fetch_selects_from_the_catalog :
  (forall w w' ts,
      ts <> [] -> step (EFetched (Some ts)) w = Some w' ->
      tracks (st w') = ts
      /\ currentTrack (st w') = currentTrack (st w)
      /\ pending w'
         = (pending w ++
            if is_some (currentTrack (st w)) || negb (is_empty (tracks (st w))) then []
            else [Timer 0 (KFetchSelect (st w) ts)])%list)
  /\ (forall w w' i d r ts ok rnd fresh,
        nth_error (pending w) i = Some (Timer d (KFetchSelect r ts)) -> ts <> [] ->
        step (ESettle i ok rnd fresh) w = Some w' ->
        exists t, In t ts /\ currentTrack (st w') = Some t /\ retryCount (st w') = 0%Z).
Proof.
  split.
  - intros w w' ts Hne Hstep. apply step_inv in Hstep; [|reflexivity]. destruct Hstep as [_ ->].
    destruct ts as [|t ts]; [congruence|].
    destruct w as [[tr ct ip er mu so il rc cti du dr sp] oa c pb hi pi ld te pd ls nl].
    rewrite commit_noop; unfold handle, fetchTracks; run_action;
      destruct ct, tr; cbn; rewrite ?app_nil_r; repeat split; reflexivity.
  - intros w w' i d r ts ok rnd fresh Hnth Hne Hstep.
    apply step_inv in Hstep; [|unfold plain; rewrite Hnth; now destruct ok].
    destruct Hstep as [En ->].
    cbn in En. apply andb_true_iff in En. destruct En as [_ Hrnd].
    destruct (commit_same_selection (st w) (exec (handle (ESettle i ok rnd fresh) (st w)) w))
      as (Hc & Hr & _).
    unfold exec in *. rewrite Hc, Hr. clear Hc Hr.
    unfold handle, bind. cbn [fst snd get]. rewrite Hnth. cbn [fst snd modify settle run].
    unfold bind. cbn [fst snd skip ret].
    destruct (selectRandomTrack_member ts rnd (with_pending (remove_nth i (pending w)) w)
                Hne Hrnd) as (t & _ & Hin & Hcur & Hret).
    exists t. repeat split; assumption.
Qed.

(** The start of the session of the examples: the catalog arrives and the
    timer fires. *)
Lemma first_fetch_selects_from_the_catalog_witness :
  exists t, In t demoCatalog
    /\ currentTrack (st (after (firstn 2 demoStartUp) (initialWorld demoRect))) = Some t
    /\ retryCount (st (after (firstn 2 demoStartUp) (initialWorld demoRect))) = 0%Z.
Proof.
  apply (proj2 first_fetch_selects_from_the_catalog
           (after (firstn 1 demoStartUp) (initialWorld demoRect)) _
           0%nat 0%Z initialRender demoCatalog true 0 running).
  - vm_compute. reflexivity.
  - discriminate.
  - vm_compute. reflexivity.
Defined.

(** ** Loading *)

Lemma served_kept_refl (w : World) : served_kept w w.
Proof. intros H. exact H. Qed.

Lemma served_kept_trans (w1 w2 w3 : World) :
  served_kept w1 w2 -> served_kept w2 w3 -> served_kept w1 w3.
Proof. unfold served_kept. auto. Qed.

(** Closing a goal about a world that was computed. *)
Ltac served_done :=
  unfold served_kept, loading_served; cbn;
  let Ha := fresh in let H := fresh in let H' := fresh in
  intros [Ha H];
  first
    [ now destruct Ha
    | split; [discriminate|];
      intros H'; try discriminate H';
      rewrite ?existsb_app; cbn; rewrite ?orb_true_r, ?orb_false_r;
      try reflexivity; auto ].

Ltac served_run :=
  intros [[tr ct ip er mu so il rc cti du dr sp] [a|] c pb hi pi ld te pd ls nl];
  run_action; crush; served_done.

Lemma startPlayback_resumed_served (r : Render) : keeps served_kept (startPlayback_resumed r).
Proof. unfold startPlayback_resumed, startPlayback_catch. served_run. Qed.

Lemma startPlayback_served (r : Render) : keeps served_kept (startPlayback r).
Proof.
  unfold startPlayback, startPlayback_resumed, startPlayback_catch. served_run.
Qed.

Lemma togglePlayPause_resumed_served (r : Render) :
  keeps served_kept (togglePlayPause_resumed r).
Proof. unfold togglePlayPause_resumed, togglePlayPause_catch, audio_play. served_run. Qed.

Lemma togglePlayPause_served (r : Render) : keeps served_kept (togglePlayPause r).
Proof.
  unfold togglePlayPause, togglePlayPause_pause, togglePlayPause_resumed,
    togglePlayPause_catch, audio_play, audio_pause.
  served_run.
Qed.

Lemma retryCurrentTrack_served (r : Render) : keeps served_kept (retryCurrentTrack r).
Proof.
  unfold retryCurrentTrack, retryCurrentTrack_resumed, retryCurrentTrack_catch.
  destruct r as [tr' [t'|] ip' er' mu' so' il' rc' cti' du' dr' sp']; served_run.
Qed.

Lemma trackChangeEffect_served (r : Render) : keeps served_kept (trackChangeEffect r).
Proof. unfold trackChangeEffect. served_run. Qed.

Ltac keeps_served :=
  unfold_actions;
  repeat first
    [ apply startPlayback_served
    | apply startPlayback_resumed_served
    | apply togglePlayPause_served
    | apply togglePlayPause_resumed_served
    | apply retryCurrentTrack_served
    | apply trackChangeEffect_served
    | keeps_step served_kept_refl served_kept_trans
        ltac:(apply keeps_modify; intros [[] [?|] ? ? ? ? ? ? ? ? ?]; served_done) ].

Lemma resetAudioSystem_served (r : Render) (fresh : AudioContextState) :
  keeps served_kept (resetAudioSystem r fresh).
Proof.
  unfold resetAudioSystem, resetAudioSystem_closed, startPlayback, startPlayback_resumed,
    startPlayback_catch.
  served_run.
Qed.

Lemma run_audio_kept (k : Cont) (ok : bool) (rnd : Q) (fresh : AudioContextState) :
  keeps audio_kept (run k ok rnd fresh).
Proof. destruct k; keeps_audio. Qed.

(** A continuation that clears [isLoading] does so, or hands over to one
    that is nearer to doing so. *)
Lemma run_hands_over (k : Cont) (ok : bool) (rnd : Q) (fresh : AudioContextState)
    (d : Z) (w : World) :
  clears_loading (Timer d k) = true -> audioRef w <> None ->
  isLoading (st (exec (run k ok rnd fresh) w)) = false
  \/ exists t', pending (exec (run k ok rnd fresh) w) = (pending w ++ [t'])%list
                /\ clears_loading t' = true
                /\ (handover_rank (cont_of t') < handover_rank k)%nat.
Proof.
  intros Hc Ha.
  destruct w as [[tr ct ip er mu so il rc cti du dr sp] [a|] c pb hi pi ld te pd ls nl];
    [clear Ha | now destruct Ha].
  destruct k; try discriminate Hc;
    try (destruct r as [tr' [t'|] ip' er' mu' so' il' rc' cti' du' dr' sp'];
         try discriminate Hc);
    unfold run, startPlayback_resumed, startPlayback_catch, togglePlayPause_resumed,
      togglePlayPause_catch, retryCurrentTrack_resumed, retryCurrentTrack_catch,
      resetAudioSystem_closed, resetAudioSystem_catch, startPlayback, audio_play;
    run_action; crush;
    first [ left; reflexivity
          | right; eexists; split; [reflexivity|]; split; [reflexivity | cbn; lia] ].
Qed.

Lemma run_clears_loading (k : Cont) (ok : bool) (rnd : Q) (fresh : AudioContextState)
    (d : Z) (w : World) :
  clears_loading (Timer d k) = true -> audioRef w <> None ->
  loading_served (exec (run k ok rnd fresh) w).
Proof.
  intros Hc Ha. split.
  - apply run_audio_kept. exact Ha.
  - destruct (run_hands_over k ok rnd fresh d w Hc Ha) as [Hf | (t' & Hp & Ht & _)].
    + rewrite Hf. discriminate.
    + intros _. rewrite Hp, existsb_app. cbn. rewrite Ht. apply orb_true_r.
Qed.

Lemma run_loading_served (k : Cont) (ok : bool) (rnd : Q) (fresh : AudioContextState) :
  keeps served_kept (run k ok rnd fresh).
Proof.
  destruct k; unfold run, selectRandomTrack, setCurrentTrack, setRetryCount,
    handleVisibilityChange_resumed, startPlayback_catch, togglePlayPause_catch,
    retryCurrentTrack_resumed, retryCurrentTrack_catch, resetAudioSystem_catch, audio_play;
    keeps_served.
Qed.

Lemma existsb_remove_nth {A : Type} (p : A -> bool) (l : list A) :
  forall i x, nth_error l i = Some x -> p x = false ->
    existsb p (remove_nth i l) = existsb p l.
Proof.
  induction l as [|y l IH]; intros [|i] x E Hx; simpl in *; try discriminate.
  - injection E as ->. now rewrite Hx.
  - now rewrite (IH i x E Hx).
Qed.

Lemma settle_prefix_served (p : Action unit) (k : Cont) (ok : bool) (rnd : Q)
    (fresh : AudioContextState) (d : Z) (w : World) :
  keeps served_kept p -> keeps audio_kept p ->
  (clears_loading (Timer d k) = true -> audioRef w <> None ->
   loading_served (exec (p ;; run k ok rnd fresh) w))
  /\ (loading_served w -> loading_served (exec (p ;; run k ok rnd fresh) w)).
Proof.
  intros Hp Ha. rewrite exec_bind. split.
  - intros Hc Hw. apply (run_clears_loading k ok rnd fresh d); [exact Hc|].
    apply Ha. exact Hw.
  - intros Hw. apply run_loading_served. apply Hp. exact Hw.
Qed.

Lemma settle_loading_served (t : Task) (ok : bool) (rnd : Q) (fresh : AudioContextState)
    (w : World) :
  (clears_loading t = true -> audioRef w <> None ->
   loading_served (exec (settle t ok rnd fresh) w))
  /\ (loading_served w -> loading_served (exec (settle t ok rnd fresh) w)).
Proof.
  destruct t as [d k|k|k|k]; unfold settle.
  - split.
    + intros Hc Hw. apply (run_clears_loading k true rnd fresh d); assumption.
    + apply run_loading_served.
  - apply (settle_prefix_served _ k ok rnd fresh 0).
    + unfold resume_fulfilled; keeps_served.
    + unfold resume_fulfilled; keeps_audio.
  - apply (settle_prefix_served _ k ok rnd fresh 0).
    + unfold play_fulfilled; keeps_served.
    + unfold play_fulfilled; keeps_audio.
  - apply (settle_prefix_served _ k ok rnd fresh 0).
    + unfold close_fulfilled; keeps_served.
    + unfold close_fulfilled; keeps_audio.
Qed.

Lemma handle_loading_served (e : Event) (r : Render) :
  match e with
  | ESettle _ _ _ _ => True
  | _ => keeps served_kept (handle e r)
  end.
Proof.
  destruct e; try exact I;
    unfold handle, fetchTracks, initializeAudioContext, skipToNext, handleTrackEnded,
      handleError, toggleMute, handleMetadataLoaded, checkActuallyPlaying,
      handleVisibilityChange, handleVisibilityChange_resumed, handleProgressBarDown,
      handleMove, handleUp, handleProgressBarInteraction, updateProgress,
      selectRandomTrack, setCurrentTrack, setRetryCount, setRetryCountWith,
      audio_pause, audio_play, play_fulfilled;
    try apply resetAudioSystem_served;
    keeps_served.
Qed.

Lemma commit_loading_served (prev : Render) : keeps served_kept (commit prev).
Proof. unfold commit, progressEffect. keeps_served. Qed.

Lemma fulfilled_frame (ok : bool) (w : World) :
  audioRef w <> None ->
  (pending (exec (if ok then resume_fulfilled else skip) w) = pending w
   /\ audioRef (exec (if ok then resume_fulfilled else skip) w) <> None)
  /\ (pending (exec (if ok then play_fulfilled else skip) w) = pending w
      /\ audioRef (exec (if ok then play_fulfilled else skip) w) <> None)
  /\ (pending (exec (if ok then close_fulfilled else skip) w) = pending w
      /\ audioRef (exec (if ok then close_fulfilled else skip) w) <> None).
Proof.
  destruct w as [s [a|] [[| |]|] pb hi pi ld te pd ls nl]; intros Ha; try now destruct Ha.
  all: destruct ok; unfold resume_fulfilled, play_fulfilled, close_fulfilled; run_action;
    repeat split; try discriminate; destruct (paused a); cbn; try reflexivity; discriminate.
Qed.

Lemma settle_hands_over (t : Task) (ok : bool) (rnd : Q) (fresh : AudioContextState)
    (w : World) :
  clears_loading t = true -> audioRef w <> None ->
  isLoading (st (exec (settle t ok rnd fresh) w)) = false
  \/ exists t', pending (exec (settle t ok rnd fresh) w) = (pending w ++ [t'])%list
                /\ clears_loading t' = true
                /\ (handover_rank (cont_of t') < handover_rank (cont_of t))%nat.
Proof.
  intros Hc Ha.
  destruct (fulfilled_frame ok w Ha) as ((Hr1 & Hr2) & (Hp1 & Hp2) & (Hc1 & Hc2)).
  destruct t as [d k|k|k|k]; unfold settle; rewrite ?exec_bind; cbn [cont_of].
  - exact (run_hands_over k true rnd fresh d w Hc Ha).
  - rewrite <- Hr1. exact (run_hands_over k ok rnd fresh 0 _ Hc Hr2).
  - rewrite <- Hp1. exact (run_hands_over k ok rnd fresh 0 _ Hc Hp2).
  - rewrite <- Hc1. exact (run_hands_over k ok rnd fresh 0 _ Hc Hc2).
Qed.

(** X11: [isLoading] is never left without pending work that clears it.  In
    every world the component can reach where [isLoading] holds, a timer or a
    promise is pending whose continuation belongs to [startPlayback],
    [togglePlayPause], [retryCurrentTrack], [resetAudioSystem] or the track
    effect.  Settling such a task, fulfilled or rejected, with the element
    mounted, leaves [isLoading] false or appends exactly one further such
    task, of a strictly smaller rank: after at most four hand-overs
    [setIsLoading(false)] is called. *)
Theorem loading_is_never_stuck :
  (forall rect w,
      reachable rect w -> isLoading (st w) = true ->
      exists t, In t (pending w) /\ clears_loading t = true)
  /\ (forall t ok rnd fresh w,
        clears_loading t = true -> audioRef w <> None ->
        isLoading (st (exec (settle t ok rnd fresh) w)) = false
        \/ exists t', pending (exec (settle t ok rnd fresh) w) = (pending w ++ [t'])%list
                      /\ clears_loading t' = true
                      /\ (handover_rank (cont_of t') < handover_rank (cont_of t))%nat).
Proof.
  split; [|exact settle_hands_over].
  intros rect w Hreach.
  assert (Hinv : loading_served w).
  { induction Hreach as [|e w w' _ IH Hstep]; [split; discriminate|].
    destruct (step_cases e w w' Hstep) as [En [-> | (i & rnd & fresh & k & -> & Et & ->)]].
    - apply (commit_loading_served (st w)).
      pose proof (handle_loading_served e (st w)) as Hk.
      destruct e; try (apply Hk; exact IH).
      unfold handle, exec, bind. cbn [fst snd get].
      destruct (nth_error (pending w) i) as [t|] eqn:Et; [|exact IH].
      cbn [fst snd modify].
      destruct (settle_loading_served t ok rnd fresh
                  (with_pending (remove_nth i (pending w)) w)) as [Hclear Hkeep].
      destruct (clears_loading t) eqn:Ec.
      + apply Hclear; [reflexivity|]. destruct IH as [Ha _]. exact Ha.
      + apply Hkeep. destruct IH as [Ha Hl]. split; [exact Ha|].
        cbn [with_pending pending st]. intros Hil.
        rewrite (existsb_remove_nth _ _ _ _ Et Ec). apply Hl. exact Hil.
    - (* a fulfilled play(): the continuation runs after the render of the
         play event *)
      apply commit_loading_served.
      destruct (clears_loading (PlayPromise k)) eqn:Ec.
      + apply (run_clears_loading k true rnd fresh 0); [exact Ec|].
        unfold played. rewrite exec_bind.
        apply commit_audio_kept. apply (handle_audio_kept EPlayed (st w)).
        destruct IH as [Ha _]. destruct w. exact Ha.
      + apply run_loading_served.
        unfold played. rewrite exec_bind.
        apply commit_loading_served.
        apply (handle_loading_served EPlayed (st w)).
        destruct IH as [Ha Hl]. split; [destruct w; exact Ha|].
        cbn [with_pending pending st]. intros Hil.
        rewrite (existsb_remove_nth _ _ _ _ Et Ec). apply Hl.
        destruct w. exact Hil. }
  intros Hil. destruct Hinv as [_ Hl]. apply Hl in Hil.
  apply existsb_exists in Hil. exact Hil.
Qed.

Lemma loading_is_never_stuck_witness :
  exists t, In t (pending (after [ESkip (1 # 2)] playingWorld)) /\ clears_loading t = true.
Proof.
  apply (proj1 loading_is_never_stuck demoRect).
  - apply (steps_reachable demoRect (demoStartUp ++ [ESkip (1 # 2)]) (initialWorld demoRect));
      [apply reachable_init | vm_compute; reflexivity].
  - vm_compute. reflexivity.
Defined.

(** ** The Start button *)


(** ** Resetting the audio system *)

Lemma resetAudioSystem_same_selection (r : Render) (fresh : AudioContextState) :
  keeps same_selection (resetAudioSystem r fresh).
Proof.
  unfold resetAudioSystem, resetAudioSystem_closed, startPlayback, startPlayback_resumed,
    startPlayback_catch.
  keeps_same.
Qed.

Lemma reset_closed_same_selection (r : Render) (ok : bool) (rnd : Q)
    (fresh : AudioContextState) :
  keeps same_selection (settle (ClosePromise (KResetClose r)) ok rnd fresh).
Proof.
  unfold settle, run, close_fulfilled, resetAudioSystem_closed, resetAudioSystem_catch,
    startPlayback, startPlayback_resumed, startPlayback_catch.
  keeps_same.
Qed.

(** X13: [resetAudioSystem].  With an audio context it sets [isLoading],
    clears [error], shows time 0, stops polling and awaits [close()]; without
    one it goes on at once.  After the close the context is a new one; the
    element, when a track is selected, has that track as its source and was
    reloaded, paused, with no [play()] called; with the start overlay still
    shown [isLoading] is cleared and nothing is scheduled, and otherwise
    [startPlayback] runs, which leaves work pending that clears [isLoading].
    A rejected [close()] clears [isLoading] and sets an error, keeping the
    old context and the element.  Neither the function nor its continuation
    changes the track, the retry count or the catalog. *)
Theorem reset_replaces_the_audio_context :
  (forall r fresh w c,
      audioContextRef w = Some c ->
      exec (resetAudioSystem r fresh) w
      = with_pending (pending w ++ [ClosePromise (KResetClose r)])
          (with_progressIntervalRef None
             (upd_st (fun s => with_currentTime 0 (with_error None (with_isLoading true s))) w)))
  /\ (forall r fresh w,
        audioContextRef w = None ->
        exec (resetAudioSystem r fresh) w
        = exec (resetAudioSystem_closed r fresh)
            (with_progressIntervalRef None
               (upd_st (fun s => with_currentTime 0 (with_error None (with_isLoading true s)))
                  w)))
  /\ (forall r rnd fresh w,
        exec (settle (ClosePromise (KResetClose r)) true rnd fresh) w
        = exec (resetAudioSystem_closed r fresh) (with_audioContextRef None w))
  /\ (forall r fresh w a,
        audioRef w = Some a ->
        let w' := exec (resetAudioSystem_closed r fresh) w in
        audioContextRef w' = Some fresh
        /\ (forall t, currentTrack r = Some t ->
              exists a', audioRef w' = Some a' /\ source a' = Some t
                         /\ paused a' = true /\ plays a' = plays a
                         /\ (loads a < loads a')%nat)
        /\ (showStartOverlay r = true ->
              isLoading (st w') = false /\ pending w' = pending w)
        /\ (showStartOverlay r = false -> currentTrack r <> None ->
              isLoading (st w') = true
              /\ exists k, pending w' = (pending w ++ [k])%list /\ clears_loading k = true))
  /\ (forall r rnd fresh w,
        let w' := exec (settle (ClosePromise (KResetClose r)) false rnd fresh) w in
        isLoading (st w') = false
        /\ error (st w') = Some "Failed to reset audio system. Please reload the page."
        /\ audioContextRef w' = audioContextRef w /\ audioRef w' = audioRef w
        /\ pending w' = pending w)
  /\ (forall r ok rnd fresh,
        keeps same_selection (resetAudioSystem r fresh)
        /\ keeps same_selection (settle (ClosePromise (KResetClose r)) ok rnd fresh)).
Proof.
  split; [|split; [|split; [|split; [|split]]]].
  - intros r fresh [[] oa c pb hi pi ld te pd ls nl] c0 Hc. cbn in Hc. subst c.
    unfold resetAudioSystem. run_action. reflexivity.
  - intros r fresh [[] oa c pb hi pi ld te pd ls nl] Hc. cbn in Hc. subst c.
    unfold resetAudioSystem. run_action. reflexivity.
  - intros r rnd fresh [s oa [c|] pb hi pi ld te pd ls nl];
      unfold settle, run, close_fulfilled, resetAudioSystem_closed; run_action; reflexivity.
  - intros r fresh [[tr ct ip er mu so il rc cti du dr sp] oa c pb hi pi ld te pd ls nl] a Ha.
    cbn in Ha. subst oa.
    destruct r as [tr' ct' ip' er' mu' so' il' rc' cti' du' dr' sp'].
    unfold resetAudioSystem_closed, startPlayback, startPlayback_resumed. cbn.
    split; [|split; [|split]].
    + run_action. destruct ct', so'; cbn; try reflexivity;
        destruct fresh; cbn; reflexivity.
    + intros t ->. run_action.
      destruct so'; cbn; [eexists; repeat split; cbn; lia|].
      destruct fresh; cbn; eexists; repeat split; cbn; lia.
    + intros ->. run_action. destruct ct'; split; reflexivity.
    + intros -> Hct. destruct ct' as [t|]; [clear Hct | congruence]. run_action.
      destruct fresh; cbn; split; try reflexivity; eexists; split; reflexivity.
  - intros r rnd fresh [s oa c pb hi pi ld te pd ls nl].
    unfold settle, run, resetAudioSystem_catch. run_action. repeat split.
  - intros r ok rnd fresh. split.
    + apply resetAudioSystem_same_selection.
    + apply reset_closed_same_selection.
Qed.

(** ** The audio context *)

Lemma context_kept_refl (w : World) : context_kept w w.
Proof. intros H. exact H. Qed.

Lemma context_kept_trans (w1 w2 w3 : World) :
  context_kept w1 w2 -> context_kept w2 w3 -> context_kept w1 w3.
Proof. unfold context_kept. auto. Qed.

Ltac keeps_context_with prim :=
  unfold_actions;
  repeat first
    [ prim
    | keeps_step context_kept_refl context_kept_trans
        ltac:(apply keeps_modify; intros [? ? [?|] ? ? ? ? ? ? ? ?];
              unfold context_kept; cbn; first [ now auto | discriminate ]) ].

Lemma startPlayback_context (r : Render) : keeps context_kept (startPlayback r).
Proof.
  unfold startPlayback, startPlayback_resumed, startPlayback_catch.
  keeps_context_with fail.
Qed.

(** After the close, [resetAudioSystem] holds a context again. *)
Lemma resetAudioSystem_closed_context (r : Render) (fresh : AudioContextState) (w : World) :
  audioContextRef (exec (resetAudioSystem_closed r fresh) w) <> None.
Proof.
  unfold resetAudioSystem_closed. rewrite exec_bind.
  match goal with
  | |- audioContextRef (exec ?m ?w1) <> None =>
      assert (Hk : keeps context_kept m); [|apply (Hk w1)]
  end.
  - keeps_context_with ltac:(apply startPlayback_context).
  - destruct w. discriminate.
Qed.

Lemma run_context_kept (k : Cont) (ok : bool) (rnd : Q) (fresh : AudioContextState) :
  keeps context_kept (run k ok rnd fresh).
Proof.
  destruct k; unfold run;
    try solve
      [ unfold selectRandomTrack, setCurrentTrack, setRetryCount,
          handleVisibilityChange_resumed, startPlayback_resumed, startPlayback_catch,
          togglePlayPause_resumed, togglePlayPause_catch,
          retryCurrentTrack_resumed, retryCurrentTrack_catch, audio_play;
        keeps_context_with ltac:(apply startPlayback_context) ].
  destruct ok.
  - intros w _.
    exact (resetAudioSystem_closed_context r fresh (with_audioContextRef None w)).
  - unfold resetAudioSystem_catch. keeps_context_with fail.
Qed.

Lemma handle_context_kept (e : Event) (r : Render) : keeps context_kept (handle e r).
Proof.
  destruct e;
    unfold handle, settle, fetchTracks, initializeAudioContext, togglePlayPause,
      togglePlayPause_pause, togglePlayPause_resumed, togglePlayPause_catch,
      skipToNext, handleTrackEnded, handleError, toggleMute,
      retryCurrentTrack, retryCurrentTrack_resumed, retryCurrentTrack_catch,
      resetAudioSystem, handleMetadataLoaded, checkActuallyPlaying,
      handleVisibilityChange, handleVisibilityChange_resumed, handleProgressBarDown,
      handleMove, handleUp, handleProgressBarInteraction, updateProgress,
      selectRandomTrack, setCurrentTrack, setRetryCount, setRetryCountWith,
      audio_pause, audio_play, play_fulfilled, resume_fulfilled, close_fulfilled;
    keeps_context_with ltac:(first
      [ apply startPlayback_context
      | apply run_context_kept
      | intros w _; apply resetAudioSystem_closed_context ]).
Qed.

Lemma commit_context_kept (prev : Render) : keeps context_kept (commit prev).
Proof. unfold commit, progressEffect, trackChangeEffect. keeps_context_with fail. Qed.

(** X14: once the component holds an audio context it holds one after every
    event ([resetAudioSystem] replaces it, nothing drops it).
    [initializeAudioContext] keeps an existing context and makes one only
    when there is none; [hasInitializedRef] is set at once when the context
    is not suspended, and otherwise only [resume()] is awaited, whose
    rejection sets an error and leaves the flag as it was. *)
Theorem audio_context_is_made_once_and_kept :
  (forall e w w', step e w = Some w' ->
      audioContextRef w <> None -> audioContextRef w' <> None)
  /\ (forall fresh w c,
        audioContextRef w = Some c ->
        audioContextRef (exec (initializeAudioContext fresh) w) = Some c)
  /\ (forall fresh w,
        audioContextRef w = None ->
        let w' := exec (initializeAudioContext fresh) w in
        audioContextRef w' = Some fresh
        /\ (fresh <> suspended -> hasInitializedRef w' = true /\ pending w' = pending w)
        /\ (fresh = suspended ->
            hasInitializedRef w' = hasInitializedRef w
            /\ pending w' = (pending w ++ [ResumePromise KInitResume])%list))
  /\ (forall rnd fresh w,
        let w' := exec (settle (ResumePromise KInitResume) false rnd fresh) w in
        hasInitializedRef w' = hasInitializedRef w
        /\ error (st w') = Some "Failed to initialize audio system. Please reload the page.").
Proof.
  split; [|split; [|split]].
  - intros e w w' Hstep. apply (step_keeps context_kept) with (e := e); try exact Hstep.
    + apply context_kept_refl.
    + apply context_kept_trans.
    + intros e0 r _. apply handle_context_kept.
    + apply commit_context_kept.
    + intros k rnd fresh _. apply run_context_kept.
    + intros i [] H. exact H.
  - intros fresh [s oa c0 pb hi pi ld te pd ls nl] c Hc. cbn in Hc. subst c0.
    unfold initializeAudioContext. run_action. destruct c; reflexivity.
  - intros fresh [s oa c0 pb hi pi ld te pd ls nl] Hc. cbn in Hc. subst c0.
    unfold initializeAudioContext. run_action.
    destruct fresh; cbn; repeat split; try congruence; try discriminate.
  - intros rnd fresh [s oa c pb hi pi ld te pd ls nl].
    unfold settle, run. run_action. split; reflexivity.
Qed.

(** ** The start overlay *)

Lemma overlay_same_refl (w : World) : overlay_same w w.
Proof. reflexivity. Qed.

Lemma overlay_same_trans (w1 w2 w3 : World) :
  overlay_same w1 w2 -> overlay_same w2 w3 -> overlay_same w1 w3.
Proof. unfold overlay_same. congruence. Qed.

Ltac keeps_overlay :=
  unfold_handlers; unfold selectRandomTrack, setCurrentTrack; unfold_actions;
  repeat keeps_step overlay_same_refl overlay_same_trans
    ltac:(apply keeps_modify; intros []; reflexivity).

Lemma commit_overlay_same (prev : Render) : keeps overlay_same (commit prev).
Proof. keeps_overlay. Qed.

Lemma handle_overlay_same (e : Event) (r : Render) :
  match e with
  | ESettle _ _ _ _ => True
  | _ => keeps overlay_same (handle e r)
  end.
Proof. destruct e; try exact I; keeps_overlay. Qed.

Lemma settle_overlay_same (t : Task) (ok : bool) (rnd : Q) (fresh : AudioContextState) :
  match cont_of t with
  | KStartPlay _ => True
  | _ => keeps overlay_same (settle t ok rnd fresh)
  end.
Proof.
  destruct t as [d k|k|k|k]; destruct k; cbn [cont_of]; try exact I; keeps_overlay.
Qed.

Lemma commit_isPlaying (prev : Render) (w : World) :
  isPlaying (st (exec (commit prev) w)) = isPlaying (st w).
Proof.
  destruct w as [[tr ct ip er mu so il rc cti du dr sp] oa c pb hi pi ld te pd ls nl].
  unfold commit, progressEffect, trackChangeEffect. run_action. crush; reflexivity.
Qed.

(** X15: [showStartOverlay] changes only by the settling of the [play()]
    promise of [startPlayback]: an event that changes it is the settling of
    a pending task with that continuation, and after it the overlay is
    hidden and [isPlaying] holds.  No event brings the overlay back. *)
Theorem start_overlay_goes_once (e : Event) (w w' : World) :
  step e w = Some w' -> showStartOverlay (st w') <> showStartOverlay (st w) ->
  showStartOverlay (st w') = false
  /\ isPlaying (st w') = true
  /\ exists i ok rnd fresh t r,
       e = ESettle i ok rnd fresh /\ nth_error (pending w) i = Some t
       /\ cont_of t = KStartPlay r.
Proof.
  intros Hstep Hdiff.
  destruct (step_cases e w w' Hstep) as [_ [-> | (i & rnd & fresh & k & -> & Hnth & ->)]].
  - rewrite commit_isPlaying.
    pose proof (commit_overlay_same (st w) (exec (handle e (st w)) w)) as Hc.
    unfold overlay_same, exec in *. rewrite Hc in *. clear Hc.
    pose proof (handle_overlay_same e (st w)) as Hk.
    destruct e; try (exfalso; apply Hdiff; exact (Hk w)). clear Hk.
    revert Hdiff. unfold handle, bind. cbn [fst snd get].
    destruct (nth_error (pending w) i) as [t|] eqn:Et;
      [|intros Hdiff; exfalso; apply Hdiff; reflexivity].
    cbn [fst snd modify].
    pose proof (settle_overlay_same t ok rnd fresh) as Hs.
    destruct (cont_of t) eqn:Ek;
      try (intros Hdiff; exfalso; apply Hdiff;
           rewrite (Hs (with_pending (remove_nth i (pending w)) w)); now destruct w).
    clear Hs. intros Hdiff.
    assert (Hok : showStartOverlay (st (snd (settle t ok rnd fresh
                    (with_pending (remove_nth i (pending w)) w)))) = false
                  /\ isPlaying (st (snd (settle t ok rnd fresh
                    (with_pending (remove_nth i (pending w)) w)))) = true).
    { destruct w as [s [a|] c pb hi pi ld te pd ls nl]; cbn in Hdiff |- *;
        destruct t as [d k|k|k|k]; cbn in Ek; subst k;
        revert Hdiff; unfold settle, run, play_fulfilled, resume_fulfilled, close_fulfilled;
        run_action; destruct ok; crush; intros Hdiff; try (split; reflexivity);
        exfalso; apply Hdiff; reflexivity. }
    destruct Hok as [H1 H2]. split; [exact H1|]. split; [exact H2|].
    exists i, ok, rnd, fresh, t, r. repeat split; assumption.
  - (* a fulfilled play(): only the continuation of startPlayback hides the
       overlay *)
    assert (Hp : showStartOverlay (st (played i w)) = showStartOverlay (st w)).
    { unfold played. rewrite exec_bind.
      change (overlay_same w
                (exec (commit (st w))
                   (exec play_fulfilled (with_pending (remove_nth i (pending w)) w)))).
      eapply overlay_same_trans; [|apply commit_overlay_same].
      eapply overlay_same_trans; [|exact (handle_overlay_same EPlayed (st w) _)].
      destruct w; reflexivity. }
    set (w1 := played i w) in *.
    assert (Hr : match k with
                 | KStartPlay _ =>
                     showStartOverlay (st (exec (run k true rnd fresh) w1)) = false
                     /\ isPlaying (st (exec (run k true rnd fresh) w1)) = true
                 | _ =>
                     showStartOverlay (st (exec (run k true rnd fresh) w1))
                     = showStartOverlay (st w1)
                 end).
    { clearbody w1.
      pose proof (settle_overlay_same (Timer 0 k) true rnd fresh) as Hs.
      destruct k; cbn [cont_of] in Hs; try exact (Hs w1).
      destruct w1 as [[] oa c pb hi pi ld te pd ls nl]. unfold run. run_action.
      split; reflexivity. }
    set (w2 := exec (run k true rnd fresh) w1) in *.
    pose proof (commit_overlay_same (st w1) w2) as Hc.
    pose proof (commit_isPlaying (st w1) w2) as Hi.
    unfold overlay_same in Hc. fold (exec (commit (st w1)) w2) in Hc.
    rewrite Hc in *. rewrite Hi.
    destruct k; try (exfalso; apply Hdiff; congruence).
    destruct Hr as [H1 H2]. split; [exact H1|]. split; [exact H2|].
    exists i, true, rnd, fresh, (PlayPromise (KStartPlay r)), r. repeat split. exact Hnth.
Qed.

Lemma start_overlay_goes_once_witness :
  showStartOverlay (st (after (firstn 6 demoStartUp) (initialWorld demoRect))) = false.
Proof.
  assert (Hstep : step (ESettle 0 true 0 running)
                    (after (firstn 5 demoStartUp) (initialWorld demoRect))
                  = Some (after (firstn 6 demoStartUp) (initialWorld demoRect)))
    by (vm_compute; reflexivity).
  assert (Hdiff : showStartOverlay (st (after (firstn 6 demoStartUp) (initialWorld demoRect)))
                  <> showStartOverlay
                       (st (after (firstn 5 demoStartUp) (initialWorld demoRect))))
    by (vm_compute; discriminate).
  exact (proj1 (start_overlay_goes_once _ _ _ Hstep Hdiff)).
Defined.

(** ** The dependencies of the track effect *)

(** The effect, when due, reloads the element. *)
Lemma commit_reloads (prev : Render) (w : World) (a : Audio) (t : string) :
  audioRef w = Some a -> currentTrack (st w) = Some t ->
  trackChangeEffect_due prev (st w) = true ->
  (exists a', audioRef (exec (commit prev) w) = Some a'
      /\ a_currentTime a' = 0 /\ a_duration a' = None
      /\ paused a' = true /\ loads a' = S (loads a))
  /\ currentTime (st (exec (commit prev) w)) = 0.
Proof.
  intros Ha Ht Hdue.
  destruct w as [s oa c pb hi pi ld te pd ls nl]. cbn in Ha, Ht, Hdue. subst oa.
  unfold commit, progressEffect, trackChangeEffect. run_action.
  rewrite Hdue, Ht. cbn.
  destruct (progressEffect_due prev s); cbn; rewrite ?Ht; cbn;
    destruct (isPlaying s) eqn:Ep; cbn; rewrite ?Ep; cbn;
    try (destruct te; cbn);
    (split; [eexists; repeat split; cbn; apply Nat.add_1_r | reflexivity]).
Qed.

(** X16: the track effect depends on [currentTrack], [isPlaying] and, through
    [startProgressTracking] and [updateProgress], on [duration] and
    [isDragging].  When a track is selected and a render differs from the
    previous one in any of the four, the effect runs: the element gets the
    track as its source and is reloaded (position 0, duration unknown,
    paused, one more [load()], no [play()]), the shown time is 0, polling is
    stopped, and [play()] is scheduled 500 ms later exactly when [isPlaying]
    holds or the flag [trackEndedRef] is up, in which case [isLoading] stays
    set. *)
Theorem track_effect_runs_on_every_dependency (prev : Render) (w : World) (a : Audio)
    (t : string) :
  audioRef w = Some a -> currentTrack (st w) = Some t ->
  (currentTrack prev <> Some t
   \/ isPlaying prev <> isPlaying (st w)
   \/ same_number (duration prev) (duration (st w)) = false
   \/ isDragging prev <> isDragging (st w)) ->
  let w' := exec (commit prev) w in
  (exists a', audioRef w' = Some a'
      /\ source a' = Some t /\ a_currentTime a' = 0 /\ a_duration a' = None
      /\ paused a' = true /\ loads a' = S (loads a) /\ plays a' = plays a)
  /\ currentTime (st w') = 0
  /\ progressIntervalRef w' = None
  /\ isLoading (st w') = (isPlaying (st w) || trackEndedRef w)
  /\ pending w'
     = (pending w ++ if isPlaying (st w) || trackEndedRef w
                     then [Timer 500 (KTrackTimer (st w))] else [])%list.
Proof.
  intros Ha Ht Hdep.
  pose proof (dependency_changed prev (st w) t Ht Hdep) as Hdue. clear Hdep.
  destruct w as [s oa c pb hi pi ld te pd ls nl]. cbn in Ha, Ht, Hdue. subst oa.
  unfold commit, progressEffect, trackChangeEffect. run_action.
  rewrite Hdue, Ht. cbn.
  destruct (progressEffect_due prev s); cbn; rewrite ?Ht; cbn;
    destruct (isPlaying s) eqn:Ep; cbn; rewrite ?Ep; cbn;
    try (destruct te; cbn);
    rewrite ?app_nil_r;
    (split; [eexists; repeat split; cbn; apply Nat.add_1_r | repeat split]).
Qed.

Lemma track_effect_runs_on_every_dependency_witness :
  option_map a_currentTime
    (audioRef (exec (commit (with_duration (Some 100) (st playingWorld))) playingWorld))
  = Some 0.
Proof.
  destruct (audioRef playingWorld) as [a|] eqn:Ea; [|vm_compute in Ea; discriminate Ea].
  assert (Ht0 : currentTrack (st playingWorld) = Some "a.mp3") by (vm_compute; reflexivity).
  assert (Hd : same_number (duration (with_duration (Some 100) (st playingWorld)))
                 (duration (st playingWorld)) = false) by (vm_compute; reflexivity).
  destruct (track_effect_runs_on_every_dependency
              (with_duration (Some 100) (st playingWorld)) playingWorld a "a.mp3" Ea Ht0
              (or_intror (or_intror (or_introl Hd))))
    as ((a' & Ha' & _ & Ht & _) & _).
  rewrite Ha'. cbn. now rewrite Ht.
Defined.

(** ** What the effect does to a seek *)

Lemma handle_pointer_down_frame (e : PointerEvent) (r : Render) (w : World) :
  isDragging (st (exec (handle (EPointerDown e) r) w)) = true
  /\ currentTrack (st (exec (handle (EPointerDown e) r) w)) = currentTrack (st w)
  /\ (audioRef w <> None -> audioRef (exec (handle (EPointerDown e) r) w) <> None).
Proof.
  split; [apply handleProgressBarDown_listens|]. split.
  - apply (handle_same_track_and_count (EPointerDown e) r w).
  - apply (handle_audio_kept (EPointerDown e) r w).
Qed.

Lemma handle_pointer_up_frame (r : Render) (w : World) :
  listeners w <> [] ->
  isDragging (st (exec (handle EPointerUp r) w)) = false
  /\ currentTrack (st (exec (handle EPointerUp r) w)) = currentTrack (st w)
  /\ (audioRef w <> None -> audioRef (exec (handle EPointerUp r) w) <> None).
Proof.
  intros Hl. split; [|split].
  - unfold handle. rewrite exec_bind. cbn [fst get].
    apply for_each_handleUp_isDragging. exact Hl.
  - apply (handle_same_track_and_count EPointerUp r w).
  - apply (handle_audio_kept EPointerUp r w).
Qed.

(** X17: what becomes of a seek on the progress bar.  The pointer-down sets
    [isDragging], and the release clears it; each is a change of a
    dependency of the track effect, so with a track selected the render that
    follows either of them reloads the element: after the pointer-down, and
    again after the release, the element is paused at position 0 and the
    shown time is 0, whatever position the handler wrote. *)
Theorem seek_by_drag_is_reset_by_the_effect :
  (forall e w w' t,
      step (EPointerDown e) w = Some w' ->
      isDragging (st w) = false -> currentTrack (st w) = Some t -> audioRef w <> None ->
      isDragging (st w') = true /\ currentTime (st w') = 0
      /\ exists a', audioRef w' = Some a' /\ a_currentTime a' = 0 /\ paused a' = true)
  /\ (forall w w' t,
        step EPointerUp w = Some w' ->
        listeners w <> [] ->
        isDragging (st w) = true -> currentTrack (st w) = Some t -> audioRef w <> None ->
        isDragging (st w') = false /\ currentTime (st w') = 0
        /\ exists a', audioRef w' = Some a' /\ a_currentTime a' = 0 /\ paused a' = true).
Proof.
  split.
  - intros e w w' t Hstep Hd Ht Ha. apply step_inv in Hstep; [|reflexivity].
    destruct Hstep as [_ ->].
    destruct (handle_pointer_down_frame e (st w) w) as (Hd1 & Ht1 & Ha1).
    specialize (Ha1 Ha). rewrite Ht in Ht1.
    destruct (audioRef (exec (handle (EPointerDown e) (st w)) w)) as [a1|] eqn:Ea1;
      [|congruence].
    destruct (commit_reloads (st w) _ a1 t Ea1 Ht1) as ((a' & Ha' & Hz & _ & Hp & _) & Hct).
    { apply (dependency_changed _ _ t Ht1).
      right. right. right. rewrite Hd, Hd1. discriminate. }
    split; [|split; [exact Hct | exists a'; repeat split; assumption]].
    rewrite (proj2 (commit_listeners _ _)). exact Hd1.
  - intros w w' t Hstep Hl Hd Ht Ha. apply step_inv in Hstep; [|reflexivity].
    destruct Hstep as [_ ->].
    destruct (handle_pointer_up_frame (st w) w Hl) as (Hd1 & Ht1 & Ha1).
    specialize (Ha1 Ha). rewrite Ht in Ht1.
    destruct (audioRef (exec (handle EPointerUp (st w)) w)) as [a1|] eqn:Ea1;
      [|congruence].
    destruct (commit_reloads (st w) _ a1 t Ea1 Ht1) as ((a' & Ha' & Hz & _ & Hp & _) & Hct).
    { apply (dependency_changed _ _ t Ht1).
      right. right. right. rewrite Hd, Hd1. discriminate. }
    split; [|split; [exact Hct | exists a'; repeat split; assumption]].
    rewrite (proj2 (commit_listeners _ _)). exact Hd1.
Qed.

Lemma seek_by_drag_is_reset_by_the_effect_witness :
  option_map a_currentTime (audioRef (after (dragStart ++ [EPointerUp]) playingWorld))
  = Some 0.
Proof.
  assert (Hstep : step EPointerUp (after dragStart playingWorld)
                  = Some (after (dragStart ++ [EPointerUp]) playingWorld))
    by (vm_compute; reflexivity).
  assert (Hl : listeners (after dragStart playingWorld) <> [])
    by (vm_compute; discriminate).
  assert (Hd : isDragging (st (after dragStart playingWorld)) = true)
    by (vm_compute; reflexivity).
  assert (Ht : currentTrack (st (after dragStart playingWorld)) = Some "a.mp3")
    by (vm_compute; reflexivity).
  assert (Ha : audioRef (after dragStart playingWorld) <> None)
    by (vm_compute; discriminate).
  destruct (proj2 seek_by_drag_is_reset_by_the_effect
              (after dragStart playingWorld) _ "a.mp3" Hstep Hl Hd Ht Ha)
    as (_ & _ & a' & Ha' & Hz & _).
  rewrite Ha'. cbn. now rewrite Hz.
Defined.

(** ** Whole minutes and seconds *)




(** ** The time display *)










(** ** The progress fill *)

(** X19: [progressPercentage] is 0, and the drag handle hidden, when the
    duration is [NaN] or not positive; it lies in [[0, 100]] when
    [0 <= currentTime <= duration].  Right after
    [handleProgressBarInteraction] on a bar of width other than 0 it is the
    clamped pointer position times 100, so that for a pointer inside the bar
    the fill ends at the pointer. *)
Theorem progress_fill_follows_the_pointer :
  (forall r, duration r = None \/ (exists d, duration r = Some d /\ d <= 0) ->
     progressPercentage r = 0 /\ dragHandleShown r = false)
  /\ (forall r d,
        duration r = Some d -> 0 < d -> 0 <= currentTime r -> currentTime r <= d ->
        0 <= progressPercentage r /\ progressPercentage r <= 100)
  /\ (forall w e rect d x,
        progressBarRef w = Some rect -> ~ rect_width rect == 0 ->
        duration (st w) = Some d -> 0 < d -> clientX_of e = Some x ->
        let w' := exec (handleProgressBarInteraction (st w) e) w in
        progressPercentage (st w')
        == Qmax 0 (Qmin 1 ((x - rect_left rect) / rect_width rect)) * 100
        /\ (0 < rect_width rect -> rect_left rect <= x ->
            x <= rect_left rect + rect_width rect ->
            rect_left rect + progressPercentage (st w') / 100 * rect_width rect == x)).
Proof.
  split; [|split].
  - intros r [Hn | (d & Hd & Hle)]; unfold dragHandleShown, progressPercentage.
    + rewrite Hn. split; reflexivity.
    + rewrite Hd. apply Qle_bool_iff in Hle. rewrite Hle. split; reflexivity.
  - intros r d Hd Hpos H0 H1. unfold progressPercentage. rewrite Hd.
    assert (Hnle : Qle_bool d 0 = false).
    { destruct (Qle_bool d 0) eqn:E; [|reflexivity].
      apply Qle_bool_iff in E. lra. }
    rewrite Hnle. split.
    + apply Qmult_le_0_compat; [|discriminate].
      apply Qle_shift_div_l; [exact Hpos | lra].
    + assert (H : currentTime r / d <= 1) by (apply Qle_shift_div_r; [exact Hpos | lra]).
      lra.
  - intros w e rect d x Hbar Hw Hd Hpos Hx.
    assert (Hnle : Qle_bool d 0 = false).
    { destruct (Qle_bool d 0) eqn:E; [|reflexivity].
      apply Qle_bool_iff in E. lra. }
    assert (Hpct : progressPercentage (st (exec (handleProgressBarInteraction (st w) e) w))
                   == Qmax 0 (Qmin 1 ((x - rect_left rect) / rect_width rect)) * 100).
    { destruct w as [[tr ct ip er mu so il rc cti du dr sp] oa c pb hi pi ld te pd ls nl].
      cbn in Hbar, Hd. subst pb du.
      unfold handleProgressBarInteraction. run_action. rewrite Hnle, Hx. cbn.
      destruct dr; cbn; [|destruct oa; cbn]; unfold progressPercentage; cbn;
        rewrite Hnle; field; intros Hz; rewrite Hz in Hpos; discriminate. }
    cbv zeta. split; [exact Hpct|].
    intros Hwpos Hlo Hhi. rewrite Hpct.
    assert (Hp0 : 0 <= (x - rect_left rect) / rect_width rect)
      by (apply Qle_shift_div_l; [exact Hwpos | lra]).
    assert (Hp1 : (x - rect_left rect) / rect_width rect <= 1)
      by (apply Qle_shift_div_r; [exact Hwpos | lra]).
    rewrite (proj2 (Q.min_r_iff _ _) Hp1), (proj2 (Q.max_r_iff _ _) Hp0).
    field. exact Hw.
Qed.

(** 50 s into a track of 200 s. *)
Lemma progress_fill_follows_the_pointer_witness :
  0 <= progressPercentage (with_currentTime 50 (with_duration (Some 200) initialRender))
  /\ progressPercentage (with_currentTime 50 (with_duration (Some 200) initialRender)) <= 100.
Proof.
  apply (proj1 (proj2 progress_fill_follows_the_pointer)
           (with_currentTime 50 (with_duration (Some 200) initialRender)) 200).
  - reflexivity.
  - reflexivity.
  - unfold Qle. simpl. lia.
  - unfold Qle. simpl. lia.
Defined.

(** ** The title of the track *)

Lemma replace_underscores_clean (s : string) : occurs "_" (replace_underscores s) = false.
Proof.
  unfold occurs. induction s as [|c s IH]; [reflexivity|].
  cbn [replace_underscores list_ascii_of_string existsb]. rewrite IH, orb_false_r.
  destruct (Ascii.eqb_spec c "_") as [->|Hc]; [reflexivity|].
  destruct (Ascii.eqb_spec "_" c) as [<-|_]; [congruence | reflexivity].
Qed.

Lemma replace_underscores_length (s : string) :
  String.length (replace_underscores s) = String.length s.
Proof. induction s as [|c s IH]; [reflexivity|]. cbn. now rewrite IH. Qed.

Lemma replace_first_extension (stem rest : string) :
  occurs "." stem = false -> replace ".mp3" "" (stem ++ ".mp3" ++ rest) = stem ++ rest.
Proof.
  unfold occurs. induction stem as [|c stem IH]; intros Hdot.
  - cbn. replace (prefix "" rest) with true by (destruct rest; reflexivity).
    rewrite Nat.sub_0_r. apply substring_whole.
  - cbn in Hdot. apply orb_false_iff in Hdot. destruct Hdot as [Hc Hrest].
    cbn [append replace prefix].
    destruct (ascii_dec "." c) as [E|E]; [subst c; discriminate Hc|].
    f_equal. apply IH. exact Hrest.
Qed.

(** X20: the title shown is "No track selected" without a track; otherwise
    it never contains an underscore, and of a name [stem.mp3...] whose stem
    has no dot it drops the first ".mp3" only and shows the underscores as
    spaces, so that the title of [stem.mp3] is as long as the stem; a name
    without a dot is shown whole. *)
Theorem track_title_drops_extension_and_underscores :
  trackTitle None = "No track selected"
  /\ (forall t, occurs "_" (trackTitle (Some t)) = false)
  /\ (forall stem rest,
        occurs "." stem = false ->
        trackTitle (Some (stem ++ ".mp3" ++ rest)) = replace_underscores (stem ++ rest))
  /\ (forall stem,
        occurs "." stem = false ->
        String.length (trackTitle (Some (stem ++ ".mp3"))) = String.length stem)
  /\ (forall t, occurs "." t = false -> trackTitle (Some t) = replace_underscores t).
Proof.
  split; [reflexivity|]. split; [intros t; apply replace_underscores_clean|].
  split; [|split].
  - intros stem rest H. unfold trackTitle. now rewrite replace_first_extension.
  - intros stem H. unfold trackTitle.
    change (stem ++ ".mp3") with (stem ++ ".mp3" ++ "").
    rewrite replace_first_extension by exact H.
    rewrite replace_underscores_length.
    clear H. induction stem as [|c s IH]; [reflexivity|]. cbn. now rewrite IH.
  - intros t H. unfold trackTitle. f_equal. unfold occurs in H.
    induction t as [|c t IH]; [reflexivity|].
    cbn in H. apply orb_false_iff in H. destruct H as [Hc Ht].
    cbn [replace prefix].
    destruct (ascii_dec "." c) as [E|E]; [subst c; discriminate Hc|].
    f_equal. apply IH. exact Ht.
Qed.

Lemma track_title_drops_extension_and_underscores_witness :
  trackTitle (Some "night_drive.mp3") = replace_underscores "night_drive".
Proof.
  apply (proj1 (proj2 (proj2 track_title_drops_extension_and_underscores)) "night_drive" "").
  reflexivity.
Defined.

(** ** The numbers of a frame *)

Lemma inject_Z_pos (z : Z) : (0 < z)%Z -> 0 < inject_Z z.
Proof. intros H. change 0 with (inject_Z 0). now rewrite <- Zlt_Qlt. Qed.

Lemma inject_Z_nonneg (z : Z) : (0 <= z)%Z -> 0 <= inject_Z z.
Proof. intros H. change 0 with (inject_Z 0). now rewrite <- Zle_Qle. Qed.

Lemma scaled_index_range (i count n : Z) :
  (0 < count)%Z -> (0 < n)%Z -> (0 <= i < count)%Z ->
  0 <= inject_Z i / inject_Z count * inject_Z n
  /\ inject_Z i / inject_Z count * inject_Z n < inject_Z n.
Proof.
  intros Hc Hn Hi.
  pose proof (inject_Z_pos count Hc) as Hc'. pose proof (inject_Z_pos n Hn) as Hn'.
  assert (H0 : 0 <= inject_Z i / inject_Z count).
  { apply Qle_shift_div_l; [exact Hc'|]. rewrite Qmult_0_l. apply inject_Z_nonneg. lia. }
  assert (H1 : inject_Z i / inject_Z count < 1).
  { apply Qlt_shift_div_r; [exact Hc'|]. rewrite Qmult_1_l. rewrite <- Zlt_Qlt. lia. }
  split.
  - apply Qmult_le_0_compat; [exact H0 | now apply Qlt_le_weak].
  - rewrite <- (Qmult_1_l (inject_Z n)) at 2. now apply Qmult_lt_compat_r.
Qed.

Lemma particleFreqIndex_range (i n : Z) :
  (0 < n)%Z -> (0 <= i < particleCount)%Z -> (0 <= particleFreqIndex i n < n)%Z.
Proof.
  intros Hn Hi. destruct (scaled_index_range i particleCount n ltac:(reflexivity) Hn Hi)
    as [H0 H1].
  unfold particleFreqIndex. split.
  - change 0%Z with (Qfloor 0). now apply Qfloor_resp_le.
  - rewrite Zlt_Qlt. eapply Qle_lt_trans; [apply Qfloor_le | exact H1].
Qed.

Lemma barFreqIndex_range (i n : Z) :
  (0 < n)%Z -> (0 <= i < barCount)%Z ->
  (0 <= barFreqIndex i n)%Z /\ (2 * barFreqIndex i n < n)%Z.
Proof.
  intros Hn Hi. destruct (scaled_index_range i barCount n ltac:(reflexivity) Hn Hi)
    as [H0 H1].
  unfold barFreqIndex.
  set (x := inject_Z i / inject_Z barCount * inject_Z n) in *.
  split.
  - change 0%Z with (Qfloor 0). apply Qfloor_resp_le.
    apply Qle_shift_div_l; [reflexivity | lra].
  - rewrite Zlt_Qlt, inject_Z_mult. change (inject_Z 2) with 2.
    pose proof (Qfloor_le (x / 2)) as Hf.
    assert (Hx : x / 2 * 2 == x) by field.
    set (y := x / 2) in *. lra.
Qed.

Lemma index_bytes (dataArray : list Z) (k : Z) :
  bytes dataArray -> (0 <= k < Z.of_nat (List.length dataArray))%Z ->
  exists b, index dataArray k = Some b /\ (0 <= b <= 255)%Z.
Proof.
  intros Hb Hk. destruct (index_in_range dataArray k Hk) as (b & Hidx & Hin).
  exists b. split; [exact Hidx|]. unfold bytes in Hb. rewrite Forall_forall in Hb. auto.
Qed.

Lemma amplitude_threshold (b : Z) :
  Qle_bool (5 # 100) (inject_Z b / 255) = (13 <=? b)%Z.
Proof.
  destruct (Z.leb_spec 13 b) as [H|H].
  - apply Qle_bool_iff. apply Qle_shift_div_l; [reflexivity|].
    assert (H' : inject_Z 13 <= inject_Z b) by (rewrite <- Zle_Qle; exact H).
    change (inject_Z 13) with 13 in H'. lra.
  - destruct (Qle_bool (5 # 100) (inject_Z b / 255)) eqn:E; [|reflexivity].
    apply Qle_bool_iff in E.
    assert (H' : inject_Z b <= inject_Z 12) by (rewrite <- Zle_Qle; lia).
    change (inject_Z 12) with 12 in H'.
    assert (Hq : inject_Z b / 255 * 255 == inject_Z b) by field.
    set (q := inject_Z b / 255) in *. lra.
Qed.

Lemma length_pos {A : Type} (l : list A) : l <> [] -> (0 < Z.of_nat (List.length l))%Z.
Proof. destruct l; [congruence | simpl; lia]. Qed.

Lemma amplitude_bounds (b : Z) :
  (0 <= b <= 255)%Z -> 0 <= inject_Z b / 255 /\ inject_Z b / 255 <= 1.
Proof.
  intros Hb.
  assert (H0 : inject_Z 0 <= inject_Z b) by (rewrite <- Zle_Qle; lia).
  assert (H1 : inject_Z b <= inject_Z 255) by (rewrite <- Zle_Qle; lia).
  change (inject_Z 0) with 0 in H0. change (inject_Z 255) with 255 in H1.
  assert (Hq : inject_Z b / 255 * 255 == inject_Z b) by field.
  set (q := inject_Z b / 255) in *. split; lra.
Qed.

Lemma hue_bounds (k count : Z) :
  (0 < count)%Z -> (0 <= k < count)%Z ->
  180 <= inject_Z k / inject_Z count * 260 + 180
  /\ inject_Z k / inject_Z count * 260 + 180 < 440.
Proof.
  intros Hc Hk. pose proof (inject_Z_pos count Hc) as Hc'.
  assert (H0 : 0 <= inject_Z k / inject_Z count).
  { apply Qle_shift_div_l; [exact Hc'|]. rewrite Qmult_0_l. apply inject_Z_nonneg. lia. }
  assert (H1 : inject_Z k / inject_Z count < 1).
  { apply Qlt_shift_div_r; [exact Hc'|]. rewrite Qmult_1_l. rewrite <- Zlt_Qlt. lia. }
  set (f := inject_Z k / inject_Z count) in *. split; lra.
Qed.

(** X21: the frame drawn while a track plays.  For a nonempty byte array,
    every one of the 200 particle turns reads a bin inside the array, skips
    the particle when the byte is below 13 (amplitude below 0.05) and
    otherwise pushes one of size in (1, 6], opacity in (0, 0.8] and hue in
    [180, 440); every one of the 180 bars reads a bin in the lower half of
    the array and has a height in [5, 105] and a hue in [180, 440).  No
    amplitude is [NaN]. *)
Theorem visualizer_reads_inside_the_spectrum :
  (forall cos sin PI width height dataArray i,
      bytes dataArray -> dataArray <> [] -> (0 <= i < particleCount)%Z ->
      exists b,
        index dataArray (particleFreqIndex i (Z.of_nat (List.length dataArray))) = Some b
        /\ ((b < 13)%Z -> particle cos sin PI width height dataArray i = Continue)
        /\ ((13 <= b)%Z ->
            exists p, particle cos sin PI width height dataArray i = Push p
              /\ 1 < p_size p /\ p_size p <= 6
              /\ 0 < p_alpha p /\ p_alpha p <= 8 # 10
              /\ 180 <= p_hue p /\ p_hue p < 440))
  /\ (forall cos sin PI width height dataArray i,
        bytes dataArray -> dataArray <> [] -> (0 <= i < barCount)%Z ->
        (2 * barFreqIndex i (Z.of_nat (List.length dataArray))
         < Z.of_nat (List.length dataArray))%Z
        /\ exists b, bar cos sin PI width height dataArray i = Some b
             /\ 5 <= barHeight b /\ barHeight b <= 105
             /\ 180 <= b_hue b /\ b_hue b < 440).
Proof.
  split.
  - intros cos sin PI width height dataArray i Hb Hne Hi.
    pose proof (length_pos dataArray Hne) as Hn.
    pose proof (particleFreqIndex_range i _ Hn Hi) as Hk.
    destruct (index_bytes dataArray _ Hb Hk) as (b & Hidx & Hbyte).
    exists b. split; [exact Hidx|].
    unfold particle, amplitudeAt. cbv zeta. rewrite Hidx. cbn [option_map].
    rewrite amplitude_threshold. split.
    + intros Hlt. destruct (Z.leb_spec 13 b); [lia | reflexivity].
    + intros Hge. destruct (Z.leb_spec 13 b); [|lia]. cbn [negb].
      eexists. split; [reflexivity|]. cbn [p_size p_alpha p_hue].
      destruct (amplitude_bounds b Hbyte) as [_ Ha1].
      assert (Ha0 : 5 # 100 <= inject_Z b / 255).
      { apply Qle_bool_iff. rewrite amplitude_threshold. now apply Z.leb_le. }
      destruct (hue_bounds _ _ Hn Hk) as [Hh0 Hh1].
      set (a := inject_Z b / 255) in *.
      repeat split; try assumption; lra.
  - intros cos sin PI width height dataArray i Hb Hne Hi.
    pose proof (length_pos dataArray Hne) as Hn.
    destruct (barFreqIndex_range i _ Hn Hi) as [Hk0 Hk1].
    split; [exact Hk1|].
    destruct (index_bytes dataArray (barFreqIndex i (Z.of_nat (List.length dataArray))) Hb
                ltac:(lia)) as (b & Hidx & Hbyte).
    unfold bar, amplitudeAt. cbv zeta. rewrite Hidx. cbn [option_map].
    eexists. split; [reflexivity|]. cbn [barHeight b_hue].
    destruct (amplitude_bounds b Hbyte) as [Ha0 Ha1].
    destruct (hue_bounds i barCount ltac:(reflexivity) Hi) as [Hh0 Hh1].
    set (a := inject_Z b / 255) in *.
    repeat split; try assumption; lra.
Qed.

(** Four bins, the last particle: the bin read is the last one. *)
Lemma visualizer_reads_inside_the_spectrum_witness :
  exists b,
    index [0; 12; 13; 255]%Z (particleFreqIndex 199 (Z.of_nat (List.length [0; 12; 13; 255]%Z)))
    = Some b.
Proof.
  destruct (proj1 visualizer_reads_inside_the_spectrum (fun x => x) (fun x => x) 3 800 600
              [0; 12; 13; 255]%Z 199%Z) as (b & Hb & _).
  - repeat constructor; lia.
  - discriminate.
  - unfold particleCount. lia.
  - exists b. exact Hb.
Defined.

(** ** Polling the element, and its metadata *)

(** X22: a tick of the progress interval.  When the render that made the
    interval has [isDragging], it changes nothing.  Otherwise it shows the
    element's [currentTime]; when the element's duration is [NaN] or equal to
    the one of that render nothing else changes, and when it is a different
    number it becomes the [duration] state. *)
Theorem progress_tick_shows_the_element_time (w w' : World) (r' : Render) (a : Audio) :
  step EProgressTick w = Some w' ->
  progressIntervalRef w = Some r' -> audioRef w = Some a ->
  (isDragging r' = true -> w' = w)
  /\ (isDragging r' = false ->
      changed_number (a_duration a) (duration r') = false ->
      w' = upd_st (with_currentTime (a_currentTime a)) w)
  /\ (isDragging r' = false -> forall d,
      a_duration a = Some d -> changed_number (Some d) (duration r') = true ->
      duration (st w') = Some d).
Proof.
  intros Hstep Hi Ha. apply step_inv in Hstep; [|reflexivity]. destruct Hstep as [_ ->].
  destruct w as [[tr ct ip er mu so il rc cti du dr sp] oa c pb hi pi ld te pd ls nl].
  cbn in Hi, Ha. subst pi oa. split; [|split].
  - intros Hd. rewrite commit_noop; unfold handle, updateProgress; run_action; rewrite Hd;
      reflexivity.
  - intros Hd Hc. rewrite commit_noop; unfold handle, updateProgress; run_action;
      rewrite Hd, Hc; reflexivity.
  - intros Hd d Had Hc.
    unfold handle, updateProgress. run_action. rewrite Hd, Had. cbn.
    cbn in Hc. destruct (duration r') as [y|]; rewrite ?Hc; cbn.
    all: unfold commit, progressEffect, trackChangeEffect; run_action; crush; reflexivity.
Qed.

Lemma progress_tick_shows_the_element_time_witness :
  currentTime (st (after [EPlayhead 42; EProgressTick] playingWorld)) = 42.
Proof.
  destruct (audioRef (after [EPlayhead 42] playingWorld)) as [a|] eqn:Ea;
    [|vm_compute in Ea; discriminate Ea].
  destruct (progressIntervalRef (after [EPlayhead 42] playingWorld)) as [r'|] eqn:Er;
    [|vm_compute in Er; discriminate Er].
  assert (Hstep : step EProgressTick (after [EPlayhead 42] playingWorld)
                  = Some (after [EPlayhead 42; EProgressTick] playingWorld))
    by (vm_compute; reflexivity).
  destruct (progress_tick_shows_the_element_time _ _ r' a Hstep Er Ea) as (_ & H & _).
  rewrite H.
  - vm_compute in Ea. injection Ea as <-. reflexivity.
  - vm_compute in Er. injection Er as <-. reflexivity.
  - vm_compute in Er, Ea. injection Er as <-. injection Ea as <-. reflexivity.
Defined.

(** X23: [loadedmetadata] makes the element's duration the [duration] state
    and changes neither the track nor [isPlaying].  When the state had that
    duration already, nothing else changes and the element goes on as it
    was; when it had another one and a track is selected, the change of
    [duration] runs the track effect, which reloads the element: it is
    paused at 0 and its duration is unknown again. *)
Theorem metadata_sets_the_duration (w w' : World) (d : Q) :
  step (ELoadedMetadata d) w = Some w' ->
  duration (st w') = Some d
  /\ currentTrack (st w') = currentTrack (st w)
  /\ isPlaying (st w') = isPlaying (st w)
  /\ (same_number (duration (st w)) (Some d) = true ->
      st w' = with_duration (Some d) (st w)
      /\ pending w' = pending w
      /\ forall a, audioRef w = Some a ->
           exists a', audioRef w' = Some a' /\ a_duration a' = Some d
             /\ paused a' = paused a /\ a_currentTime a' = a_currentTime a
             /\ loads a' = loads a)
  /\ (same_number (duration (st w)) (Some d) = false ->
      forall a t, audioRef w = Some a -> currentTrack (st w) = Some t ->
        exists a', audioRef w' = Some a' /\ a_duration a' = None
          /\ paused a' = true /\ a_currentTime a' = 0 /\ loads a' = S (loads a)).
Proof.
  intros Hstep. apply step_inv in Hstep; [|reflexivity]. destruct Hstep as [En ->].
  destruct w as [[tr ct ip er mu so il rc cti du dr sp] [a|] c pb hi pi ld te pd ls nl];
    [|discriminate En].
  assert (Hh : exec (handle (ELoadedMetadata d) (mkRender tr ct ip er mu so il rc cti du dr sp))
                 (mkWorld (mkRender tr ct ip er mu so il rc cti du dr sp) (Some a) c pb hi pi
                    ld te pd ls nl)
               = mkWorld (mkRender tr ct ip er mu so il rc cti (Some d) dr sp)
                   (Some (mkAudio (source a) (a_currentTime a) (Some d) (paused a) (a_muted a)
                            (Z.max (readyState a) 1) (seeks a) (loads a) (plays a)))
                   c pb hi pi ld te pd ls nl).
  { unfold handle, handleMetadataLoaded. run_action. reflexivity. }
  cbn [st]. rewrite Hh. clear Hh En.
  split; [|split; [|split; [|split]]].
  - unfold commit, progressEffect, trackChangeEffect. run_action. crush; reflexivity.
  - exact (proj1 (commit_same_track_and_count _ _)).
  - apply commit_isPlaying.
  - intros Hsame. cbn in Hsame.
    unfold commit, progressEffect_due, trackChangeEffect_due, tracking_changed.
    run_action. rewrite Hsame, same_track_refl, !eqb_reflx. cbn.
    repeat split. intros a0 [= <-]. eexists. repeat split.
  - intros Hdiff a0 t [= <-] Ht. cbn in Hdiff, Ht. subst ct.
    destruct (commit_reloads (mkRender tr (Some t) ip er mu so il rc cti du dr sp)
                (mkWorld (mkRender tr (Some t) ip er mu so il rc cti (Some d) dr sp)
                   (Some (mkAudio (source a) (a_currentTime a) (Some d) (paused a) (a_muted a)
                            (Z.max (readyState a) 1) (seeks a) (loads a) (plays a)))
                   c pb hi pi ld te pd ls nl) _ t eq_refl eq_refl)
      as ((a' & H1 & H2 & H3 & H4 & H5) & _).
    { cbn [st]. apply dependency_changed with (t := t); [reflexivity|].
      right. right. left. exact Hdiff. }
    exists a'. repeat split; assumption.
Qed.

Lemma metadata_sets_the_duration_witness :
  duration (st (after [ELoadedMetadata 180] playingWorld)) = Some 180.
Proof.
  assert (Hstep : step (ELoadedMetadata 180) playingWorld
                  = Some (after [ELoadedMetadata 180] playingWorld))
    by (vm_compute; reflexivity).
  exact (proj1 (metadata_sets_the_duration _ _ _ Hstep)).
Defined.

(** ** Resuming with the toggle button *)

Lemma toggle_play_continues (r : Render) (rnd : Q) (fresh : AudioContextState) (w : World) :
  let w' := exec (run (KTogglePlay r) true rnd fresh) w in
  isPlaying (st w') = true /\ isLoading (st w') = false /\ error (st w') = None
  /\ progressIntervalRef w' = Some r
  /\ audioRef w' = audioRef w /\ pending w' = pending w
  /\ trackEndedRef w' = trackEndedRef w.
Proof.
  destruct w as [[] oa c pb hi pi ld te pd ls nl].
  unfold run. run_action. repeat split.
Qed.

(** X24: resuming with the toggle button.  With a running context the click
    sets [isLoading] and calls [play()] once, without reloading or moving
    the element; no effect runs.  A rejected [play()] clears [isPlaying] and
    [isLoading] and sets "Failed to resume playback. Please try again.".  A
    fulfilled one starts the paused element, whose [play] event sets
    [isPlaying]; React renders, and as [isPlaying] changed the track effect
    reloads the element, paused at position 0, and schedules a [play()]
    500 ms later; the continuation of the promise then sets [isPlaying],
    clears [isLoading] and [error] and starts polling, and touches neither
    the element nor the pending work. *)
Theorem toggle_resume_outcomes :
  (forall w w' a,
      step EToggle w = Some w' ->
      isPlaying (st w) = false -> audioRef w = Some a ->
      is_suspended (audioContextRef w) = false ->
      st w' = with_isLoading true (st w)
      /\ pending w' = (pending w ++ [PlayPromise (KTogglePlay (st w))])%list
      /\ exists a', audioRef w' = Some a' /\ plays a' = S (plays a)
           /\ loads a' = loads a /\ a_currentTime a' = a_currentTime a
           /\ paused a' = paused a)
  /\ (forall r rnd fresh w,
        let w' := exec (run (KTogglePlay r) true rnd fresh) w in
        isPlaying (st w') = true /\ isLoading (st w') = false /\ error (st w') = None
        /\ progressIntervalRef w' = Some r
        /\ audioRef w' = audioRef w /\ pending w' = pending w)
  /\ (forall r rnd fresh w,
        let w' := exec (settle (PlayPromise (KTogglePlay r)) false rnd fresh) w in
        isPlaying (st w') = false /\ isLoading (st w') = false
        /\ error (st w') = Some "Failed to resume playback. Please try again."
        /\ audioRef w' = audioRef w /\ pending w' = pending w)
  /\ (forall w w' i r rnd fresh a t,
        nth_error (pending w) i = Some (PlayPromise (KTogglePlay r)) ->
        step (ESettle i true rnd fresh) w = Some w' ->
        isPlaying (st w) = false -> audioRef w = Some a -> paused a = true ->
        currentTrack (st w) = Some t ->
        isPlaying (st w') = true /\ isLoading (st w') = false /\ error (st w') = None
        /\ currentTime (st w') = 0
        /\ progressIntervalRef w' = Some r
        /\ pending w'
           = (remove_nth i (pending w)
              ++ [Timer 500 (KTrackTimer (with_isPlaying true (st w)))])%list
        /\ exists a', audioRef w' = Some a' /\ source a' = Some t /\ paused a' = true
             /\ a_currentTime a' = 0 /\ loads a' = S (loads a) /\ plays a' = plays a).
Proof.
  split; [|split; [|split]].
  - intros w w' a Hstep Hp Ha Hs. apply step_inv in Hstep; [|reflexivity].
    destruct Hstep as [_ ->].
    destruct w as [[tr ct ip er mu so il rc cti du dr sp] oa c pb hi pi ld te pd ls nl].
    cbn in Hp, Ha, Hs. subst ip oa.
    rewrite commit_noop; unfold handle, togglePlayPause, togglePlayPause_resumed, audio_play;
      run_action; rewrite ?Hs; cbn; try reflexivity.
    repeat split. eexists. repeat split. cbn. apply Nat.add_1_r.
  - intros r rnd fresh w.
    destruct (toggle_play_continues r rnd fresh w) as (H1 & H2 & H3 & H4 & H5 & H6 & _).
    repeat split; assumption.
  - intros r rnd fresh [s oa c pb hi pi ld te pd ls nl].
    unfold settle, run, togglePlayPause_catch. run_action. repeat split.
  - intros w w' i r rnd fresh a t Hnth Hstep Hp Ha Hpa Ht.
    rewrite (step_fulfilled_play w w' i _ rnd fresh Hnth Hstep).
    rewrite (played_paused w i a t Hp Ha Hpa Ht).
    rewrite commit_noop; unfold run; run_action; try reflexivity.
    repeat split. eexists. repeat split. cbn. apply Nat.add_1_r.
Qed.
